(** * A file-backed B-tree (BTree.h) and a sorted-array index (ProductIndex.cpp)

    Shallow embedding of the two index classes of the repository and the
    properties their specification states about them.

    Conventions of the embedding.
    - [char] arrays are [string]s (one [ascii] per byte); [strcmp] compares
      them as C does, as unsigned bytes up to the first NUL.
    - [size_t] is a 64-bit unsigned integer: the geometry constants are
      computed in [Z] with the reduction modulo 2^64 written out.  [int] and
      [long] values (counts, locations, node numbers, counters) are [Z];
      the places where the source converts a [size_t] to [int] go through
      [to_int].  The counters only grow by one per node or item written, so
      they stay far from the 64-bit limits for every file that can exist.
    - A node is the struct as it sits in memory and on disk: the count, the
      whole record array and the whole branch array, stale slots included.
    - An index file is the list of its node-sized blocks; the stream reads
      and writes whole blocks at byte positions.
    - The file system is a map from paths to files, with a predicate telling
      at which paths a file can be created; opening a file for writing
      elsewhere fails.
    - A [throw] is the [Throw] outcome; a recursion that follows node
      numbers found on disk takes fuel and answers [None] when it runs out. *)

From Stdlib Require Import ZArith Lia String Ascii OrderedTypeEx Permutation.
From stdpp Require Import gmap strings list sorting.
Local Open Scope Z_scope.

(** ** C strings *)

Module CStr.

Definition is_nul (c : ascii) : bool := Ascii.eqb c Ascii.zero.

(** The characters of a [char] array up to, not including, the first NUL
    (or the whole array when it holds none). *)
Fixpoint cstr (s : string) : string :=
  match s with
  | EmptyString => EmptyString
  | String c s' => if is_nul c then EmptyString else String c (cstr s')
  end.

(** [strlen]. *)
Definition strlen (s : string) : nat := String.length (cstr s).

(** [std::strcmp], by sign: bytes are compared as unsigned values and the
    comparison stops at the first difference or at a NUL. *)
Fixpoint strcmp (a b : string) : comparison :=
  match a, b with
  | String x a', String y b' =>
      match Ascii.compare x y with
      | Eq => if is_nul x then Eq else strcmp a' b'
      | c => c
      end
  | String x _, EmptyString => if is_nul x then Eq else Gt
  | EmptyString, String y _ => if is_nul y then Eq else Lt
  | EmptyString, EmptyString => Eq
  end.

(** [std::memset(p, 0, n)] on a fresh array: [n] NUL bytes. *)
Fixpoint zeros (n : nat) : string :=
  match n with
  | O => EmptyString
  | S n' => String Ascii.zero (zeros n')
  end.

(** [std::strncpy(dst, src, n)]: exactly [n] bytes of [dst] are written, the
    characters of [src] up to its terminator and NULs after them; the rest
    of [dst] is kept.  (Writing past the end of [dst] is not modelled: the
    array keeps its length.) *)
Fixpoint strncpy (dst src : string) (n : nat) {struct n} : string :=
  match n, dst with
  | O, _ => dst
  | S _, EmptyString => EmptyString
  | S n', String _ dst' =>
      match src with
      | String c src' =>
          if is_nul c then String Ascii.zero (strncpy dst' EmptyString n')
          else String c (strncpy dst' src' n')
      | EmptyString => String Ascii.zero (strncpy dst' EmptyString n')
      end
  end.

(** [strncpy_s(dst, size, src, count)] when the copy fits ([count] is
    below the size of [dst]): at most [count] characters of [src] up to its
    terminator, then one NUL; the rest of [dst] is kept. *)
Fixpoint strncpy_s (dst src : string) (count : nat) {struct count} : string :=
  match dst with
  | EmptyString => EmptyString
  | String _ dst' =>
      match count, src with
      | S count', String c src' =>
          if is_nul c then String Ascii.zero dst'
          else String c (strncpy_s dst' src' count')
      | _, _ => String Ascii.zero dst'
      end
  end.

(** The first [n] characters of a string. *)
Fixpoint prefix_n (n : nat) (s : string) {struct n} : string :=
  match n, s with
  | S n', String c s' => String c (prefix_n n' s')
  | _, _ => EmptyString
  end.

Lemma is_nul_true c : is_nul c = true -> c = Ascii.zero.
Proof. unfold is_nul. intros H. now apply Ascii.eqb_eq. Qed.

Lemma is_nul_zero : is_nul Ascii.zero = true.
Proof. reflexivity. Qed.

Lemma compare_nul_l y : is_nul y = false -> Ascii.compare Ascii.zero y = Lt.
Proof.
  intros H. unfold Ascii.compare. simpl.
  destruct (N_of_ascii y) eqn:E; [|reflexivity].
  assert (y = Ascii.zero) as ->.
  { rewrite <- (ascii_N_embedding y), E. reflexivity. }
  discriminate.
Qed.

Lemma compare_nul_r x : is_nul x = false -> Ascii.compare x Ascii.zero = Gt.
Proof.
  intros H. rewrite Ascii.compare_antisym, compare_nul_l; auto.
Qed.

Lemma ascii_compare_refl x : Ascii.compare x x = Eq.
Proof. unfold Ascii.compare. apply N.compare_refl. Qed.

(** [strcmp] is the lexicographic comparison of the two C strings. *)
Lemma strcmp_cstr a : forall b, strcmp a b = String.compare (cstr a) (cstr b).
Proof.
  induction a as [|x a IH]; intros [|y b]; simpl.
  - reflexivity.
  - destruct (is_nul y); reflexivity.
  - destruct (is_nul x); reflexivity.
  - destruct (is_nul x) eqn:Hx, (is_nul y) eqn:Hy; simpl.
    + apply is_nul_true in Hx, Hy. subst. reflexivity.
    + apply is_nul_true in Hx. subst. now rewrite compare_nul_l.
    + apply is_nul_true in Hy. subst. now rewrite compare_nul_r.
    + destruct (Ascii.compare x y); auto.
Qed.

Lemma strcmp_eq a b : strcmp a b = Eq <-> cstr a = cstr b.
Proof. rewrite strcmp_cstr. apply String_as_OT.cmp_eq. Qed.

Lemma strcmp_refl a : strcmp a a = Eq.
Proof. now apply strcmp_eq. Qed.

Lemma strcmp_antisym a b : strcmp a b = CompOpp (strcmp b a).
Proof. rewrite !strcmp_cstr. apply String.compare_antisym. Qed.

Lemma strcmp_lt_trans a b c :
  strcmp a b = Lt -> strcmp b c = Lt -> strcmp a c = Lt.
Proof.
  rewrite !strcmp_cstr. intros H1 H2.
  apply String_as_OT.cmp_lt in H1, H2. apply String_as_OT.cmp_lt.
  eapply String_as_OT.lt_trans; eauto.
Qed.

Lemma strcmp_eq_l a b c : strcmp a b = Eq -> strcmp a c = strcmp b c.
Proof. intros H. apply strcmp_eq in H. rewrite !strcmp_cstr. now rewrite H. Qed.

Lemma strcmp_eq_r a b c : strcmp a b = Eq -> strcmp c a = strcmp c b.
Proof. intros H. apply strcmp_eq in H. rewrite !strcmp_cstr. now rewrite H. Qed.

Lemma strcmp_gt_lt a b : strcmp a b = Gt <-> strcmp b a = Lt.
Proof.
  rewrite (strcmp_antisym a b). destruct (strcmp b a); simpl; split; congruence.
Qed.

Lemma cstr_idem s : cstr (cstr s) = cstr s.
Proof.
  induction s as [|c s IH]; simpl; auto.
  destruct (is_nul c) eqn:E; simpl; auto. now rewrite E, IH.
Qed.

Lemma strncpy_empty_zeros n : forall dst,
  cstr (strncpy dst EmptyString (S n)) = EmptyString.
Proof. intros [|d dst]; reflexivity. Qed.

(** What a key buffer holds after [memset] and [strncpy]: the first [n]
    characters of the source string, when the buffer has room for them and
    a terminator. *)
Lemma cstr_strncpy_zeros n : forall m src, (n < m)%nat ->
  cstr (strncpy (zeros m) src n) = prefix_n n (cstr src).
Proof.
  induction n as [|n IH]; intros m src Hm.
  - destruct m; [lia|]. simpl. now destruct (cstr src).
  - destruct m as [|m]; [lia|]. simpl.
    destruct src as [|c src]; simpl.
    + reflexivity.
    + destruct (is_nul c) eqn:E; simpl; [reflexivity|].
      rewrite E. f_equal. apply IH. lia.
Qed.

Lemma length_strncpy n : forall dst src,
  String.length (strncpy dst src n) = String.length dst.
Proof.
  induction n as [|n IH]; intros dst src; [reflexivity|].
  destruct dst as [|d dst]; [reflexivity|]. simpl.
  destruct src as [|c src]; simpl; [now rewrite IH|].
  destruct (is_nul c); simpl; now rewrite IH.
Qed.

Lemma length_zeros n : String.length (zeros n) = n.
Proof. induction n; simpl; auto. Qed.

Lemma prefix_n_idem n : forall s, prefix_n n (prefix_n n s) = prefix_n n s.
Proof.
  induction n as [|n IH]; intros [|c s]; simpl; auto. now rewrite IH.
Qed.

Lemma cstr_prefix_n_cstr n : forall s,
  cstr (prefix_n n (cstr s)) = prefix_n n (cstr s).
Proof.
  induction n as [|n IH]; intros [|c s]; simpl; auto.
  destruct (is_nul c) eqn:E; simpl; auto. now rewrite E, IH.
Qed.

Lemma strncpy_zeros_empty n : forall m, strncpy (zeros m) EmptyString n = zeros m.
Proof.
  induction n as [|n IH]; intros m; [reflexivity|].
  destruct m as [|m]; [reflexivity|]. simpl. now rewrite IH.
Qed.

(** The bytes of a key buffer after [memset] and [strncpy]: the truncated
    string, then NULs to the end of the buffer. *)
Lemma strncpy_zeros_bytes n : forall m src, (n <= m)%nat ->
  strncpy (zeros m) src n =
  append (prefix_n n (cstr src)) (zeros (m - String.length (prefix_n n (cstr src)))).
Proof.
  induction n as [|n IH]; intros m src Hm.
  - simpl. now rewrite Nat.sub_0_r.
  - destruct m as [|m]; [lia|]. simpl.
    destruct src as [|c src]; simpl.
    + now rewrite strncpy_zeros_empty.
    + destruct (is_nul c) eqn:E; simpl.
      * now rewrite strncpy_zeros_empty.
      * rewrite IH by lia. reflexivity.
Qed.

Lemma length_prefix_n n : forall s, (n <= String.length s)%nat ->
  String.length (prefix_n n s) = n.
Proof.
  induction n as [|n IH]; intros [|c s] H; simpl in *; try lia.
  f_equal. apply IH. lia.
Qed.

Lemma cstr_strncpy_s n : forall dst src, (n < String.length dst)%nat ->
  cstr (strncpy_s dst src n) = prefix_n n (cstr src).
Proof.
  induction n as [|n IH]; intros [|d dst] src H; simpl in H; try lia.
  - simpl. now destruct (cstr src).
  - destruct src as [|c src]; simpl; [reflexivity|].
    destruct (is_nul c) eqn:E; simpl; [reflexivity|].
    rewrite E. f_equal. apply IH. lia.
Qed.

End CStr.

(** ** The B-tree of BTree.h *)

Module BTree.
Import CStr.

(** [enum class BTreeMode]. *)
Inductive BTreeMode := Read | Write.

(** The two [std::runtime_error]s the class throws: "BTree not open for
    writing" and "Duplicate key insertion attempted". *)
Inductive error := NotWritable | DuplicateKey.

(** How a call ends: it returns a value, or an exception leaves it. *)
Inductive result (A : Type) :=
| Ok (a : A)
| Throw (e : error).
Arguments Ok {A} a.
Arguments Throw {A} e.

(** Integer types of the LP64 data model the header's layout comment
    assumes ("Count:4", "each Branch = 8 bytes (long)"). *)
Definition sizeof_int : Z := 4.
Definition sizeof_long : Z := 8.

(** A value reduced to [size_t] (64-bit unsigned arithmetic wraps). *)
Definition to_size_t (z : Z) : Z := z mod 2 ^ 64.

(** A value converted to [int] (32-bit two's complement). *)
Definition to_int (z : Z) : Z := (z + 2 ^ 31) mod 2 ^ 32 - 2 ^ 31.

(** [struct Record]: [char key[KeySize]; char data[DataSize]]. *)
Record Rec := mkRec { key : string; data : list Byte.byte }.

(** [struct Node], packed: [int count; Record records[MaxKeys];
    long branches[Order]]. *)
Record Node := mkNode { count : Z; records : list Rec; branches : list Z }.

(** Array read and write at an [int] index.  Outside the array the source
    has no defined behaviour; here a read gives the default and a write
    does nothing. *)
Definition aget {A} (d : A) (l : list A) (i : Z) : A :=
  if i <? 0 then d else nth (Z.to_nat i) l d.

Definition aset {A} (l : list A) (i : Z) (x : A) : list A :=
  if i <? 0 then l else <[Z.to_nat i := x]> l.

(** [std::memcpy(dst, src, n)] into an array. *)
Definition memcpy (dst src : list Byte.byte) (n : nat) : list Byte.byte :=
  take n src ++ drop n dst.

(** An index file: its blocks, one node each.  The file system maps a path
    to the file stored there. *)
Abbreviation File := (list Node).
Abbreviation FS := (gmap string File).

(** The state of [std::fstream file_]: whether a file is open, which one,
    and the sticky failure flag. *)
Record fstream := mkStream { is_open : bool; path : string; failbit : bool }.

(** The data members of [class BTree]. *)
Record BTree := mkBTree {
  file_ : fstream;
  mode_ : BTreeMode;
  isOpen_ : bool;
  root_ : Z;
  numItems_ : Z;
  numNodes_ : Z;
  currentNode_ : Node
}.

Definition set_file (t : BTree) (s : fstream) : BTree :=
  mkBTree s (mode_ t) (isOpen_ t) (root_ t) (numItems_ t) (numNodes_ t) (currentNode_ t).
Definition set_mode (t : BTree) (m : BTreeMode) : BTree :=
  mkBTree (file_ t) m (isOpen_ t) (root_ t) (numItems_ t) (numNodes_ t) (currentNode_ t).
Definition set_isOpen (t : BTree) (b : bool) : BTree :=
  mkBTree (file_ t) (mode_ t) b (root_ t) (numItems_ t) (numNodes_ t) (currentNode_ t).
Definition set_root (t : BTree) (r : Z) : BTree :=
  mkBTree (file_ t) (mode_ t) (isOpen_ t) r (numItems_ t) (numNodes_ t) (currentNode_ t).
Definition set_numItems (t : BTree) (n : Z) : BTree :=
  mkBTree (file_ t) (mode_ t) (isOpen_ t) (root_ t) n (numNodes_ t) (currentNode_ t).
Definition set_numNodes (t : BTree) (n : Z) : BTree :=
  mkBTree (file_ t) (mode_ t) (isOpen_ t) (root_ t) (numItems_ t) n (currentNode_ t).
Definition set_currentNode (t : BTree) (n : Node) : BTree :=
  mkBTree (file_ t) (mode_ t) (isOpen_ t) (root_ t) (numItems_ t) (numNodes_ t) n.

Definition set_count (n : Node) (c : Z) : Node := mkNode c (records n) (branches n).
Definition set_records (n : Node) (r : list Rec) : Node := mkNode (count n) r (branches n).
Definition set_branches (n : Node) (b : list Z) : Node := mkNode (count n) (records n) b.

Definition mode_eqb (a b : BTreeMode) : bool :=
  match a, b with Read, Read | Write, Write => true | _, _ => false end.

Section Config.

(** The template parameters. *)
Variables KeySize DataSize NodeSize : Z.

(** The paths at which the file system lets a file be created or
    truncated for writing; at any other path [std::fstream::open] with
    [trunc] fails. *)
Variable creatable : string -> bool.

Definition RecordSize : Z := to_size_t (KeySize + DataSize).

Definition OrderCalc : Z :=
  to_size_t (to_size_t (to_size_t (NodeSize - sizeof_int) + RecordSize) + sizeof_long)
  / to_size_t (RecordSize + sizeof_long).

Definition Order : Z := if OrderCalc <? 3 then 3 else OrderCalc.
Definition MaxKeys : Z := to_size_t (Order - 1).
Definition MinKeys : Z := to_size_t (Order - 1) / 2.
Definition NilPtr : Z := -1.

(** [sizeof(Node)], the struct being packed. *)
Definition ActualNodeSize : Z :=
  sizeof_int + MaxKeys * (KeySize + DataSize) + Order * sizeof_long.

(** The geometry reporters. *)
Definition keySize : Z := KeySize.
Definition dataSize : Z := DataSize.
Definition nodeSize : Z := ActualNodeSize.
Definition order : Z := Order.
Definition maxKeys : Z := MaxKeys.
Definition minKeys : Z := MinKeys.

(** [Record()]: both arrays zero-filled. *)
Definition Rec_new : Rec :=
  mkRec (zeros (Z.to_nat KeySize)) (repeat Byte.x00 (Z.to_nat DataSize)).

(** [Node()]: count 0, default records, every branch [NilPtr]. *)
Definition Node_new : Node :=
  mkNode 0 (repeat Rec_new (Z.to_nat MaxKeys)) (repeat NilPtr (Z.to_nat Order)).

(** A block of zero bytes, what a hole in a file reads as. *)
Definition Node_zero : Node :=
  mkNode 0 (repeat Rec_new (Z.to_nat MaxKeys)) (repeat 0 (Z.to_nat Order)).

Definition rec_at (n : Node) (i : Z) : Rec := aget Rec_new (records n) i.
Definition br_at (n : Node) (i : Z) : Z := aget 0 (branches n) i.

(** *** The stream: whole blocks at byte positions *)

(** The block index a byte position falls on, when the position is the
    start of a block. *)
Definition block_index (pos : Z) : option nat :=
  if (0 <=? pos) && (pos mod ActualNodeSize =? 0)
  then Some (Z.to_nat (pos / ActualNodeSize)) else None.

(** [seekg(pos); read(buf, len)]: the block read, if the stream is usable
    and [len] bytes are there. *)
Definition stream_read (fs : FS) (s : fstream) (pos len : Z) : option Node :=
  if is_open s && negb (failbit s) && (len =? ActualNodeSize) then
    match fs !! path s, block_index pos with
    | Some f, Some i => f !! i
    | _, _ => None
    end
  else None.

(** Writing [len] bytes at [pos] into a file: the block is replaced, or the
    file grows (a gap before the block is filled with zero bytes). *)
Definition file_write (f : File) (i : nat) (n : Node) : File :=
  if (i <? length f)%nat then <[i := n]> f
  else f ++ repeat Node_zero (i - length f) ++ [n].

(** [seekp(pos); write(buf, len)]. *)
Definition stream_write (fs : FS) (s : fstream) (pos len : Z) (n : Node) : option FS :=
  if is_open s && negb (failbit s) && (len =? ActualNodeSize) then
    match fs !! path s, block_index pos with
    | Some f, Some i => Some (<[path s := file_write f i n]> fs)
    | _, _ => None
    end
  else None.

Definition set_fail (s : fstream) : fstream := mkStream (is_open s) (path s) true.

(** The length of a file in bytes. *)
Definition file_size (f : File) : Z := Z.of_nat (length f) * ActualNodeSize.

(** [readNode(nodeNum, currentNode_)].  Every call in the class reads into
    the working buffer.  A failed read leaves the buffer as it was and the
    stream failed. *)
Definition readNode (fs : FS) (t : BTree) (nodeNum : Z) : bool * BTree :=
  match stream_read fs (file_ t) (nodeNum * ActualNodeSize) ActualNodeSize with
  | Some n => (true, set_currentNode t n)
  | None => (false, set_file t (set_fail (file_ t)))
  end.

(** [writeNode(nodeNum, node)]. *)
Definition writeNode (fs : FS) (t : BTree) (nodeNum : Z) (node : Node)
  : bool * FS * BTree :=
  match stream_write fs (file_ t) (nodeNum * ActualNodeSize) ActualNodeSize node with
  | Some fs' => (true, fs', t)
  | None => (false, fs, set_file t (set_fail (file_ t)))
  end.

(** [writeMetadata()]: node 0 carries the counters and the root. *)
Definition writeMetadata (fs : FS) (t : BTree) : bool * FS * BTree :=
  let metaNode := Node_new in
  let metaNode := set_branches metaNode (aset (branches metaNode) 0 (numItems_ t)) in
  let metaNode := set_branches metaNode (aset (branches metaNode) 1 (numNodes_ t)) in
  let metaNode := set_branches metaNode (aset (branches metaNode) 2 (root_ t)) in
  writeNode fs t 0 metaNode.

(** [close()]. *)
Definition close (fs : FS) (t : BTree) : FS * BTree :=
  if negb (isOpen_ t) then (fs, t)
  else
    let '(fs, t) :=
      match mode_ t with
      | Write => let '(_, fs, t) := writeMetadata fs t in (fs, t)
      | Read => (fs, t)
      end in
    let t := set_file t (mkStream false (path (file_ t)) (failbit (file_ t))) in
    let t := set_isOpen t false in
    let t := set_root t NilPtr in
    let t := set_numItems t 0 in
    let t := set_numNodes t 0 in
    (fs, t).

(** [open(filename, mode)].  Opening for reading needs the file to exist;
    opening for writing creates or truncates it, and fails at a path where
    no file can be created: the stream is then failed and the object stays
    closed, as [close] left it. *)
Definition open (fs : FS) (t : BTree) (filename : string) (mode : BTreeMode)
  : bool * FS * BTree :=
  let '(fs, t) := close fs t in
  let t := set_mode t mode in
  match mode with
  | Read =>
      match fs !! filename with
      | None => (false, fs, set_file t (mkStream false filename true))
      | Some _ =>
          let t := set_file t (mkStream true filename false) in
          let '(ok, t) := readNode fs t 0 in
          if negb ok then
            (false, fs, set_file t (mkStream false filename (failbit (file_ t))))
          else
            let t := set_numItems t (br_at (currentNode_ t) 0) in
            let t := set_numNodes t (br_at (currentNode_ t) 1) in
            let t := set_root t (br_at (currentNode_ t) 2) in
            (true, fs, set_isOpen t true)
      end
  | Write =>
      if negb (creatable filename) then
        (false, fs, set_file t (mkStream false filename true))
      else
        let fs := <[filename := []]> fs in
        let t := set_file t (mkStream true filename false) in
        let t := set_root t NilPtr in
        let t := set_numItems t 0 in
        let t := set_numNodes t 0 in
        let '(_, fs, t) := writeMetadata fs t in
        (true, fs, set_isOpen t true)
  end.

(** [BTree()]. *)
Definition BTree_new : BTree :=
  mkBTree (mkStream false EmptyString false) Read false NilPtr 0 0 Node_new.

(** *** Search inside the working buffer *)

(** The right-to-left scan of [searchNode]: it stops at location 0 or at
    the first key not above the target, so [location] steps are enough. *)
Fixpoint searchNode_scan (steps : nat) (target : string) (node : Node)
  (location : Z) : Z :=
  match steps with
  | O => location
  | S steps' =>
      if (0 <? location) &&
         (match strcmp target (key (rec_at node location)) with Lt => true | _ => false end)
      then searchNode_scan steps' target node (location - 1)
      else location
  end.

(** [searchNode(target, location)] on [currentNode_]: the flag and the
    location. *)
Definition searchNode (t : BTree) (target : string) : bool * Z :=
  let node := currentNode_ t in
  if count node =? 0 then (false, -1)
  else
    match strcmp target (key (rec_at node 0)) with
    | Lt => (false, -1)
    | _ =>
        let location := count node - 1 in
        let location := searchNode_scan (Z.to_nat location) target node location in
        (match strcmp target (key (rec_at node location)) with Eq => true | _ => false end,
         location)
    end.

(** *** Insertion *)

(** The shifting loop of [addRecord]: [j] runs from [count] down to
    [location + 1]. *)
Fixpoint addRecord_shift (steps : nat) (node : Node) (location j : Z) : Node :=
  match steps with
  | O => node
  | S steps' =>
      if location <? j then
        let node := set_records node (aset (records node) j (rec_at node (j - 1))) in
        let node := set_branches node (aset (branches node) (j + 1) (br_at node j)) in
        addRecord_shift steps' node location (j - 1)
      else node
  end.

(** [addRecord(record, rightBranch, node, location)]. *)
Definition addRecord (record : Rec) (rightBranch : Z) (node : Node) (location : Z)
  : Node :=
  let node := addRecord_shift (Z.to_nat (count node - location)) node location (count node) in
  let node := set_records node (aset (records node) location record) in
  let node := set_branches node (aset (branches node) (location + 1) rightBranch) in
  set_count node (count node + 1).

(** The copying loop of [split]: [j] runs from [median] up to
    [MaxKeys - 1]. *)
Fixpoint split_move (steps : nat) (cur rightNode : Node) (median j : Z) : Node :=
  match steps with
  | O => rightNode
  | S steps' =>
      if j <? to_int MaxKeys then
        let rightNode :=
          set_records rightNode (aset (records rightNode) (j - median) (rec_at cur j)) in
        let rightNode :=
          set_branches rightNode (aset (branches rightNode) (j - median + 1) (br_at cur (j + 1))) in
        split_move steps' cur rightNode median (j + 1)
      else rightNode
  end.

(** [split(currentRecord, currentRight, currentRoot, location, newRecord,
    newRight)]: the new state and the two results.  In the one call of the
    class [currentRecord] and [newRecord] are the same object; the record is
    read (by [addRecord]) before [newRecord] is assigned, so passing it by
    value is the same. *)
Definition split (fs : FS) (t : BTree) (currentRecord : Rec) (currentRight : Z)
  (currentRoot : Z) (location : Z) : FS * BTree * Rec * Z :=
  let median :=
    to_int (if location <? to_int MinKeys then MinKeys else to_size_t (MinKeys + 1)) in
  let '(_, t) := readNode fs t currentRoot in
  let rightNode := Node_new in
  let rightNode :=
    split_move (Z.to_nat (to_int MaxKeys - median)) (currentNode_ t) rightNode median median in
  let rightNode := set_count rightNode (to_int (to_size_t (MaxKeys - median))) in
  let cur := set_count (currentNode_ t) median in
  let '(cur, rightNode) :=
    if location <? to_int MinKeys
    then (addRecord currentRecord currentRight cur (location + 1), rightNode)
    else (cur, addRecord currentRecord currentRight rightNode (location - median + 1)) in
  let newRecord := rec_at cur (count cur - 1) in
  let rightNode := set_branches rightNode (aset (branches rightNode) 0 (br_at cur (count cur))) in
  let cur := set_count cur (count cur - 1) in
  let t := set_currentNode t cur in
  let '(_, fs, t) := writeNode fs t currentRoot cur in
  let t := set_numNodes t (numNodes_ t + 1) in
  let newRight := numNodes_ t in
  let '(_, fs, t) := writeNode fs t newRight rightNode in
  (fs, t, newRecord, newRight).

(** [pushDown(currentRecord, currentRoot, moveUp, newRecord, newRight)].
    The three reference parameters come in and go out as a triple.  The
    recursion follows branches read from the file, hence the fuel. *)
Fixpoint pushDown (fuel : nat) (fs : FS) (t : BTree) (currentRecord : Rec)
  (currentRoot : Z) (out : bool * Rec * Z)
  : option (result (bool * Rec * Z) * FS * BTree) :=
  match fuel with
  | O => None
  | S fuel' =>
      if currentRoot =? NilPtr then
        Some (Ok (true, currentRecord, NilPtr), fs, t)
      else
        let '(_, t) := readNode fs t currentRoot in
        let '(found, location) := searchNode t (key currentRecord) in
        if found then Some (Throw DuplicateKey, fs, t)
        else
          match pushDown fuel' fs t currentRecord
                  (br_at (currentNode_ t) (location + 1)) out with
          | None => None
          | Some (Throw e, fs, t) => Some (Throw e, fs, t)
          | Some (Ok (moveUp, newRecord, newRight), fs, t) =>
              if moveUp then
                let '(_, t) := readNode fs t currentRoot in
                if count (currentNode_ t) <? to_int MaxKeys then
                  let node := addRecord newRecord newRight (currentNode_ t) (location + 1) in
                  let t := set_currentNode t node in
                  let '(_, fs, t) := writeNode fs t currentRoot node in
                  Some (Ok (false, newRecord, newRight), fs, t)
                else
                  let '(fs, t, newRecord, newRight) :=
                    split fs t newRecord newRight currentRoot location in
                  Some (Ok (true, newRecord, newRight), fs, t)
              else Some (Ok (moveUp, newRecord, newRight), fs, t)
          end
  end.

(** The key buffer both [insert] and [retrieve] build: [KeySize] zero bytes,
    then [strncpy] of at most [KeySize - 1] characters. *)
Definition padKey (k : string) : string :=
  strncpy (zeros (Z.to_nat KeySize)) k (Z.to_nat (to_size_t (KeySize - 1))).

(** [insert(key, data)]. *)
Definition insert (fuel : nat) (fs : FS) (t : BTree) (k : string) (d : list Byte.byte)
  : option (result unit * FS * BTree) :=
  if negb (isOpen_ t) || negb (mode_eqb (mode_ t) Write) then
    Some (Throw NotWritable, fs, t)
  else
    let record := Rec_new in
    let record := mkRec (strncpy (key record) k (Z.to_nat (to_size_t (KeySize - 1))))
                        (data record) in
    let record := mkRec (key record) (memcpy (data record) d (Z.to_nat DataSize)) in
    match pushDown fuel fs t record (root_ t) (false, Rec_new, NilPtr) with
    | None => None
    | Some (Throw e, fs, t) => Some (Throw e, fs, t)
    | Some (Ok (moveUp, newRecord, newRight), fs, t) =>
        let '(fs, t) :=
          if moveUp then
            let newRoot := Node_new in
            let newRoot := set_count newRoot 1 in
            let newRoot := set_records newRoot (aset (records newRoot) 0 newRecord) in
            let newRoot := set_branches newRoot (aset (branches newRoot) 0 (root_ t)) in
            let newRoot := set_branches newRoot (aset (branches newRoot) 1 newRight) in
            let t := set_numNodes t (numNodes_ t + 1) in
            let t := set_root t (numNodes_ t) in
            let '(_, fs, t) := writeNode fs t (root_ t) newRoot in
            (fs, t)
          else (fs, t) in
        Some (Ok tt, fs, set_numItems t (numItems_ t + 1))
    end.

(** *** Lookup *)

(** The descent of [retrieve]: [Some d] is "true, with [d] copied out",
    [None] is "false". *)
Fixpoint retrieve_walk (fuel : nat) (fs : FS) (t : BTree) (searchKey : string)
  (current : Z) : option (option (list Byte.byte) * BTree) :=
  match fuel with
  | O => None
  | S fuel' =>
      if current =? NilPtr then Some (None, t)
      else
        let '(_, t) := readNode fs t current in
        let '(found, location) := searchNode t searchKey in
        if found then
          Some (Some (take (Z.to_nat DataSize)
                        (data (rec_at (currentNode_ t) location))), t)
        else retrieve_walk fuel' fs t searchKey (br_at (currentNode_ t) (location + 1))
  end.

(** [retrieve(key, data)]. *)
Definition retrieve (fuel : nat) (fs : FS) (t : BTree) (k : string)
  : option (result (option (list Byte.byte)) * BTree) :=
  if negb (isOpen_ t) then Some (Ok None, t)
  else
    match retrieve_walk fuel fs t (padKey k) (root_ t) with
    | None => None
    | Some (r, t) => Some (Ok r, t)
    end.

(** [contains(key)]. *)
Definition contains (fuel : nat) (fs : FS) (t : BTree) (k : string)
  : option (result bool * BTree) :=
  match retrieve fuel fs t k with
  | None => None
  | Some (Ok r, t) => Some (Ok (match r with Some _ => true | None => false end), t)
  | Some (Throw e, t) => Some (Throw e, t)
  end.

(** [empty()], [size()], [isOpen()]. *)
Definition empty (t : BTree) : bool := root_ t =? NilPtr.
Definition size (t : BTree) : Z := numItems_ t.
Definition isOpen (t : BTree) : bool := isOpen_ t.

(** *** What a well-formed tree on disk is *)

(** The configurations the class is meant for: a key array with room for a
    terminator, sizes that are [size_t] values, and an order that the
    [int] counts of the nodes can hold. *)
Definition valid_config : Prop :=
  1 <= KeySize < 2 ^ 64 /\ 0 <= DataSize < 2 ^ 64 /\ Order < 2 ^ 31.

(** The arrays of a node have their declared lengths. *)
Definition node_shape (n : Node) : Prop :=
  Z.of_nat (length (records n)) = MaxKeys /\ Z.of_nat (length (branches n)) = Order.

(** The live part of a node after its first branch: record [i] paired with
    the branch to its right, for [0 <= i < count]. *)
Definition entries (n : Node) : list (Rec * Z) :=
  (fun i => (rec_at n i, br_at n (i + 1))) <$> seqZ 0 (count n).

(** Exclusive key bounds; [None] is no bound. *)
Definition bound := option string.

Definition lt_lo (lo : bound) (k : string) : Prop :=
  match lo with None => True | Some a => strcmp a k = Lt end.

Definition lt_hi (k : string) (hi : bound) : Prop :=
  match hi with None => True | Some b => strcmp k b = Lt end.

Definition in_range (lo hi : bound) (k : string) : Prop := lt_lo lo k /\ lt_hi k hi.

(** The children of a node, left to right: the subtree under [b0] holds the
    records [l1] below the first key, and so on; [l] is the in-order
    sequence of all records under the node, its own included.  [W] says
    what a child is. *)
Fixpoint chain (W : bound -> bound -> Z -> list Rec -> Prop) (lo hi : bound)
  (b0 : Z) (es : list (Rec * Z)) (l : list Rec) : Prop :=
  match es with
  | [] => W lo hi b0 l
  | (r, b) :: es' =>
      exists l1 l2, l = l1 ++ r :: l2 /\ in_range lo hi (key r) /\
        W lo (Some (key r)) b0 l1 /\ chain W (Some (key r)) hi b es' l2
  end.

(** [subtree f h minc lo hi id l]: in file [f], node [id] is the root of a
    B-tree of height [h] whose records, in order, are [l], all with keys
    strictly between [lo] and [hi]; its own count is at least [minc] and
    every node below it holds between [MinKeys] and [MaxKeys] records.
    Height 0 is the absent child, [NilPtr]. *)
Fixpoint subtree (f : File) (h : nat) (minc : Z) (lo hi : bound) (id : Z)
  (l : list Rec) : Prop :=
  match h with
  | O => id = NilPtr /\ l = []
  | S h' =>
      exists n, 1 <= id /\ f !! Z.to_nat id = Some n /\ node_shape n /\
        minc <= count n <= MaxKeys /\ 1 <= count n /\
        chain (subtree f h' MinKeys) lo hi (br_at n 0) (entries n) l
  end.

(** The stream of the session is open on a file holding [f] and has not
    failed. *)
Definition session_ok (fs : FS) (t : BTree) (f : File) : Prop :=
  is_open (file_ t) = true /\ failbit (file_ t) = false /\
  fs !! path (file_ t) = Some f.

(** Nodes outside a key range are the same in [f'] as in [f]: those that
    hold no record, and those whose first key is not strictly inside. *)
Definition frame (f f' : File) (lo hi : bound) : Prop :=
  forall i n, f !! i = Some n ->
    ~ (1 <= count n /\ in_range lo hi (key (rec_at n 0))) ->
    f' !! i = Some n.

(** The record [retrieve] is looking for in an in-order sequence. *)
Definition find_key (k : string) (l : list Rec) : option Rec :=
  List.find (fun r => match strcmp k (key r) with Eq => true | _ => false end) l.

(** A write session whose tree holds the records [l]. *)
Definition write_inv (fs : FS) (t : BTree) (l : list Rec) : Prop :=
  isOpen_ t = true /\ mode_ t = Write /\
  exists f h, session_ok fs t f /\
    Z.of_nat (length f) = numNodes_ t + 1 /\ 0 <= numNodes_ t /\
    numItems_ t = Z.of_nat (length l) /\
    subtree f h 1 None None (root_ t) l.

(** A read session on a tree holding the records [l]. *)
Definition read_inv (fs : FS) (t : BTree) (l : list Rec) : Prop :=
  isOpen_ t = true /\ mode_ t = Read /\
  exists f h, session_ok fs t f /\
    numItems_ t = Z.of_nat (length l) /\
    subtree f h 1 None None (root_ t) l.

(** *** Geometry *)

Lemma to_size_t_range z : 0 <= to_size_t z < 2 ^ 64.
Proof. unfold to_size_t. apply Z.mod_pos_bound. lia. Qed.

Lemma to_size_t_small z : 0 <= z < 2 ^ 64 -> to_size_t z = z.
Proof. intros H. unfold to_size_t. now apply Z.mod_small. Qed.

Lemma to_int_small z : - 2 ^ 31 <= z < 2 ^ 31 -> to_int z = z.
Proof. intros H. unfold to_int. rewrite Z.mod_small; lia. Qed.

Lemma OrderCalc_range : 0 <= OrderCalc < 2 ^ 64.
Proof.
  unfold OrderCalc.
  set (a := to_size_t (to_size_t (to_size_t (NodeSize - sizeof_int) + RecordSize) + sizeof_long)).
  set (b := to_size_t (RecordSize + sizeof_long)).
  pose proof (to_size_t_range (to_size_t (to_size_t (NodeSize - sizeof_int) + RecordSize) + sizeof_long)) as Ha.
  pose proof (to_size_t_range (RecordSize + sizeof_long)) as Hb.
  fold a in Ha. fold b in Hb.
  destruct (Z.eq_dec b 0) as [->|Hne].
  - rewrite Z.div_0_r. lia.
  - split.
    + apply Z.div_pos; lia.
    + apply Z.div_lt_upper_bound; [lia|]. nia.
Qed.

Lemma Order_ge_3 : 3 <= Order.
Proof. unfold Order. destruct (OrderCalc <? 3) eqn:E; lia. Qed.

Lemma Order_lt_size : Order < 2 ^ 64.
Proof.
  unfold Order. pose proof OrderCalc_range.
  destruct (OrderCalc <? 3); lia.
Qed.

Lemma MaxKeys_eq : MaxKeys = Order - 1.
Proof.
  unfold MaxKeys. apply to_size_t_small.
  pose proof Order_ge_3. pose proof Order_lt_size. lia.
Qed.

Lemma MinKeys_eq : MinKeys = (Order - 1) / 2.
Proof. unfold MinKeys. fold MaxKeys. now rewrite MaxKeys_eq. Qed.

Lemma MinKeys_bounds : 1 <= MinKeys /\ 2 * MinKeys <= MaxKeys <= 2 * MinKeys + 1.
Proof.
  rewrite MinKeys_eq, MaxKeys_eq. pose proof Order_ge_3.
  pose proof (Z.div_mod (Order - 1) 2 ltac:(lia)).
  pose proof (Z.mod_pos_bound (Order - 1) 2 ltac:(lia)).
  assert (1 <= (Order - 1) / 2) by (apply Z.div_le_lower_bound; lia).
  lia.
Qed.

(** *** Arrays *)

Lemma aget_aset_eq {A} (d : A) l i x :
  0 <= i < Z.of_nat (length l) -> aget d (aset l i x) i = x.
Proof.
  intros H. unfold aget, aset.
  destruct (i <? 0) eqn:E; [lia|].
  apply nth_lookup_Some. apply list_lookup_insert_eq. lia.
Qed.

Lemma aget_aset_ne {A} (d : A) l i j x :
  i <> j -> aget d (aset l i x) j = aget d l j.
Proof.
  intros H. unfold aget, aset.
  destruct (j <? 0) eqn:Ej; [reflexivity|].
  destruct (i <? 0) eqn:Ei; [reflexivity|].
  rewrite !nth_lookup, list_lookup_insert_ne; [reflexivity|lia].
Qed.

Lemma length_aset {A} (l : list A) i x : length (aset l i x) = length l.
Proof. unfold aset. destruct (i <? 0); [reflexivity|]. apply length_insert. Qed.

Lemma aget_lookup {A} (d : A) l i :
  0 <= i < Z.of_nat (length l) -> l !! Z.to_nat i = Some (aget d l i).
Proof.
  intros H. unfold aget. destruct (i <? 0) eqn:E; [lia|].
  destruct (lookup_lt_is_Some_2 l (Z.to_nat i)) as [x Hx]; [lia|].
  rewrite Hx. f_equal. symmetry. now apply nth_lookup_Some.
Qed.

Lemma aget_repeat {A} (d x : A) n i :
  0 <= i < Z.of_nat n -> aget d (repeat x n) i = x.
Proof.
  intros H. unfold aget. destruct (i <? 0) eqn:E; [lia|].
  apply nth_repeat_lt. lia.
Qed.

Lemma addRecord_shift_spec steps : forall n j loc,
  Z.of_nat steps = j - loc -> 0 <= loc ->
  j < Z.of_nat (length (records n)) -> j + 1 < Z.of_nat (length (branches n)) ->
  let n' := addRecord_shift steps n loc j in
  count n' = count n /\
  length (records n') = length (records n) /\
  length (branches n') = length (branches n) /\
  (forall i, rec_at n' i =
     if (loc <? i) && (i <=? j) then rec_at n (i - 1) else rec_at n i) /\
  (forall i, br_at n' i =
     if (loc + 1 <? i) && (i <=? j + 1) then br_at n (i - 1) else br_at n i).
Proof.
  induction steps as [|steps IH]; intros n j loc Hs Hloc Hr Hb; cbn [addRecord_shift].
  - repeat split; auto; intros i.
    + destruct (loc <? i) eqn:E1, (i <=? j) eqn:E2; simpl; auto; lia.
    + destruct (loc + 1 <? i) eqn:E1, (i <=? j + 1) eqn:E2; simpl; auto; lia.
  - destruct (loc <? j) eqn:Hlj; [|lia].
    set (n1 := set_branches _ _).
    assert (Hr1 : length (records n1) = length (records n))
      by (subst n1; simpl; apply length_aset).
    assert (Hb1 : length (branches n1) = length (branches n))
      by (subst n1; simpl; apply length_aset).
    destruct (IH n1 (j - 1) loc) as (Hc & Hlr & Hlb & Hrec & Hbr); try lia.
    rewrite Hc, Hlr, Hlb, Hr1, Hb1.
    repeat split; auto; intros i.
    + rewrite Hrec. unfold rec_at. subst n1; simpl.
      destruct (loc <? i) eqn:E1, (i <=? j - 1) eqn:E2, (i <=? j) eqn:E3; simpl; try lia;
        try (apply aget_aset_ne; lia).
      assert (i = j) as -> by lia. apply aget_aset_eq. lia.
    + rewrite Hbr. unfold br_at. subst n1; simpl.
      destruct (loc + 1 <? i) eqn:E1, (i <=? j - 1 + 1) eqn:E2, (i <=? j + 1) eqn:E3;
        simpl; try lia; try (apply aget_aset_ne; lia).
      assert (i = j + 1) as -> by lia.
      rewrite aget_aset_eq by lia. f_equal. lia.
Qed.

(** [addRecord], slot by slot. *)
Lemma addRecord_spec record rightBranch n loc :
  0 <= loc <= count n ->
  count n < Z.of_nat (length (records n)) ->
  count n + 1 < Z.of_nat (length (branches n)) ->
  let n' := addRecord record rightBranch n loc in
  count n' = count n + 1 /\
  length (records n') = length (records n) /\
  length (branches n') = length (branches n) /\
  (forall i, rec_at n' i =
     if i =? loc then record
     else if (loc <? i) && (i <=? count n) then rec_at n (i - 1) else rec_at n i) /\
  (forall i, br_at n' i =
     if i =? loc + 1 then rightBranch
     else if (loc + 1 <? i) && (i <=? count n + 1) then br_at n (i - 1) else br_at n i).
Proof.
  intros Hloc Hr Hb.
  destruct (addRecord_shift_spec (Z.to_nat (count n - loc)) n (count n) loc)
    as (Hc & Hlr & Hlb & Hrec & Hbr); try lia.
  unfold addRecord. simpl. rewrite Hc.
  repeat split.
  - rewrite length_aset. exact Hlr.
  - rewrite length_aset. exact Hlb.
  - intros i. unfold rec_at at 1. simpl.
    destruct (i =? loc) eqn:E.
    + assert (i = loc) as -> by lia. apply aget_aset_eq. lia.
    + rewrite aget_aset_ne by lia. apply Hrec.
  - intros i. unfold br_at at 1. simpl.
    destruct (i =? loc + 1) eqn:E.
    + assert (i = loc + 1) as -> by lia. apply aget_aset_eq. lia.
    + rewrite aget_aset_ne by lia. apply Hbr.
Qed.

(** C4 (as the code computes it).  [order()] is at least 3, [MaxKeys]
    is [Order - 1] and [MinKeys] is [(Order - 1) / 2], for every
    configuration; and when the sizes do not wrap the [size_t] arithmetic,
    [NodeSize + KeySize + DataSize + 8 < 2^64], [order()] is
    [max(3, (NodeSize - 4 + (KeySize + DataSize) + 8) / ((KeySize + DataSize) + 8))]. *)
Theorem order_formula :
  (3 <= order /\ maxKeys = order - 1 /\ minKeys = (order - 1) / 2) /\
  (0 <= KeySize -> 0 <= DataSize -> 0 <= NodeSize ->
   NodeSize + KeySize + DataSize + 8 < 2 ^ 64 ->
   order = Z.max 3 ((NodeSize - 4 + (KeySize + DataSize) + 8)
                    / ((KeySize + DataSize) + 8))).
Proof.
  split.
  - unfold order, maxKeys, minKeys.
    split; [apply Order_ge_3|]. split; [apply MaxKeys_eq|apply MinKeys_eq].
  - intros HK HD HN Hfit. unfold order, Order, OrderCalc, RecordSize, to_size_t,
      sizeof_int, sizeof_long.
    rewrite (Z.mod_small (KeySize + DataSize)) by lia.
    rewrite (Z.add_mod_idemp_l (NodeSize - 4) (KeySize + DataSize)) by lia.
    rewrite (Z.add_mod_idemp_l (NodeSize - 4 + (KeySize + DataSize)) 8) by lia.
    rewrite (Z.mod_small (NodeSize - 4 + (KeySize + DataSize) + 8)) by lia.
    rewrite (Z.mod_small (KeySize + DataSize + 8)) by lia.
    destruct (Z.ltb_spec ((NodeSize - 4 + (KeySize + DataSize) + 8)
                          / (KeySize + DataSize + 8)) 3); lia.
Qed.

(** From here on the configuration is a valid one. *)
Hypothesis Hcfg : valid_config.
Local Set Default Proof Using "KeySize DataSize NodeSize Hcfg".

Lemma Order_int : 3 <= Order < 2 ^ 31.
Proof. pose proof Order_ge_3 as H3. destruct Hcfg as (_ & _ & Ho). lia. Qed.

Lemma MaxKeys_int : to_int MaxKeys = MaxKeys /\ 2 <= MaxKeys < 2 ^ 31.
Proof.
  pose proof Order_int. pose proof MaxKeys_eq.
  split; [apply to_int_small|]; lia.
Qed.

Lemma MinKeys_int : to_int MinKeys = MinKeys /\ 1 <= MinKeys < MaxKeys.
Proof.
  pose proof MaxKeys_int. pose proof MinKeys_bounds.
  split; [apply to_int_small|]; lia.
Qed.

Lemma KeySize_pred : Z.to_nat (to_size_t (KeySize - 1)) = (Z.to_nat KeySize - 1)%nat.
Proof.
  destruct Hcfg as (HK & _). rewrite to_size_t_small; lia.
Qed.

Lemma ActualNodeSize_pos : 28 <= ActualNodeSize.
Proof.
  unfold ActualNodeSize, sizeof_int, sizeof_long.
  destruct Hcfg as (HK & HD & _). pose proof Order_int. pose proof MaxKeys_int. nia.
Qed.

Lemma block_index_node (n : Z) :
  0 <= n -> block_index (n * ActualNodeSize) = Some (Z.to_nat n).
Proof.
  intros Hn. pose proof ActualNodeSize_pos. unfold block_index.
  rewrite Z.mod_mul by lia. rewrite Z.div_mul by lia.
  replace (0 <=? n * ActualNodeSize) with true by (symmetry; apply Z.leb_le; nia).
  reflexivity.
Qed.

Lemma Node_new_shape : node_shape Node_new.
Proof.
  pose proof Order_int. pose proof MaxKeys_int.
  unfold node_shape, Node_new. simpl. rewrite !repeat_length. lia.
Qed.

Lemma split_move_spec steps : forall cur rightNode median j,
  Z.of_nat steps = MaxKeys - j -> 0 <= median <= j ->
  MaxKeys - median <= Z.of_nat (length (records rightNode)) ->
  MaxKeys - median + 1 <= Z.of_nat (length (branches rightNode)) ->
  let r' := split_move steps cur rightNode median j in
  count r' = count rightNode /\
  length (records r') = length (records rightNode) /\
  length (branches r') = length (branches rightNode) /\
  (forall i, rec_at r' i =
     if (j - median <=? i) && (i <? MaxKeys - median)
     then rec_at cur (i + median) else rec_at rightNode i) /\
  (forall i, br_at r' i =
     if (j - median + 1 <=? i) && (i <? MaxKeys - median + 1)
     then br_at cur (i + median) else br_at rightNode i).
Proof.
  destruct MaxKeys_int as [HMi HM].
  induction steps as [|steps IH]; intros cur r median j Hs Hm Hr Hb; cbn [split_move].
  - repeat split; auto; intros i.
    + destruct (j - median <=? i) eqn:E1, (i <? MaxKeys - median) eqn:E2; simpl; auto; lia.
    + destruct (j - median + 1 <=? i) eqn:E1, (i <? MaxKeys - median + 1) eqn:E2;
        simpl; auto; lia.
  - rewrite HMi. destruct (j <? MaxKeys) eqn:Hlj; [|lia].
    set (r1 := set_branches _ _).
    assert (Hr1 : length (records r1) = length (records r))
      by (subst r1; simpl; apply length_aset).
    assert (Hb1 : length (branches r1) = length (branches r))
      by (subst r1; simpl; apply length_aset).
    destruct (IH cur r1 median (j + 1)) as (Hc & Hlr & Hlb & Hrec & Hbr); try lia.
    rewrite Hc, Hlr, Hlb, Hr1, Hb1.
    repeat split; auto; intros i.
    + rewrite Hrec. subst r1; simpl.
      destruct (j + 1 - median <=? i) eqn:E1, (j - median <=? i) eqn:E3,
        (i <? MaxKeys - median) eqn:E2; simpl; try lia; try reflexivity;
        unfold rec_at; simpl; try (apply aget_aset_ne; lia).
      assert (i = j - median) as -> by lia.
      rewrite aget_aset_eq by lia. f_equal. lia.
    + rewrite Hbr. subst r1; simpl.
      destruct (j + 1 - median + 1 <=? i) eqn:E1, (j - median + 1 <=? i) eqn:E3,
        (i <? MaxKeys - median + 1) eqn:E2; simpl; try lia; try reflexivity;
        unfold br_at; simpl; try (apply aget_aset_ne; lia).
      assert (i = j - median + 1) as -> by lia.
      rewrite aget_aset_eq by lia. f_equal. lia.
Qed.

(** *** Entries of a node *)

(** Inserting [x] before position [p] of a list. *)
Definition ins_at {A} (p : nat) (x : A) (l : list A) : list A :=
  take p l ++ x :: drop p l.

Lemma length_ins_at {A} p (x : A) l : length (ins_at p x l) = S (length l).
Proof.
  unfold ins_at. rewrite length_app. simpl. rewrite length_take, length_drop. lia.
Qed.

Lemma lookup_ins_at {A} p (x : A) l i : (p <= length l)%nat ->
  ins_at p x l !! i =
  if decide (i < p)%nat then l !! i
  else if decide (i = p) then Some x else l !! (i - 1)%nat.
Proof.
  intros Hp. unfold ins_at.
  destruct (decide (i < p)%nat) as [H|H].
  - rewrite lookup_app_l by (rewrite length_take; lia).
    rewrite lookup_take. destruct (decide (i < p)%nat); [reflexivity|lia].
  - rewrite lookup_app_r by (rewrite length_take; lia).
    rewrite length_take. replace (p `min` length l)%nat with p by lia.
    destruct (decide (i = p)) as [->|Hne].
    + now rewrite Nat.sub_diag.
    + destruct (i - p)%nat as [|k] eqn:E; [lia|]. simpl.
      rewrite lookup_drop. f_equal. lia.
Qed.

Lemma length_entries n : length (entries n) = Z.to_nat (count n).
Proof. unfold entries. now rewrite length_fmap, length_seqZ. Qed.

Lemma entries_lookup n (i : nat) :
  entries n !! i =
  if decide (Z.of_nat i < count n)
  then Some (rec_at n (Z.of_nat i), br_at n (Z.of_nat i + 1)) else None.
Proof.
  unfold entries. rewrite list_lookup_fmap.
  destruct (decide (Z.of_nat i < count n)) as [H|H].
  - now rewrite lookup_seqZ_lt.
  - now rewrite lookup_seqZ_ge by lia.
Qed.

Lemma entries_eq n (l : list (Rec * Z)) :
  length l = Z.to_nat (count n) ->
  (forall i : nat, Z.of_nat i < count n ->
     l !! i = Some (rec_at n (Z.of_nat i), br_at n (Z.of_nat i + 1))) ->
  entries n = l.
Proof.
  intros Hlen H. apply list_eq. intros i. rewrite entries_lookup.
  destruct (decide (Z.of_nat i < count n)) as [Hi|Hi].
  - symmetry. now apply H.
  - symmetry. apply lookup_ge_None. lia.
Qed.

Lemma entries_set_count n c : 0 <= c <= count n ->
  entries (set_count n c) = take (Z.to_nat c) (entries n).
Proof.
  intros Hc. apply entries_eq; simpl.
  - rewrite length_take, length_entries. lia.
  - intros i Hi. rewrite lookup_take.
    destruct (decide (i < Z.to_nat c)%nat); [|lia].
    rewrite entries_lookup. destruct (decide (Z.of_nat i < count n)); [|lia].
    reflexivity.
Qed.

(** [addRecord] inserts the pair before position [location]. *)
Lemma entries_addRecord record rightBranch n loc :
  0 <= loc <= count n ->
  count n < Z.of_nat (length (records n)) ->
  count n + 1 < Z.of_nat (length (branches n)) ->
  let n' := addRecord record rightBranch n loc in
  entries n' = ins_at (Z.to_nat loc) (record, rightBranch) (entries n) /\
  br_at n' 0 = br_at n 0 /\
  count n' = count n + 1 /\
  length (records n') = length (records n) /\
  length (branches n') = length (branches n).
Proof.
  intros Hloc Hr Hb.
  destruct (addRecord_spec record rightBranch n loc Hloc Hr Hb)
    as (Hc & Hlr & Hlb & Hrec & Hbr).
  intros n'. fold n' in Hc, Hlr, Hlb, Hrec, Hbr.
  repeat split; auto.
  - apply entries_eq.
    + rewrite length_ins_at, length_entries, Hc. lia.
    + intros i Hi. rewrite lookup_ins_at by (rewrite length_entries; lia).
      rewrite Hrec, Hbr, !entries_lookup.
      destruct (decide (i < Z.to_nat loc)%nat) as [H1|H1].
      * destruct (decide (Z.of_nat i < count n)); [|lia].
        destruct (Z.of_nat i =? loc) eqn:E1; [lia|].
        destruct (Z.of_nat i + 1 =? loc + 1) eqn:E2; [lia|].
        destruct (loc <? Z.of_nat i) eqn:E3; [lia|].
        destruct (loc + 1 <? Z.of_nat i + 1) eqn:E4; [lia|]. reflexivity.
      * destruct (decide (i = Z.to_nat loc)) as [H2|H2].
        -- destruct (Z.of_nat i =? loc) eqn:E1; [|lia].
           destruct (Z.of_nat i + 1 =? loc + 1) eqn:E2; [|lia]. reflexivity.
        -- destruct (decide (Z.of_nat (i - 1) < count n)); [|lia].
           destruct (Z.of_nat i =? loc) eqn:E1; [lia|].
           destruct (Z.of_nat i + 1 =? loc + 1) eqn:E2; [lia|].
           destruct (loc <? Z.of_nat i) eqn:E3; [|lia].
           destruct (Z.of_nat i <=? count n) eqn:E4; [|lia].
           destruct (loc + 1 <? Z.of_nat i + 1) eqn:E5; [|lia].
           destruct (Z.of_nat i + 1 <=? count n + 1) eqn:E6; [|lia]. simpl.
           repeat f_equal; lia.
  - rewrite Hbr.
    destruct (0 =? loc + 1) eqn:E1; [lia|].
    destruct (loc + 1 <? 0) eqn:E2; [lia|]. reflexivity.
Qed.

Ltac idx_eq :=
  repeat match goal with
         | |- Some _ = Some _ => f_equal
         | |- (_, _) = (_, _) => f_equal
         | |- rec_at _ _ = rec_at _ _ => f_equal
         | |- br_at _ _ = br_at _ _ => f_equal
         | |- aget _ _ _ = aget _ _ _ => f_equal
         end; try lia.

Arguments addRecord : simpl never.
Arguments split_move : simpl never.

Lemma take_ins_at_le {A} p k (x : A) l : (p <= k)%nat -> (p <= length l)%nat ->
  take (S k) (ins_at p x l) = ins_at p x (take k l).
Proof.
  intros Hpk Hp. apply list_eq. intros i.
  rewrite lookup_take, !lookup_ins_at by (rewrite ?length_take; lia).
  rewrite !lookup_take.
  repeat (case_decide; try lia); reflexivity.
Qed.

Lemma take_ins_at_gt {A} p k (x : A) l : (k <= p)%nat -> (p <= length l)%nat ->
  take k (ins_at p x l) = take k l.
Proof.
  intros Hpk Hp. apply list_eq. intros i.
  rewrite !lookup_take, !lookup_ins_at by lia.
  repeat (case_decide; try lia); reflexivity.
Qed.

Lemma drop_ins_at_le {A} p k (x : A) l : (p <= k)%nat -> (p <= length l)%nat ->
  drop (S k) (ins_at p x l) = drop k l.
Proof.
  intros Hpk Hp. apply list_eq. intros i.
  rewrite !lookup_drop, !lookup_ins_at by lia.
  repeat (case_decide; try lia). f_equal. lia.
Qed.

Lemma drop_ins_at_gt {A} p k (x : A) l : (k <= p)%nat -> (p <= length l)%nat ->
  drop k (ins_at p x l) = ins_at (p - k) x (drop k l).
Proof.
  intros Hpk Hp. apply list_eq. intros i.
  rewrite lookup_drop, !lookup_ins_at by (rewrite ?length_drop; lia).
  rewrite !lookup_drop.
  repeat (case_decide; try lia); try reflexivity. f_equal. lia.
Qed.

(** The node computations of [split], between the read and the writes:
    the left node, the right node and the promoted record. *)
Definition split_nodes (cur0 : Node) (currentRecord : Rec) (currentRight : Z)
  (location : Z) : Node * Node * Rec :=
  let median :=
    to_int (if location <? to_int MinKeys then MinKeys else to_size_t (MinKeys + 1)) in
  let rightNode := Node_new in
  let rightNode :=
    split_move (Z.to_nat (to_int MaxKeys - median)) cur0 rightNode median median in
  let rightNode := set_count rightNode (to_int (to_size_t (MaxKeys - median))) in
  let cur := set_count cur0 median in
  let '(cur, rightNode) :=
    if location <? to_int MinKeys
    then (addRecord currentRecord currentRight cur (location + 1), rightNode)
    else (cur, addRecord currentRecord currentRight rightNode (location - median + 1)) in
  let newRecord := rec_at cur (count cur - 1) in
  let rightNode := set_branches rightNode (aset (branches rightNode) 0 (br_at cur (count cur))) in
  let cur := set_count cur (count cur - 1) in
  (cur, rightNode, newRecord).

Lemma split_unfold fs t currentRecord currentRight currentRoot location :
  split fs t currentRecord currentRight currentRoot location =
  let '(_, t) := readNode fs t currentRoot in
  let '(cur, rightNode, newRecord) :=
    split_nodes (currentNode_ t) currentRecord currentRight location in
  let t := set_currentNode t cur in
  let '(_, fs, t) := writeNode fs t currentRoot cur in
  let t := set_numNodes t (numNodes_ t + 1) in
  let newRight := numNodes_ t in
  let '(_, fs, t) := writeNode fs t newRight rightNode in
  (fs, t, newRecord, newRight).
Proof.
  unfold split, split_nodes.
  destruct (readNode fs t currentRoot) as [ok t1].
  destruct (location <? to_int MinKeys); reflexivity.
Qed.

Lemma entries_set_branch0 n b :
  entries (set_branches n (aset (branches n) 0 b)) = entries n.
Proof.
  apply entries_eq; simpl.
  - apply length_entries.
  - intros i Hi. rewrite entries_lookup.
    destruct (decide (Z.of_nat i < count n)); [|lia].
    unfold rec_at, br_at. simpl. rewrite aget_aset_ne by lia. reflexivity.
Qed.

(** What [split] makes of a full node and the incoming pair: the overfull
    sequence is cut at [MinKeys]; the entry there goes up. *)
Lemma split_nodes_spec cur0 rec rb loc :
  node_shape cur0 -> count cur0 = MaxKeys -> -1 <= loc < MaxKeys ->
  let es' := ins_at (Z.to_nat (loc + 1)) (rec, rb) (entries cur0) in
  exists L R m,
    split_nodes cur0 rec rb loc = (L, R, m) /\
    node_shape L /\ node_shape R /\
    count L = MinKeys /\ count R = MaxKeys - MinKeys /\
    br_at L 0 = br_at cur0 0 /\
    entries L = take (Z.to_nat MinKeys) es' /\
    es' !! Z.to_nat MinKeys = Some (m, br_at R 0) /\
    entries R = drop (S (Z.to_nat MinKeys)) es'.
Proof.
  intros [Hsr Hsb] Hc Hloc es'.
  destruct MaxKeys_int as [HMi HM]. destruct MinKeys_int as [Hmi Hm].
  pose proof MinKeys_bounds as Hmb. pose proof MaxKeys_eq as HMO.
  assert (Hes : length (entries cur0) = Z.to_nat MaxKeys)
    by (rewrite length_entries; lia).
  unfold split_nodes. rewrite HMi, Hmi.
  rewrite (to_size_t_small (MinKeys + 1)) by lia.
  destruct (loc <? MinKeys) eqn:Hlm.
  - (* the pair lands in the left node *)
    rewrite Hmi. rewrite to_size_t_small by lia. rewrite to_int_small by lia.
    destruct (split_move_spec (Z.to_nat (MaxKeys - MinKeys)) cur0 Node_new MinKeys MinKeys
                ltac:(lia) ltac:(lia)
                ltac:(simpl; rewrite repeat_length; lia)
                ltac:(simpl; rewrite repeat_length; lia))
      as (Hc0 & Hlr0 & Hlb0 & Hrec0 & Hbr0).
    set (R0 := split_move _ _ _ _ _) in *.
    destruct (entries_addRecord rec rb (set_count cur0 MinKeys) (loc + 1)
                ltac:(simpl; lia) ltac:(simpl; lia) ltac:(simpl; lia))
      as (He1 & Hb1 & Hc1 & Hlr1 & Hlb1).
    set (L1 := addRecord _ _ _ _) in *. clearbody L1 R0.
    simpl in Hc1, Hlr1, Hlb1, Hb1.
    rewrite entries_set_count in He1 by lia.
    eexists _, _, _. split; [reflexivity|].
    assert (HtL : take (S (Z.to_nat MinKeys)) es' = entries L1).
    { rewrite He1. unfold es'. apply take_ins_at_le; lia. }
    repeat split; simpl; try lia.
    + rewrite Hlr0. simpl. rewrite repeat_length. lia.
    + rewrite length_aset, Hlb0. simpl. rewrite repeat_length. lia.
    + unfold br_at in *. simpl. exact Hb1.
    + rewrite (entries_set_count L1) by lia.
      replace (Z.to_nat (count L1 - 1)) with (Z.to_nat MinKeys) by lia.
      rewrite <- HtL. rewrite take_take. f_equal. lia.
    + assert (es' !! Z.to_nat MinKeys = entries L1 !! Z.to_nat MinKeys) as ->.
      { rewrite <- HtL, lookup_take. case_decide; [reflexivity|lia]. }
      rewrite entries_lookup. case_decide; [|lia].
      unfold br_at at 2. simpl. rewrite aget_aset_eq by (rewrite Hlb0; simpl; rewrite repeat_length; lia).
      idx_eq.
    + rewrite (entries_set_branch0 (set_count R0 (MaxKeys - MinKeys))).
      unfold es'. rewrite drop_ins_at_le by lia.
      apply entries_eq; simpl.
      * rewrite length_drop, Hes. lia.
      * intros i Hi. rewrite lookup_drop, entries_lookup.
        case_decide; [|lia].
        unfold rec_at at 2, br_at at 2. simpl. fold (rec_at R0 (Z.of_nat i)).
        fold (br_at R0 (Z.of_nat i + 1)). rewrite Hrec0, Hbr0.
        destruct (MinKeys - MinKeys <=? Z.of_nat i) eqn:E1; [|lia].
        destruct (Z.of_nat i <? MaxKeys - MinKeys) eqn:E2; [|lia].
        destruct (MinKeys - MinKeys + 1 <=? Z.of_nat i + 1) eqn:E3; [|lia].
        destruct (Z.of_nat i + 1 <? MaxKeys - MinKeys + 1) eqn:E4; [|lia]. simpl.
        idx_eq.
  - (* the pair lands in the right node *)
    rewrite (to_int_small (MinKeys + 1)) by lia.
    rewrite to_size_t_small by lia. rewrite to_int_small by lia.
    destruct (split_move_spec (Z.to_nat (MaxKeys - (MinKeys + 1))) cur0 Node_new
                (MinKeys + 1) (MinKeys + 1)
                ltac:(lia) ltac:(lia)
                ltac:(simpl; rewrite repeat_length; lia)
                ltac:(simpl; rewrite repeat_length; lia))
      as (Hc0 & Hlr0 & Hlb0 & Hrec0 & Hbr0).
    set (R0 := split_move _ _ _ _ _) in *.
    simpl in Hlr0, Hlb0. rewrite repeat_length in Hlr0, Hlb0.
    assert (HeR0 : entries (set_count R0 (MaxKeys - (MinKeys + 1))) =
                   drop (S (Z.to_nat MinKeys)) (entries cur0)).
    { apply entries_eq; simpl.
      - rewrite length_drop, Hes. lia.
      - intros i Hi. rewrite lookup_drop, entries_lookup.
        case_decide; [|lia].
        unfold rec_at at 2, br_at at 2. simpl. fold (rec_at R0 (Z.of_nat i)).
        fold (br_at R0 (Z.of_nat i + 1)). rewrite Hrec0, Hbr0.
        destruct (MinKeys + 1 - (MinKeys + 1) <=? Z.of_nat i) eqn:E1; [|lia].
        destruct (Z.of_nat i <? MaxKeys - (MinKeys + 1)) eqn:E2; [|lia].
        destruct (MinKeys + 1 - (MinKeys + 1) + 1 <=? Z.of_nat i + 1) eqn:E3; [|lia].
        destruct (Z.of_nat i + 1 <? MaxKeys - (MinKeys + 1) + 1) eqn:E4; [|lia]. simpl.
        idx_eq. }
    destruct (entries_addRecord rec rb (set_count R0 (MaxKeys - (MinKeys + 1)))
                (loc - (MinKeys + 1) + 1)
                ltac:(simpl; lia) ltac:(simpl; lia) ltac:(simpl; lia))
      as (He1 & Hb1 & Hc1 & Hlr1 & Hlb1).
    set (R1 := addRecord _ _ _ _) in *. clearbody R1 R0.
    simpl in Hc1, Hlr1, Hlb1, Hb1.
    rewrite HeR0 in He1.
    eexists _, _, _. split; [reflexivity|].
    repeat split; simpl; try lia.
    + rewrite length_aset. lia.
    + rewrite (entries_set_count (set_count cur0 (MinKeys + 1))) by (simpl; lia).
      rewrite entries_set_count by lia.
      rewrite take_take. unfold es'. rewrite take_ins_at_gt by lia. f_equal. lia.
    + unfold es'. rewrite lookup_ins_at by lia.
      case_decide; [|lia]. rewrite entries_lookup. case_decide; [|lia].
      unfold br_at at 2. simpl. rewrite aget_aset_eq by lia.
      unfold rec_at, br_at. simpl. idx_eq.
    + rewrite (entries_set_branch0 R1). rewrite He1.
      unfold es'. rewrite drop_ins_at_gt by lia. f_equal. lia.
Qed.

(** *** Key ranges *)

Lemma strcmp_lt_irrefl a : strcmp a a = Lt -> False.
Proof. rewrite strcmp_refl. discriminate. Qed.

Lemma strcmp_lt_asym a b : strcmp a b = Lt -> strcmp b a = Lt -> False.
Proof. intros H1 H2. apply (strcmp_lt_irrefl a). eapply strcmp_lt_trans; eauto. Qed.

Lemma strcmp_lt_eq_l a b c : strcmp a b = Lt -> strcmp c a = Eq -> strcmp c b = Lt.
Proof. intros H1 H2. now rewrite (strcmp_eq_l _ _ _ H2). Qed.

Lemma lt_lo_trans lo a b : lt_lo lo a -> strcmp a b = Lt -> lt_lo lo b.
Proof. destruct lo as [x|]; simpl; auto. intros. eapply strcmp_lt_trans; eauto. Qed.

Lemma lt_hi_trans a b hi : strcmp a b = Lt -> lt_hi b hi -> lt_hi a hi.
Proof. destruct hi as [x|]; simpl; auto. intros. eapply strcmp_lt_trans; eauto. Qed.

(** Every key of the second range is a key of the first. *)
Definition sub_range (lo hi lo' hi' : bound) : Prop :=
  forall k, in_range lo' hi' k -> in_range lo hi k.

(** No key is in both ranges. *)
Definition disjoint_range (lo hi lo' hi' : bound) : Prop :=
  forall k, in_range lo hi k -> in_range lo' hi' k -> False.

Lemma sub_range_refl lo hi : sub_range lo hi lo hi.
Proof. intros k H. exact H. Qed.

Lemma sub_range_trans lo hi lo1 hi1 lo2 hi2 :
  sub_range lo hi lo1 hi1 -> sub_range lo1 hi1 lo2 hi2 -> sub_range lo hi lo2 hi2.
Proof. intros H1 H2 k Hk. auto. Qed.

Lemma sub_range_left lo hi a : in_range lo hi a -> sub_range lo hi lo (Some a).
Proof.
  intros [Hl Hh] k [Hkl Hkh]. split; auto. eapply lt_hi_trans; eauto.
Qed.

Lemma sub_range_right lo hi a : in_range lo hi a -> sub_range lo hi (Some a) hi.
Proof.
  intros [Hl Hh] k [Hkl Hkh]. split; auto. eapply lt_lo_trans; eauto.
Qed.

Lemma disjoint_sub lo hi lo1 hi1 lo2 hi2 :
  disjoint_range lo hi lo1 hi1 -> sub_range lo1 hi1 lo2 hi2 ->
  disjoint_range lo hi lo2 hi2.
Proof. intros H1 H2 k Hk Hk2. eapply H1; eauto. Qed.

Lemma disjoint_left_right lo hi a : disjoint_range lo (Some a) (Some a) hi.
Proof. intros k [_ H1] [H2 _]. simpl in *. eapply strcmp_lt_asym; eauto. Qed.

Lemma disjoint_sym lo hi lo' hi' :
  disjoint_range lo hi lo' hi' -> disjoint_range lo' hi' lo hi.
Proof. intros H k H1 H2. eapply H; eauto. Qed.

(** *** Chains of children *)

(** The upper bound of the first child of a chain. *)
Definition hd_hi (es : list (Rec * Z)) (hi : bound) : bound :=
  match es with [] => hi | (r, _) :: _ => Some (key r) end.

(** The branch and the lower bound of the child after the entries [es]. *)
Definition last_br (b0 : Z) (es : list (Rec * Z)) : Z :=
  match last es with None => b0 | Some (_, c) => c end.

Definition last_lo (lo : bound) (es : list (Rec * Z)) : bound :=
  match last es with None => lo | Some (r, _) => Some (key r) end.

Lemma last_lo_snoc lo es r c : last_lo lo (es ++ [(r, c)]) = Some (key r).
Proof. unfold last_lo. now rewrite last_snoc. Qed.

Lemma last_br_snoc b0 es r c : last_br b0 (es ++ [(r, c)]) = c.
Proof. unfold last_br. now rewrite last_snoc. Qed.

Section Chain.

Variable W : bound -> bound -> Z -> list Rec -> Prop.

(** What follows the first child of a chain. *)
Definition chain_rest (lo hi : bound) (es : list (Rec * Z)) (rest : list Rec) : Prop :=
  match es with
  | [] => rest = []
  | (r, b) :: es' =>
      exists l2, rest = r :: l2 /\ in_range lo hi (key r) /\
        chain W (Some (key r)) hi b es' l2
  end.

(** What precedes the last child of a chain. *)
Definition chain_pre (lo hi : bound) (b0 : Z) (es : list (Rec * Z)) (pre : list Rec)
  : Prop :=
  (es = [] /\ pre = []) \/
  exists es' r c l1, es = es' ++ [(r, c)] /\ pre = l1 ++ [r] /\
    in_range lo hi (key r) /\ chain W lo (Some (key r)) b0 es' l1.

Lemma chain_head lo hi b0 es l :
  chain W lo hi b0 es l <->
  exists lC rest, l = lC ++ rest /\ W lo (hd_hi es hi) b0 lC /\ chain_rest lo hi es rest.
Proof.
  destruct es as [|[r b] es]; simpl.
  - split.
    + intros H. exists l, []. rewrite app_nil_r. auto.
    + intros (lC & rest & -> & H & ->). now rewrite app_nil_r.
  - split.
    + intros (l1 & l2 & -> & Hr & H1 & H2). exists l1, (r :: l2). eauto 10.
    + intros (lC & rest & -> & H & l2 & -> & Hr & H2). eauto 10.
Qed.

Lemma chain_app es1 : forall lo hi b0 r b es2 l,
  chain W lo hi b0 (es1 ++ (r, b) :: es2) l <->
  exists l1 l2, l = l1 ++ r :: l2 /\ in_range lo hi (key r) /\
    chain W lo (Some (key r)) b0 es1 l1 /\ chain W (Some (key r)) hi b es2 l2.
Proof.
  induction es1 as [|[r1 b1] es1 IH]; intros lo hi b0 r b es2 l.
  - simpl. reflexivity.
  - simpl. split.
    + intros (la & lb & -> & Hr1 & Hw & Hc).
      apply IH in Hc.
      destruct Hc as (l1 & l2 & -> & Hr & Hc1 & Hc2).
      exists (la ++ r1 :: l1), l2. split; [now rewrite <- app_assoc|].
      destruct Hr as [Hrl Hrh], Hr1 as [Hr1l Hr1h]. simpl in Hrl.
      split; [split; auto; eapply lt_lo_trans; eauto|].
      split; auto. exists la, l1. repeat split; auto.
    + intros (l1 & l2 & -> & Hr & (la & lb & -> & Hr1 & Hw & Hc1) & Hc2).
      exists la, (lb ++ r :: l2). split; [now rewrite <- app_assoc|].
      destruct Hr as [Hrl Hrh], Hr1 as [Hr1l Hr1h]. simpl in Hr1h.
      split; [split; auto; eapply lt_hi_trans; eauto|].
      split; auto.
      apply IH.
      exists lb, l2. repeat split; auto.
Qed.

(** A chain seen around the child that follows the entries [es1]. *)
Lemma chain_focus lo hi b0 es1 es2 l :
  chain W lo hi b0 (es1 ++ es2) l <->
  exists pre lC rest, l = pre ++ lC ++ rest /\
    chain_pre lo hi b0 es1 pre /\
    W (last_lo lo es1) (hd_hi es2 hi) (last_br b0 es1) lC /\
    chain_rest (last_lo lo es1) hi es2 rest.
Proof.
  induction es1 as [|[r c] es1' _] using rev_ind.
  - simpl. rewrite chain_head. unfold last_lo, last_br. simpl. split.
    + intros (lC & rest & -> & Hw & Hr). exists [], lC, rest. repeat split; auto.
      left. auto.
    + intros (pre & lC & rest & -> & [[_ ->]|(es' & r & c & l1 & He & _)] & Hw & Hr).
      * simpl. eauto.
      * destruct es'; discriminate.
  - rewrite <- app_assoc. simpl.
    rewrite chain_app.
    rewrite last_lo_snoc, last_br_snoc. split.
    + intros (l1 & l2 & -> & Hr & Hc1 & Hc2).
      apply chain_head in Hc2. destruct Hc2 as (lC & rest & -> & Hw & Hrest).
      exists (l1 ++ [r]), lC, rest. split; [now rewrite <- app_assoc|].
      split; auto. right. exists es1', r, c, l1. auto.
    + intros (pre & lC & rest & -> & [[He _]|(es' & r' & c' & l1 & He & -> & Hr & Hc1)] & Hw & Hrest).
      * destruct es1'; discriminate.
      * apply app_inj_tail in He. destruct He as [-> He]. injection He as -> ->.
        exists l1, (lC ++ rest). split; [now rewrite <- app_assoc|].
        split; auto. split; auto. apply chain_head. eauto.
Qed.

End Chain.

Lemma chain_mono (W W' : bound -> bound -> Z -> list Rec -> Prop) es :
  forall lo hi b0 l,
  (forall lo' hi' b l', sub_range lo hi lo' hi' -> W lo' hi' b l' -> W' lo' hi' b l') ->
  chain W lo hi b0 es l -> chain W' lo hi b0 es l.
Proof.
  induction es as [|[r b] es IH]; intros lo hi b0 l HW; simpl.
  - apply HW, sub_range_refl.
  - intros (l1 & l2 & -> & Hr & Hw & Hc). exists l1, l2. repeat split; try apply Hr.
    + apply HW; auto. now apply sub_range_left.
    + apply IH; auto. intros lo' hi' b' l' Hs. apply HW.
      eapply sub_range_trans; [|exact Hs]. now apply sub_range_right.
Qed.

(** A change confined to the range [(loC, hiC)] leaves a chain over a
    disjoint range as it is. *)
Lemma chain_frame (W W' : bound -> bound -> Z -> list Rec -> Prop) loC hiC lo hi b0 es l :
  (forall lo' hi' b l', disjoint_range loC hiC lo' hi' ->
     W lo' hi' b l' -> W' lo' hi' b l') ->
  disjoint_range loC hiC lo hi ->
  chain W lo hi b0 es l -> chain W' lo hi b0 es l.
Proof.
  intros HW Hd. apply chain_mono. intros lo' hi' b l' Hs. apply HW.
  eapply disjoint_sub; eauto.
Qed.

Lemma chain_keys_range W es : forall lo hi b0 l,
  chain W lo hi b0 es l -> Forall (fun e => in_range lo hi (key e.1)) es.
Proof.
  induction es as [|[r b] es IH]; intros lo hi b0 l; simpl; [constructor|].
  intros (l1 & l2 & -> & Hr & Hw & Hc). constructor; [exact Hr|].
  apply IH in Hc. eapply Forall_impl; [exact Hc|].
  intros e He. simpl in He. eapply sub_range_right; eauto.
Qed.

(** The keys of a node are strictly ascending. *)
Lemma chain_sorted W es : forall lo hi b0 l (i j : nat) ei ej,
  chain W lo hi b0 es l -> (i < j)%nat ->
  es !! i = Some ei -> es !! j = Some ej -> strcmp (key ei.1) (key ej.1) = Lt.
Proof.
  induction es as [|[r b] es IH]; intros lo hi b0 l i j ei ej Hc Hij Hi Hj.
  - discriminate.
  - simpl in Hc. destruct Hc as (l1 & l2 & -> & Hr & Hw & Hc).
    destruct j as [|j]; [lia|]. simpl in Hj.
    destruct i as [|i].
    + injection Hi as <-. simpl.
      apply chain_keys_range in Hc.
      rewrite Forall_lookup in Hc. apply Hc in Hj. apply Hj.
    + simpl in Hi. apply (IH _ _ _ _ i j ei ej Hc); auto. lia.
Qed.

Lemma chain_range (W : bound -> bound -> Z -> list Rec -> Prop) :
  (forall lo hi b l, W lo hi b l -> Forall (fun r => in_range lo hi (key r)) l) ->
  forall es lo hi b0 l,
  chain W lo hi b0 es l -> Forall (fun r => in_range lo hi (key r)) l.
Proof.
  intros HW. induction es as [|[r b] es IH]; intros lo hi b0 l; simpl.
  - apply HW.
  - intros (l1 & l2 & -> & Hr & Hw & Hc).
    apply Forall_app. split; [|constructor; [exact Hr|]].
    + apply HW in Hw. eapply Forall_impl; [exact Hw|].
      intros x Hx. simpl in Hx. eapply sub_range_left; eauto.
    + apply IH in Hc. eapply Forall_impl; [exact Hc|].
      intros x Hx. simpl in Hx. eapply sub_range_right; eauto.
Qed.

Lemma chain_entry_in W es : forall lo hi b0 l e,
  chain W lo hi b0 es l -> e ∈ es -> e.1 ∈ l.
Proof.
  induction es as [|[r b] es IH]; intros lo hi b0 l e Hc He.
  - inversion He.
  - simpl in Hc. destruct Hc as (l1 & l2 & -> & Hr & Hw & Hc).
    apply elem_of_cons in He. destruct He as [->|He].
    + simpl. apply elem_of_app. right. left.
    + apply elem_of_app. right. right. eapply IH; eauto.
Qed.

(** *** Subtrees *)

Lemma entries_cons n : 1 <= count n ->
  exists es, entries n = (rec_at n 0, br_at n 1) :: es.
Proof.
  intros H. unfold entries. rewrite seqZ_cons by lia. simpl. eauto.
Qed.

(** [f'] keeps the nodes of [f] whose first key is inside the range. *)
Definition keeps (f f' : File) (lo hi : bound) : Prop :=
  forall i n, f !! i = Some n -> 1 <= count n ->
    in_range lo hi (key (rec_at n 0)) -> f' !! i = Some n.

Lemma keeps_sub f f' lo hi lo' hi' :
  keeps f f' lo hi -> sub_range lo hi lo' hi' -> keeps f f' lo' hi'.
Proof. intros H Hs i n Hn Hc Hin. apply H; auto. Qed.

Lemma frame_keeps f f' loC hiC lo hi :
  frame f f' loC hiC -> disjoint_range loC hiC lo hi -> keeps f f' lo hi.
Proof.
  intros Hf Hd i n Hn Hc Hin. apply Hf; auto. intros [_ Hin']. eapply Hd; eauto.
Qed.

Lemma subtree_keeps f f' h : forall minc lo hi id l,
  keeps f f' lo hi ->
  subtree f h minc lo hi id l -> subtree f' h minc lo hi id l.
Proof.
  induction h as [|h IH]; intros minc lo hi id l Hk; simpl; [auto|].
  intros (n & Hid & Hn & Hsh & Hcnt & Hc1 & Hch).
  exists n. split; [exact Hid|]. split; [|split; [exact Hsh|split; [exact Hcnt|split; [exact Hc1|]]]].
  - apply Hk; auto.
    destruct (entries_cons n Hc1) as (es & Hes). rewrite Hes in Hch.
    simpl in Hch. destruct Hch as (l1 & l2 & _ & Hr & _). exact Hr.
  - eapply chain_mono; [|exact Hch].
    intros lo' hi' b l' Hs. apply IH. eapply keeps_sub; eauto.
Qed.

Lemma chain_keeps f f' h minc lo hi b0 es l :
  keeps f f' lo hi ->
  chain (subtree f h minc) lo hi b0 es l -> chain (subtree f' h minc) lo hi b0 es l.
Proof.
  intros Hk. apply chain_mono. intros lo' hi' b l' Hs.
  apply subtree_keeps. eapply keeps_sub; eauto.
Qed.

(** Rewriting one node does not touch a subtree that node is not part of:
    its first key is outside the subtree's range. *)
Lemma subtree_update f f' j n h minc lo hi id l :
  f !! j = Some n ->
  ~ in_range lo hi (key (rec_at n 0)) ->
  (forall i x, i <> j -> f !! i = Some x -> f' !! i = Some x) ->
  subtree f h minc lo hi id l -> subtree f' h minc lo hi id l.
Proof.
  intros Hj Hout Hsame. apply subtree_keeps.
  intros i x Hx Hc Hin. destruct (decide (i = j)) as [->|Hne].
  - rewrite Hj in Hx. injection Hx as <-. contradiction.
  - now apply Hsame.
Qed.

(** The key [x] is strictly inside none of the child ranges of a chain. *)
Fixpoint outside_chain (lo hi : bound) (es : list (Rec * Z)) (x : string) : Prop :=
  match es with
  | [] => ~ in_range lo hi x
  | (r, _) :: es' => ~ in_range lo (Some (key r)) x /\ outside_chain (Some (key r)) hi es' x
  end.

Lemma outside_chain_lo W es : forall lo hi b0 l x,
  ~ lt_lo lo x -> chain W lo hi b0 es l -> outside_chain lo hi es x.
Proof.
  induction es as [|[r b] es IH]; intros lo hi b0 l x Hx; simpl.
  - intros _ [H _]. contradiction.
  - intros (l1 & l2 & _ & [Hrl Hrh] & _ & Hc). split.
    + intros [H _]. contradiction.
    + eapply IH; [|exact Hc]. simpl. intros H. apply Hx.
      destruct lo as [a|]; simpl in *; auto. eapply strcmp_lt_trans; eauto.
Qed.

Lemma outside_chain_key W es : forall lo hi b0 l e x,
  chain W lo hi b0 es l -> e ∈ es -> strcmp x (key e.1) = Eq ->
  outside_chain lo hi es x.
Proof.
  induction es as [|[r b] es IH]; intros lo hi b0 l e x Hc He Hx.
  - inversion He.
  - simpl in Hc. destruct Hc as (l1 & l2 & _ & [Hrl Hrh] & _ & Hc). simpl.
    apply elem_of_cons in He. destruct He as [->|He].
    + simpl in Hx. split.
      * intros [_ H]. simpl in H. congruence.
      * eapply outside_chain_lo; [|exact Hc]. simpl.
        rewrite strcmp_antisym, Hx. discriminate.
    + pose proof (chain_keys_range _ _ _ _ _ _ Hc) as Hall.
      rewrite Forall_forall in Hall. apply Hall in He as Hin.
      destruct Hin as [Hlo _]. simpl in Hlo.
      assert (Hrx : strcmp (key r) x = Lt).
      { rewrite (strcmp_eq_r _ _ _ Hx). exact Hlo. }
      split.
      * intros [_ H]. simpl in H. eapply strcmp_lt_asym; eauto.
      * eapply IH; eauto.
Qed.

Lemma outside_chain_app es1 : forall lo hi r b es2 x,
  outside_chain lo hi (es1 ++ (r, b) :: es2) x ->
  outside_chain lo (Some (key r)) es1 x /\ outside_chain (Some (key r)) hi es2 x.
Proof.
  clear creatable.
  induction es1 as [|[r1 b1] es1 IH]; intros lo hi r b es2 x; simpl.
  - auto.
  - intros [H1 H2]. apply IH in H2. tauto.
Qed.

Lemma last_lo_cons lo e es : last_lo lo (e :: es) = last_lo (Some (key e.1)) es.
Proof.
  unfold last_lo. destruct es as [|e' es]; simpl.
  - now destruct e.
  - destruct (last (e' :: es)) as [[r c]|] eqn:E; [reflexivity|].
    apply last_None in E. discriminate.
Qed.

Lemma outside_chain_focus es1 : forall lo hi es2 x,
  outside_chain lo hi (es1 ++ es2) x ->
  ~ in_range (last_lo lo es1) (hd_hi es2 hi) x.
Proof.
  clear creatable.
  induction es1 as [|[r1 b1] es1 IH]; intros lo hi es2 x; simpl.
  - unfold last_lo. simpl. destruct es2 as [|[r b] es2]; simpl; tauto.
  - intros [_ H]. apply IH in H. now rewrite last_lo_cons.
Qed.

Lemma chain_update f f' j n h minc es : forall lo hi b0 l,
  f !! j = Some n ->
  (forall i x, i <> j -> f !! i = Some x -> f' !! i = Some x) ->
  outside_chain lo hi es (key (rec_at n 0)) ->
  chain (subtree f h minc) lo hi b0 es l -> chain (subtree f' h minc) lo hi b0 es l.
Proof.
  induction es as [|[r b] es IH]; intros lo hi b0 l Hj Hsame; simpl.
  - intros Hout. eapply subtree_update; eauto.
  - intros [Hout1 Hout2] (l1 & l2 & -> & Hr & Hw & Hc).
    exists l1, l2. split; [reflexivity|]. split; [exact Hr|]. split.
    + eapply subtree_update; eauto.
    + apply IH; auto.
Qed.

Lemma subtree_range f h : forall minc lo hi id l,
  subtree f h minc lo hi id l -> Forall (fun r => in_range lo hi (key r)) l.
Proof.
  induction h as [|h IH]; intros minc lo hi id l; simpl.
  - intros [_ ->]. constructor.
  - intros (n & _ & _ & _ & _ & _ & Hch).
    eapply chain_range; [|exact Hch]. intros lo' hi' b l'. apply IH.
Qed.

Lemma subtree_minc f h minc minc' lo hi id l :
  minc' <= minc -> subtree f h minc lo hi id l -> subtree f h minc' lo hi id l.
Proof.
  destruct h; simpl; auto.
  intros Hm (n & H1 & H2 & H3 & H4 & H5). exists n.
  split; [exact H1|]. split; [exact H2|]. split; [exact H3|]. split; [lia|exact H5].
Qed.

Lemma subtree_nil_iff f h minc lo hi l :
  subtree f h minc lo hi NilPtr l <-> h = O /\ l = [].
Proof.
  destruct h; simpl.
  - split; [intros [_ ->]; auto | intros [_ ->]; auto].
  - split.
    + intros (n & Hid & _). unfold NilPtr in Hid. lia.
    + intros [H _]. discriminate.
Qed.

(** *** Reading and writing nodes in a healthy session *)

Lemma readNode_ok fs t f id n :
  session_ok fs t f -> 0 <= id -> f !! Z.to_nat id = Some n ->
  readNode fs t id = (true, set_currentNode t n).
Proof.
  intros (Ho & Hf & Hp) Hid Hn. unfold readNode, stream_read.
  rewrite Ho, Hf, Hp, Z.eqb_refl, block_index_node by lia. simpl. now rewrite Hn.
Qed.

Lemma writeNode_ok fs t f id nd :
  session_ok fs t f -> 0 <= id ->
  writeNode fs t id nd =
  (true, <[path (file_ t) := file_write f (Z.to_nat id) nd]> fs, t).
Proof.
  intros (Ho & Hf & Hp) Hid. unfold writeNode, stream_write.
  rewrite Ho, Hf, Hp, Z.eqb_refl, block_index_node by lia. reflexivity.
Qed.

Lemma session_ok_write fs t f f' :
  session_ok fs t f -> session_ok (<[path (file_ t) := f']> fs) t f'.
Proof.
  intros (Ho & Hf & Hp). repeat split; auto. apply lookup_insert_eq.
Qed.

Lemma session_ok_same_file fs t t' f :
  file_ t' = file_ t -> session_ok fs t f -> session_ok fs t' f.
Proof. unfold session_ok. now intros ->. Qed.

Lemma file_write_inside (f : File) i n :
  (i < length f)%nat -> file_write f i n = <[i := n]> f.
Proof.
  intros H. unfold file_write.
  destruct (i <? length f)%nat eqn:E; [reflexivity|].
  apply Nat.ltb_ge in E. lia.
Qed.

Lemma file_write_end (f : File) n : file_write f (length f) n = f ++ [n].
Proof.
  unfold file_write. rewrite Nat.ltb_irrefl, Nat.sub_diag. reflexivity.
Qed.

(** *** [searchNode] on a node with ascending keys *)

Lemma searchNode_scan_spec target n steps : forall loc,
  Z.of_nat steps = loc ->
  let r := searchNode_scan steps target n loc in
  0 <= r <= loc /\
  (forall i, r < i <= loc -> strcmp target (key (rec_at n i)) = Lt) /\
  (r = 0 \/ strcmp target (key (rec_at n r)) <> Lt).
Proof.
  induction steps as [|steps IH]; intros loc Hs; simpl.
  - split; [lia|]. split; [intros; lia|]. left. lia.
  - destruct (0 <? loc) eqn:E0; [|lia]. simpl.
    destruct (strcmp target (key (rec_at n loc))) eqn:Ec.
    + split; [lia|]. split; [intros; lia|]. right. congruence.
    + destruct (IH (loc - 1)) as (Hr & Hgt & Hstop); [lia|].
      split; [lia|]. split; auto.
      intros i Hi. destruct (Z.eq_dec i loc) as [->|Hne]; auto. apply Hgt. lia.
    + split; [lia|]. split; [intros; lia|]. right. congruence.
Qed.

(** The answer of [searchNode]: a hit at [location], or the gap the key
    falls in, after record [location] and before record [location + 1]. *)
Lemma searchNode_spec t target :
  0 <= count (currentNode_ t) ->
  exists found loc, searchNode t target = (found, loc) /\
    -1 <= loc < count (currentNode_ t) /\
    (found = true ->
       0 <= loc /\ strcmp target (key (rec_at (currentNode_ t) loc)) = Eq) /\
    (found = false ->
       (0 <= loc -> strcmp (key (rec_at (currentNode_ t) loc)) target = Lt) /\
       (loc + 1 < count (currentNode_ t) ->
          strcmp target (key (rec_at (currentNode_ t) (loc + 1))) = Lt)).
Proof.
  intros Hc. unfold searchNode. set (n := currentNode_ t) in *.
  destruct (count n =? 0) eqn:E0.
  { exists false, (-1). repeat split; try lia; try discriminate. }
  destruct (strcmp target (key (rec_at n 0))) eqn:Ec0.
  - destruct (searchNode_scan_spec target n (Z.to_nat (count n - 1)) (count n - 1))
      as (Hr & Hgt & Hstop); [lia|].
    set (r := searchNode_scan _ _ _ _) in *. clearbody r.
    eexists _, r. split; [reflexivity|]. split; [lia|].
    assert (Hge : strcmp target (key (rec_at n r)) <> Lt).
    { destruct Hstop as [->|H]; [congruence|exact H]. }
    split.
    + destruct (strcmp target (key (rec_at n r))); try discriminate. auto with lia.
    + intros Hnf. split.
      * intros _. apply strcmp_gt_lt.
        destruct (strcmp target (key (rec_at n r))); congruence.
      * intros Hlt. apply Hgt. lia.
  - exists false, (-1). repeat split; try lia; try discriminate.
    intros _. simpl. exact Ec0.
  - destruct (searchNode_scan_spec target n (Z.to_nat (count n - 1)) (count n - 1))
      as (Hr & Hgt & Hstop); [lia|].
    set (r := searchNode_scan _ _ _ _) in *. clearbody r.
    eexists _, r. split; [reflexivity|]. split; [lia|].
    assert (Hge : strcmp target (key (rec_at n r)) <> Lt).
    { destruct Hstop as [->|H]; [congruence|exact H]. }
    split.
    + destruct (strcmp target (key (rec_at n r))); try discriminate. auto with lia.
    + intros Hnf. split.
      * intros _. apply strcmp_gt_lt.
        destruct (strcmp target (key (rec_at n r))); congruence.
      * intros Hlt. apply Hgt. lia.
Qed.

(** *** The child a search descends into *)

Lemma chain_pre_hi W lo hi hi2 b0 es1 pre :
  (forall x, hi2 = Some x -> lt_lo (last_lo lo es1) x) ->
  chain_pre W lo hi b0 es1 pre -> chain_pre W lo hi2 b0 es1 pre.
Proof.
  intros Hx [[-> ->]|(es' & r & c & l1 & -> & -> & [Hrl Hrh] & Hc)].
  - left. auto.
  - right. exists es', r, c, l1. repeat split; auto.
    destruct hi2 as [x|]; simpl; auto.
    specialize (Hx x eq_refl). now rewrite last_lo_snoc in Hx.
Qed.

Lemma chain_rest_lo W lo lo2 hi es2 rest :
  (forall x, lo2 = Some x -> lt_hi x (hd_hi es2 hi)) ->
  chain_rest W lo hi es2 rest -> chain_rest W lo2 hi es2 rest.
Proof.
  destruct es2 as [|[r b] es2]; simpl; auto.
  intros Hx (l2 & -> & [Hrl Hrh] & Hc). exists l2. repeat split; auto.
  destruct lo2 as [x|]; simpl; auto.
Qed.

Lemma elem_of_ins_at {A} p (x e : A) l : e ∈ l -> e ∈ ins_at p x l.
Proof.
  intros H. unfold ins_at. rewrite <- (take_drop p l) in H.
  apply elem_of_app in H. apply elem_of_app. destruct H as [H|H]; [now left|].
  right. now apply elem_of_cons; right.
Qed.

Lemma chain_pre_frame f f' h mc lo hi b0 es1 pre hiC :
  frame f f' (last_lo lo es1) hiC ->
  chain_pre (subtree f h mc) lo hi b0 es1 pre ->
  chain_pre (subtree f' h mc) lo hi b0 es1 pre.
Proof.
  intros Hf [[-> ->]|(es' & r & c & l1 & -> & -> & Hr & Hc)].
  - left. auto.
  - right. exists es', r, c, l1. repeat split; auto; try apply Hr.
    rewrite last_lo_snoc in Hf.
    eapply chain_keeps; [|exact Hc].
    eapply frame_keeps; [exact Hf|]. apply disjoint_sym, disjoint_left_right.
Qed.

Lemma chain_rest_frame f f' h mc lo hi es2 rest loC :
  frame f f' loC (hd_hi es2 hi) ->
  chain_rest (subtree f h mc) lo hi es2 rest ->
  chain_rest (subtree f' h mc) lo hi es2 rest.
Proof.
  destruct es2 as [|[r b] es2]; simpl; auto.
  intros Hf (l2 & -> & Hr & Hc). exists l2. repeat split; auto; try apply Hr.
  eapply chain_keeps; [|exact Hc].
  eapply frame_keeps; [exact Hf|]. apply disjoint_left_right.
Qed.

Lemma chain_pre_below (W : bound -> bound -> Z -> list Rec -> Prop) lo hi b0 es1 pre :
  (forall lo hi b l, W lo hi b l -> Forall (fun r => in_range lo hi (key r)) l) ->
  chain_pre W lo hi b0 es1 pre ->
  forall r k, r ∈ pre -> lt_lo (last_lo lo es1) k -> strcmp (key r) k = Lt.
Proof.
  intros HW [[-> ->]|(es' & r1 & c & l1 & -> & -> & Hr & Hc)] r k Hin Hk.
  - inversion Hin.
  - rewrite last_lo_snoc in Hk. simpl in Hk.
    apply elem_of_app in Hin. destruct Hin as [Hin|Hin].
    + pose proof (chain_range W HW _ _ _ _ _ Hc) as Hall.
      rewrite Forall_forall in Hall. destruct (Hall _ Hin) as [_ Hlt]. simpl in Hlt.
      eapply strcmp_lt_trans; eauto.
    + apply list_elem_of_singleton in Hin. now subst.
Qed.

Lemma chain_rest_above (W : bound -> bound -> Z -> list Rec -> Prop) lo hi es2 rest :
  (forall lo hi b l, W lo hi b l -> Forall (fun r => in_range lo hi (key r)) l) ->
  chain_rest W lo hi es2 rest ->
  forall r k, r ∈ rest -> lt_hi k (hd_hi es2 hi) -> strcmp k (key r) = Lt.
Proof.
  intros HW. destruct es2 as [|[r2 b] es2]; simpl.
  - intros -> r k Hin. inversion Hin.
  - intros (l2 & -> & Hr & Hc) r k Hin Hk.
    apply elem_of_cons in Hin. destruct Hin as [->|Hin]; [exact Hk|].
    pose proof (chain_range W HW _ _ _ _ _ Hc) as Hall.
    rewrite Forall_forall in Hall. destruct (Hall _ Hin) as [Hlt _]. simpl in Hlt.
    eapply strcmp_lt_trans; eauto.
Qed.

Lemma last_take_entries n loc :
  0 <= loc < count n ->
  last (take (Z.to_nat (loc + 1)) (entries n)) = Some (rec_at n loc, br_at n (loc + 1)).
Proof.
  intros H. rewrite last_lookup, length_take, length_entries, lookup_take.
  case_decide; [|lia]. rewrite entries_lookup. case_decide; [|lia].
  replace (Z.of_nat (Init.Nat.pred (Z.to_nat (loc + 1) `min` Z.to_nat (count n)))) with loc by lia.
  reflexivity.
Qed.

Lemma last_br_search n loc :
  -1 <= loc < count n ->
  last_br (br_at n 0) (take (Z.to_nat (loc + 1)) (entries n)) = br_at n (loc + 1).
Proof.
  intros H. unfold last_br. destruct (Z.eq_dec loc (-1)) as [->|Hne].
  - reflexivity.
  - now rewrite last_take_entries by lia.
Qed.

Lemma last_lo_search lo n loc :
  -1 <= loc < count n ->
  last_lo lo (take (Z.to_nat (loc + 1)) (entries n)) =
  if loc <? 0 then lo else Some (key (rec_at n loc)).
Proof.
  intros H. unfold last_lo. destruct (Z.eq_dec loc (-1)) as [->|Hne].
  - reflexivity.
  - rewrite last_take_entries by lia. destruct (loc <? 0) eqn:E; [lia|]. reflexivity.
Qed.

Lemma hd_hi_search hi n loc :
  -1 <= loc < count n ->
  hd_hi (drop (Z.to_nat (loc + 1)) (entries n)) hi =
  if loc + 1 <? count n then Some (key (rec_at n (loc + 1))) else hi.
Proof.
  intros H. unfold hd_hi.
  destruct (drop (Z.to_nat (loc + 1)) (entries n)) as [|[r b] es] eqn:E.
  - destruct (loc + 1 <? count n) eqn:E1; [|reflexivity].
    apply (f_equal length) in E. rewrite length_drop, length_entries in E. simpl in E. lia.
  - assert (Hl : drop (Z.to_nat (loc + 1)) (entries n) !! 0%nat = Some (r, b))
      by now rewrite E.
    rewrite lookup_drop, entries_lookup in Hl.
    case_decide; [|discriminate]. injection Hl as <- <-.
    destruct (loc + 1 <? count n) eqn:E1; [|lia]. do 3 f_equal. lia.
Qed.

(** The gap [searchNode] reports is the key range of the child it names. *)
Lemma search_gap lo hi n loc k :
  -1 <= loc < count n -> in_range lo hi k ->
  (0 <= loc -> strcmp (key (rec_at n loc)) k = Lt) ->
  (loc + 1 < count n -> strcmp k (key (rec_at n (loc + 1))) = Lt) ->
  in_range (last_lo lo (take (Z.to_nat (loc + 1)) (entries n)))
           (hd_hi (drop (Z.to_nat (loc + 1)) (entries n)) hi) k.
Proof.
  intros Hloc [Hl Hh] H1 H2. rewrite last_lo_search, hd_hi_search by lia. split.
  - destruct (loc <? 0) eqn:E; [exact Hl|]. simpl. apply H1. lia.
  - destruct (loc + 1 <? count n) eqn:E; [|exact Hh]. simpl. apply H2. lia.
Qed.

Lemma entry_at_in n loc :
  0 <= loc < count n -> (rec_at n loc, br_at n (loc + 1)) ∈ entries n.
Proof.
  intros H. apply list_elem_of_lookup. exists (Z.to_nat loc).
  rewrite entries_lookup. case_decide; [|lia]. idx_eq.
Qed.

(** *** [pushDown] on a well-formed subtree *)

(** Everything of the session but the working buffer and the node counter. *)
Definition same_session (t t' : BTree) : Prop :=
  file_ t' = file_ t /\ mode_ t' = mode_ t /\ isOpen_ t' = isOpen_ t /\
  root_ t' = root_ t /\ numItems_ t' = numItems_ t.

Lemma same_session_refl t : same_session t t.
Proof. repeat split. Qed.

Lemma same_session_trans t1 t2 t3 :
  same_session t1 t2 -> same_session t2 t3 -> same_session t1 t3.
Proof.
  intros (A1 & A2 & A3 & A4 & A5) (B1 & B2 & B3 & B4 & B5).
  repeat split; congruence.
Qed.

Lemma frame_refl f lo hi : frame f f lo hi.
Proof. intros i n H _. exact H. Qed.

Lemma frame_widen f f' lo hi lo' hi' :
  frame f f' lo' hi' -> sub_range lo hi lo' hi' -> frame f f' lo hi.
Proof.
  intros Hf Hs i n Hn Hout. apply Hf; auto. intros [Hc Hin]. apply Hout. split; auto.
Qed.

Lemma frame_insert f f1 lo hi j n x :
  frame f f1 lo hi -> f !! j = Some n -> 1 <= count n ->
  in_range lo hi (key (rec_at n 0)) -> frame f (<[j := x]> f1) lo hi.
Proof.
  intros Hf Hj Hc Hin i y Hy Hout. destruct (decide (i = j)) as [->|Hne].
  - rewrite Hj in Hy. injection Hy as <-. exfalso. apply Hout. auto.
  - rewrite list_lookup_insert_ne by auto. now apply Hf.
Qed.

Lemma frame_app f f1 lo hi (x : Node) :
  frame f f1 lo hi -> frame f (f1 ++ [x]) lo hi.
Proof.
  intros Hf i y Hy Hout. apply lookup_app_l_Some. now apply Hf.
Qed.

Lemma last_elem_of {A} (l : list A) x : last l = Some x -> x ∈ l.
Proof.
  rewrite last_lookup. intros H. apply list_elem_of_lookup. eauto.
Qed.

Lemma focus_sub_range W lo hi b0 es1 es2 l :
  chain W lo hi b0 (es1 ++ es2) l ->
  sub_range lo hi (last_lo lo es1) (hd_hi es2 hi).
Proof.
  intros Hc k [Hl Hh].
  pose proof (chain_keys_range _ _ _ _ _ _ Hc) as Hall.
  apply Forall_app in Hall. destruct Hall as [H1 H2].
  rewrite Forall_forall in H1. split.
  - unfold last_lo in Hl. destruct (last es1) as [[r c]|] eqn:E; [|exact Hl].
    apply last_elem_of in E. apply H1 in E. destruct E as [E _]. simpl in *.
    eapply lt_lo_trans; eauto.
  - destruct es2 as [|[r c] es2]; [exact Hh|]. simpl in Hh.
    apply Forall_cons in H2. destruct H2 as [[_ E] _]. simpl in E.
    eapply lt_hi_trans; eauto.
Qed.

Lemma subtree_height f h : forall minc lo hi id l,
  subtree f h minc lo hi id l -> (h <= length l)%nat.
Proof.
  induction h as [|h IH]; intros minc lo hi id l; simpl; [lia|].
  intros (n & _ & _ & _ & _ & Hc1 & Hch).
  destruct (entries_cons n Hc1) as (es & Hes). rewrite Hes in Hch. simpl in Hch.
  destruct Hch as (l1 & l2 & -> & _ & Hw & _). apply IH in Hw.
  rewrite length_app. simpl. lia.
Qed.

Lemma pushDown_ok h : forall fuel fs t f minc lo hi id l rec out,
  (h < fuel)%nat -> session_ok fs t f ->
  Z.of_nat (length f) = numNodes_ t + 1 -> minc <= MinKeys ->
  subtree f h minc lo hi id l -> in_range lo hi (key rec) ->
  (forall r, r ∈ l -> strcmp (key rec) (key r) <> Eq) ->
  exists fs' t' f' moveUp newRecord newRight,
    pushDown fuel fs t rec id out = Some (Ok (moveUp, newRecord, newRight), fs', t') /\
    session_ok fs' t' f' /\ Z.of_nat (length f') = numNodes_ t' + 1 /\
    same_session t t' /\ fs' = <[path (file_ t) := f']> fs /\
    frame f f' lo hi /\ (length f <= length f')%nat /\
    exists l1 l2, l = l1 ++ l2 /\
      if moveUp then
        exists lL lR, l1 ++ rec :: l2 = lL ++ newRecord :: lR /\
          in_range lo hi (key newRecord) /\
          subtree f' h MinKeys lo (Some (key newRecord)) id lL /\
          subtree f' h MinKeys (Some (key newRecord)) hi newRight lR
      else subtree f' h minc lo hi id (l1 ++ rec :: l2).
Proof.
  induction h as [|h IH];
    intros fuel fs t f minc lo hi id l rec out Hfuel Hs Hlen Hminc Hsub Hin Hnew.
  - (* past a leaf *)
    destruct Hsub as [-> ->]. destruct fuel as [|fuel]; [lia|]. simpl.
    exists fs, t, f, true, rec, NilPtr.
    split; [reflexivity|]. split; [exact Hs|]. split; [exact Hlen|].
    split; [apply same_session_refl|].
    split; [symmetry; apply insert_id; apply Hs|].
    split; [apply frame_refl|]. split; [lia|].
    exists [], []. split; [reflexivity|]. exists [], []. simpl. auto.
  - destruct Hsub as (n & Hid & Hn & Hsh & Hcnt & Hc1 & Hch).
    destruct fuel as [|fuel]; [lia|]. cbn [pushDown].
    replace (id =? NilPtr) with false by (unfold NilPtr; lia).
    rewrite (readNode_ok fs t f id n Hs ltac:(lia) Hn).
    destruct (searchNode_spec (set_currentNode t n) (key rec))
      as (found & loc & Hsearch & Hloc & Hfound & Hnf); [simpl; lia|].
    simpl in Hloc, Hfound, Hnf. rewrite Hsearch.
    destruct found.
    { exfalso. destruct Hfound as [Hl0 Heq]; auto.
      apply (Hnew (rec_at n loc)); auto.
      apply (chain_entry_in _ _ _ _ _ _ (rec_at n loc, br_at n (loc + 1)) Hch).
      apply entry_at_in. lia. }
    destruct Hnf as [Hbelow Habove]; auto.
    cbn [currentNode_ set_currentNode].
    set (p := Z.to_nat (loc + 1)).
    pose proof Hch as Hch0.
    rewrite <- (take_drop p (entries n)) in Hch.
    pose proof (focus_sub_range _ _ _ _ _ _ _ Hch) as Hsubr.
    apply chain_focus in Hch. destruct Hch as (pre & lC & rest & -> & Hpre & HW & Hrest).
    unfold p in HW. rewrite last_br_search in HW by lia. fold p in HW.
    pose proof (search_gap lo hi n loc (key rec) ltac:(lia) Hin Hbelow Habove) as Hgap.
    fold p in Hgap.
    set (lo' := last_lo lo (take p (entries n))) in *.
    set (hi' := hd_hi (drop p (entries n)) hi) in *.
    destruct (IH fuel fs (set_currentNode t n) f MinKeys lo' hi' (br_at n (loc + 1)) lC rec out)
      as (fs1 & t1 & f1 & moveUp & m & right & Hpd & Hs1 & Hlen1 & Hsame1 & Hfs1 & Hfr1 & Hle1
          & lc1 & lc2 & -> & Hpost); try lia; auto.
    { intros r Hr. apply Hnew. apply elem_of_app. right. apply elem_of_app. now left. }
    rewrite Hpd.
    assert (Hout : outside_chain lo hi (entries n) (key (rec_at n 0))).
    { apply (outside_chain_key _ _ _ _ _ _ (rec_at n 0, br_at n (0 + 1))
               (key (rec_at n 0)) Hch0); [|apply strcmp_refl].
      apply (entry_at_in n 0). lia. }
    assert (Hn1 : f1 !! Z.to_nat id = Some n).
    { apply Hfr1; auto. intros [_ Hin0].
      eapply (outside_chain_focus (take p (entries n))); [|exact Hin0].
      rewrite take_drop. exact Hout. }
    simpl in Hsame1, Hlen1, Hfs1.
    destruct Hsame1 as (Hsf & Hsm & Hso & Hsr & Hsi).
    destruct Hsh as [Hshr Hshb]. pose proof MaxKeys_eq as HMO.
    destruct MaxKeys_int as [HMi HM]. destruct MinKeys_int as [_ HmM].
    assert (Hpre1 : chain_pre (subtree f1 h MinKeys) lo hi (br_at n 0)
                      (take p (entries n)) pre)
      by (eapply chain_pre_frame; eauto).
    assert (Hrest1 : chain_rest (subtree f1 h MinKeys) lo' hi (drop p (entries n)) rest)
      by (eapply chain_rest_frame; eauto).
    assert (Hfr : frame f f1 lo hi) by (eapply frame_widen; eauto).
    assert (Hin0 : in_range lo hi (key (rec_at n 0))).
    { destruct (entries_cons n Hc1) as (es & Hes). rewrite Hes in Hch0.
      simpl in Hch0. destruct Hch0 as (l1 & l2 & _ & Hr & _). exact Hr. }
    assert (Hidlt : (Z.to_nat id < length f1)%nat) by (now apply lookup_lt_Some in Hn1).
    destruct moveUp.
    + (* a record came up from the child *)
      destruct Hpost as (lL & lR & Heq & Hm & HsL & HsR).
      rewrite (readNode_ok fs1 t1 f1 id n Hs1 ltac:(lia) Hn1).
      cbn [currentNode_ set_currentNode]. rewrite HMi.
      assert (Hnewchain :
        chain (subtree f1 h MinKeys) lo hi (br_at n 0)
          (ins_at p (m, right) (entries n)) (pre ++ (lL ++ m :: lR) ++ rest)).
      { unfold ins_at. apply chain_app.
        exists (pre ++ lL), (lR ++ rest).
        split; [now rewrite <- !app_assoc|].
        split; [now apply Hsubr|].
        split.
        - rewrite <- (app_nil_r (take p (entries n))). apply chain_focus.
          exists pre, lL, []. split; [now rewrite app_nil_r|].
          split; [|split; [|reflexivity]].
          + eapply chain_pre_hi; [|exact Hpre1]. intros x [= <-]. apply Hm.
          + unfold p. rewrite last_br_search by lia. exact HsL.
        - apply chain_head. exists lR, rest. split; [reflexivity|].
          split; [exact HsR|].
          eapply chain_rest_lo; [|exact Hrest1]. intros x [= <-]. apply Hm. }
      assert (Hout' : outside_chain lo hi (ins_at p (m, right) (entries n))
                        (key (rec_at n 0))).
      { apply (outside_chain_key _ _ _ _ _ _ (rec_at n 0, br_at n (0 + 1))
                 (key (rec_at n 0)) Hnewchain); [|apply strcmp_refl].
        apply elem_of_ins_at. apply (entry_at_in n 0). lia. }
      assert (Hcontents : (pre ++ lc1) ++ rec :: lc2 ++ rest =
                          pre ++ (lL ++ m :: lR) ++ rest).
      { rewrite <- Heq. now rewrite <- !app_assoc. }
      assert (Hs1' : forall t', file_ t' = file_ t1 -> session_ok fs1 t' f1)
        by (intros t' Ht'; eapply session_ok_same_file; [exact Ht'|exact Hs1]).
      destruct (count n <? MaxKeys) eqn:Hfull.
      * (* there is room in this node *)
        destruct (entries_addRecord m right n (loc + 1)
                    ltac:(lia) ltac:(lia) ltac:(lia)) as (He & Hb0 & Hc' & Hlr & Hlb).
        set (n' := addRecord m right n (loc + 1)) in *. clearbody n'.
        fold p in He.
        erewrite (writeNode_ok fs1 _ f1 id n'); [|apply Hs1'; reflexivity|lia].
        rewrite file_write_inside by exact Hidlt.
        eexists _, _, (<[Z.to_nat id := n']> f1), false, m, right.
        split; [reflexivity|].
        split; [apply (session_ok_write fs1 _ f1); apply Hs1'; reflexivity|].
        split; [rewrite length_insert; exact Hlen1|].
        split; [repeat split; assumption|].
        split; [simpl; rewrite Hfs1, Hsf; apply insert_insert_eq|].
        split; [now apply (frame_insert f f1 lo hi _ n)|].
        split; [rewrite length_insert; exact Hle1|].
        exists (pre ++ lc1), (lc2 ++ rest). split; [now rewrite <- !app_assoc|].
        rewrite Hcontents.
        exists n'. split; [exact Hid|].
        split; [now apply list_lookup_insert_eq|].
        split; [split; lia|]. split; [lia|]. split; [lia|].
        rewrite He, Hb0.
        apply (chain_update f1 _ (Z.to_nat id) n); auto.
        intros i x Hne Hx. now rewrite list_lookup_insert_ne by auto.
      * (* the node is full: split *)
        assert (Hfullc : count n = MaxKeys) by lia.
        rewrite split_unfold.
        erewrite (readNode_ok fs1 _ f1 id n); [|apply Hs1'; reflexivity|lia|exact Hn1].
        cbn [currentNode_ set_currentNode].
        destruct (split_nodes_spec n m right loc) as
          (L & R & m' & Hsplit & [HLr HLb] & [HRr HRb] & HcL & HcR & Hb0L & HeL & Hmid & HeR);
          [split; auto|lia|lia|].
        fold p in HeL, Hmid, HeR.
        set (es' := ins_at p (m, right) (entries n)) in *.
        rewrite Hsplit.
        erewrite (writeNode_ok fs1 _ f1 id L); [|apply Hs1'; reflexivity|lia].
        rewrite file_write_inside by exact Hidlt.
        cbn [numNodes_ set_numNodes set_currentNode file_ mode_ isOpen_ root_ numItems_
             currentNode_].
        set (f2 := <[Z.to_nat id := L]> f1).
        assert (Hlen2 : length f2 = length f1) by (subst f2; apply length_insert).
        erewrite (writeNode_ok _ _ f2 (numNodes_ t1 + 1) R);
          [|match goal with |- session_ok _ ?t0 _ =>
               apply (session_ok_write fs1 t0 f1 f2) end; apply Hs1'; reflexivity|lia].
        replace (Z.to_nat (numNodes_ t1 + 1)) with (length f2) by lia.
        rewrite file_write_end.
        eexists _, _, (f2 ++ [R]), true, m', (numNodes_ t1 + 1).
        split; [reflexivity|].
        split.
        { match goal with |- session_ok _ ?t0 _ =>
            apply (session_ok_write (<[path (file_ t1) := f2]> fs1) t0 f2);
            apply (session_ok_write fs1 t0 f1 f2) end.
          apply Hs1'. reflexivity. }
        split; [rewrite length_app; simpl; lia|].
        split; [repeat split; assumption|].
        split.
        { simpl. rewrite Hfs1, Hsf. now rewrite !insert_insert_eq. }
        split; [apply frame_app; now apply (frame_insert f f1 lo hi _ n)|].
        split; [rewrite length_app; simpl; lia|].
        assert (Hes' : es' = take (Z.to_nat MinKeys) es' ++
                             (m', br_at R 0) :: drop (S (Z.to_nat MinKeys)) es')
          by (symmetry; apply take_drop_middle; exact Hmid).
        rewrite Hes' in Hnewchain, Hout'.
        apply chain_app in Hnewchain.
        destruct Hnewchain as (lA & lB & HlAB & Hm' & HcA & HcB).
        apply outside_chain_app in Hout'. destruct Hout' as [HoA HoB].
        exists (pre ++ lc1), (lc2 ++ rest). split; [now rewrite <- !app_assoc|].
        rewrite Hcontents, HlAB.
        exists lA, lB. split; [reflexivity|]. split; [exact Hm'|].
        assert (Hsame3 : forall i x, i <> Z.to_nat id -> f1 !! i = Some x ->
                                     (f2 ++ [R]) !! i = Some x).
        { intros i x Hne Hx. apply lookup_app_l_Some. subst f2.
          now rewrite list_lookup_insert_ne by auto. }
        pose proof MinKeys_bounds as Hmb.
        split.
        -- exists L. split; [exact Hid|].
           split; [apply lookup_app_l_Some; now apply list_lookup_insert_eq|].
           split; [split; auto|]. split; [lia|]. split; [lia|].
           rewrite HeL, Hb0L.
           apply (chain_update f1 _ (Z.to_nat id) n); auto.
        -- exists R. split; [lia|].
           split.
           { replace (Z.to_nat (numNodes_ t1 + 1)) with (length f2) by lia.
             rewrite lookup_app_r by lia. now rewrite Nat.sub_diag. }
           split; [split; auto|]. split; [lia|]. split; [lia|].
           rewrite HeR.
           apply (chain_update f1 _ (Z.to_nat id) n); auto.
    + (* the child absorbed the record *)
      exists fs1, t1, f1, false, m, right.
      split; [reflexivity|]. split; [exact Hs1|]. split; [exact Hlen1|].
      split; [repeat split; assumption|]. split; [exact Hfs1|].
      split; [exact Hfr|]. split; [exact Hle1|].
      exists (pre ++ lc1), (lc2 ++ rest). split; [now rewrite <- !app_assoc|].
      exists n. split; [exact Hid|]. split; [exact Hn1|].
      split; [split; auto|]. split; [exact Hcnt|]. split; [exact Hc1|].
      rewrite <- (take_drop p (entries n)). apply chain_focus.
      exists pre, (lc1 ++ rec :: lc2), rest.
      split; [now rewrite <- !app_assoc|]. split; [exact Hpre1|].
      split; [|exact Hrest1].
      unfold p. rewrite last_br_search by lia. exact Hpost.
Qed.

(** *** [insert] in a write session *)

Lemma keeps_app f lo hi (x : Node) : keeps f (f ++ [x]) lo hi.
Proof. intros i n Hn _ _. now apply lookup_app_l_Some. Qed.

(** The record [insert] builds from its arguments. *)
Definition made_record (k : string) (d : list Byte.byte) : Rec :=
  mkRec (padKey k) (memcpy (repeat Byte.x00 (Z.to_nat DataSize)) d (Z.to_nat DataSize)).

Lemma insert_ok fuel fs t l k d :
  write_inv fs t l -> (length l < fuel)%nat ->
  (forall r, r ∈ l -> strcmp (padKey k) (key r) <> Eq) ->
  exists fs' t' l1 l2,
    insert fuel fs t k d = Some (Ok tt, fs', t') /\
    l = l1 ++ l2 /\
    write_inv fs' t' (l1 ++ made_record k d :: l2) /\
    file_ t' = file_ t /\
    (forall q, q <> path (file_ t) -> fs' !! q = fs !! q).
Proof.
  intros (Hopen & Hmode & f & h & Hs & Hlen & Hnn & Hni & Hsub) Hfuel Hnew.
  pose proof (subtree_height _ _ _ _ _ _ _ Hsub) as Hh.
  pose proof MinKeys_bounds as Hmb.
  unfold insert. rewrite Hopen, Hmode. simpl.
  fold (padKey k). fold (made_record k d).
  destruct (pushDown_ok h fuel fs t f 1 None None (root_ t) l (made_record k d)
              (false, Rec_new, NilPtr))
    as (fs1 & t1 & f1 & moveUp & m & right & Hpd & Hs1 & Hlen1 & Hsame1 & Hfs1 & Hfr1 & Hle1
        & l1 & l2 & -> & Hpost); auto; try lia; try (split; exact I).
  rewrite Hpd. destruct Hsame1 as (Hsf & Hsm & Hso & Hsr & Hsi).
  assert (Hother : forall f' q, q <> path (file_ t) ->
            (<[path (file_ t) := f']> fs) !! q = fs !! q).
  { intros f' q Hq. now rewrite lookup_insert_ne by auto. }
  destruct moveUp.
  - (* the tree grows a new root *)
    destruct Hpost as (lL & lR & Heq & Hm & HsL & HsR).
    set (newRoot := set_branches _ _).
    cbn [numNodes_ set_numNodes set_root root_].
    erewrite (writeNode_ok fs1 _ f1 (numNodes_ t1 + 1) newRoot);
      [|eapply session_ok_same_file; [|exact Hs1]; reflexivity|lia].
    replace (Z.to_nat (numNodes_ t1 + 1)) with (length f1) by lia.
    rewrite file_write_end.
    eexists _, _, l1, l2. split; [reflexivity|]. split; [reflexivity|].
    split; [|split; [simpl; exact Hsf|]].
    + split; [simpl; congruence|]. split; [simpl; congruence|].
      exists (f1 ++ [newRoot]), (S h).
      split.
      { match goal with |- session_ok _ ?t0 _ =>
          apply (session_ok_write fs1 t0 f1) end.
        eapply session_ok_same_file; [|exact Hs1]. reflexivity. }
      split; [simpl; rewrite length_app; simpl; lia|].
      split; [simpl; lia|].
      split; [simpl; rewrite Hsi, Hni, !length_app; simpl; lia|].
      rewrite Heq. cbn [root_ set_numItems set_root].
      destruct Node_new_shape as [Hnr Hnb]. destruct MaxKeys_int as [_ HM].
      pose proof Order_int as HO.
      assert (Hr0 : rec_at newRoot 0 = m).
      { unfold rec_at, newRoot. simpl. apply aget_aset_eq.
        unfold Node_new in Hnr. simpl in Hnr. lia. }
      assert (Hb1 : br_at newRoot 1 = right).
      { unfold br_at, newRoot. simpl. apply aget_aset_eq. rewrite length_aset.
        unfold Node_new in Hnb. simpl in Hnb. lia. }
      assert (Hb0 : br_at newRoot 0 = root_ t1).
      { unfold br_at, newRoot. simpl. rewrite aget_aset_ne by lia.
        apply aget_aset_eq. unfold Node_new in Hnb. simpl in Hnb. lia. }
      assert (Hcn : count newRoot = 1) by reflexivity.
      assert (Hshn : node_shape newRoot).
      { split; unfold newRoot; simpl; rewrite ?length_aset; [exact Hnr|exact Hnb]. }
      clearbody newRoot.
      exists newRoot. split; [lia|].
      split.
      { replace (Z.to_nat (numNodes_ t1 + 1)) with (length f1) by lia.
        rewrite lookup_app_r by lia. now rewrite Nat.sub_diag. }
      split; [exact Hshn|].
      split; [lia|]. split; [lia|].
      assert (He : entries newRoot = [(m, right)]).
      { unfold entries. rewrite Hcn.
        rewrite seqZ_cons by lia. rewrite seqZ_nil by lia.
        cbn [fmap list_fmap]. replace (0 + 1) with 1 by lia.
        now rewrite Hr0, Hb1. }
      rewrite He, Hb0, Hsr. simpl.
      exists lL, lR. split; [reflexivity|]. split; [exact Hm|].
      split; eapply subtree_keeps; eauto using keeps_app.
    + intros q Hq. simpl. rewrite Hsf. rewrite lookup_insert_ne by auto.
      rewrite Hfs1. now apply Hother.
  - eexists _, _, l1, l2. split; [reflexivity|]. split; [reflexivity|].
    split; [|split; [simpl; exact Hsf|]].
    + split; [simpl; congruence|]. split; [simpl; congruence|].
      exists f1, h. split; [eapply session_ok_same_file; [|exact Hs1]; reflexivity|].
      split; [exact Hlen1|]. split; [simpl; lia|].
      split; [simpl; rewrite Hsi, Hni, !length_app; simpl; lia|].
      simpl. rewrite Hsr. exact Hpost.
    + intros q Hq. rewrite Hfs1. now apply Hother.
Qed.

(** *** Searching a well-formed subtree *)

Lemma find_key_skip k l1 l2 :
  (forall r, r ∈ l1 -> strcmp k (key r) <> Eq) ->
  find_key k (l1 ++ l2) = find_key k l2.
Proof.
  induction l1 as [|x l1 IH]; intros H; simpl; [reflexivity|].
  unfold find_key in *. simpl.
  destruct (strcmp k (key x)) eqn:E.
  - exfalso. apply (H x); [left|exact E].
  - apply IH. intros r Hr. apply H. now right.
  - apply IH. intros r Hr. apply H. now right.
Qed.

Lemma find_key_absent k l :
  (forall r, r ∈ l -> strcmp k (key r) <> Eq) -> find_key k l = None.
Proof.
  induction l as [|x l IH]; intros H; [reflexivity|].
  unfold find_key in *. simpl. destruct (strcmp k (key x)) eqn:E.
  - exfalso. apply (H x); [left|exact E].
  - apply IH. intros r Hr. apply H. now right.
  - apply IH. intros r Hr. apply H. now right.
Qed.

Lemma find_key_stop k l1 l2 :
  (forall r, r ∈ l2 -> strcmp k (key r) <> Eq) ->
  find_key k (l1 ++ l2) = find_key k l1.
Proof.
  intros H. induction l1 as [|x l1 IH]; simpl.
  - now apply find_key_absent.
  - unfold find_key in *. simpl. destruct (strcmp k (key x)); auto.
Qed.

Lemma find_key_in k l r : find_key k l = Some r -> r ∈ l /\ strcmp k (key r) = Eq.
Proof.
  unfold find_key. intros H. apply find_some in H. destruct H as [H1 H2].
  split; [now apply list_elem_of_In|]. destruct (strcmp k (key r)); congruence.
Qed.

Lemma find_key_none k l : find_key k l = None ->
  forall r, r ∈ l -> strcmp k (key r) <> Eq.
Proof.
  unfold find_key. intros H r Hr E.
  apply list_elem_of_In in Hr.
  pose proof (find_none _ _ H r Hr) as Hf. simpl in Hf. now rewrite E in Hf.
Qed.

Lemma lt_not_eq_l a b k : strcmp a b = Lt -> strcmp k b = Eq -> strcmp k a <> Eq.
Proof.
  intros Hab Hkb Hka. rewrite <- (strcmp_eq_l _ _ _ Hka) in Hab. congruence.
Qed.

Lemma in_pre_not_eq (W : bound -> bound -> Z -> list Rec -> Prop) lo hi b0 es1 pre k :
  (forall lo hi b l, W lo hi b l -> Forall (fun r => in_range lo hi (key r)) l) ->
  chain_pre W lo hi b0 es1 pre -> lt_lo (last_lo lo es1) k ->
  forall r, r ∈ pre -> strcmp k (key r) <> Eq.
Proof.
  intros HW Hpre Hk r Hr E.
  pose proof (chain_pre_below W lo hi b0 es1 pre HW Hpre r k Hr Hk) as Hlt.
  rewrite strcmp_antisym, E in Hlt. discriminate.
Qed.

Lemma in_rest_not_eq (W : bound -> bound -> Z -> list Rec -> Prop) lo hi es2 rest k :
  (forall lo hi b l, W lo hi b l -> Forall (fun r => in_range lo hi (key r)) l) ->
  chain_rest W lo hi es2 rest -> lt_hi k (hd_hi es2 hi) ->
  forall r, r ∈ rest -> strcmp k (key r) <> Eq.
Proof.
  intros HW Hrest Hk r Hr E.
  pose proof (chain_rest_above W lo hi es2 rest HW Hrest r k Hr Hk) as Hlt.
  congruence.
Qed.

(** A hit inside a node: the record found is the one [find_key] names. *)
Lemma find_key_hit f h lo hi n l loc k :
  chain (subtree f h MinKeys) lo hi (br_at n 0) (entries n) l ->
  0 <= loc < count n -> strcmp k (key (rec_at n loc)) = Eq ->
  find_key k l = Some (rec_at n loc).
Proof.
  intros Hch Hloc Heq.
  assert (Hl : entries n !! Z.to_nat loc = Some (rec_at n loc, br_at n (loc + 1))).
  { rewrite entries_lookup. case_decide; [|lia]. idx_eq. }
  rewrite <- (take_drop_middle _ _ _ Hl) in Hch.
  apply chain_app in Hch. destruct Hch as (l1 & l2 & -> & Hr & Hc1 & Hc2).
  rewrite find_key_skip.
  - unfold find_key. simpl. now rewrite Heq.
  - intros r Hin.
    pose proof (chain_range _ (fun lo hi b l => subtree_range f h MinKeys lo hi b l)
                  _ _ _ _ _ Hc1) as Hall.
    rewrite Forall_forall in Hall. destruct (Hall _ Hin) as [_ Hlt]. simpl in Hlt.
    eapply lt_not_eq_l; eauto.
Qed.

(** The session after a call that only used the working buffer. *)
Definition same_but_buffer (t t' : BTree) : Prop :=
  same_session t t' /\ numNodes_ t' = numNodes_ t.

Lemma retrieve_walk_ok h : forall fuel fs t f minc lo hi id l k,
  (h < fuel)%nat -> session_ok fs t f ->
  subtree f h minc lo hi id l -> in_range lo hi k ->
  exists t',
    retrieve_walk fuel fs t k id =
      Some (option_map (fun r => take (Z.to_nat DataSize) (data r)) (find_key k l), t') /\
    same_but_buffer t t'.
Proof.
  induction h as [|h IH]; intros fuel fs t f minc lo hi id l k Hfuel Hs Hsub Hin.
  - destruct Hsub as [-> ->]. destruct fuel as [|fuel]; [lia|]. simpl.
    exists t. split; [reflexivity|]. repeat split.
  - destruct Hsub as (n & Hid & Hn & Hsh & Hcnt & Hc1 & Hch).
    destruct fuel as [|fuel]; [lia|]. cbn [retrieve_walk].
    replace (id =? NilPtr) with false by (unfold NilPtr; lia).
    rewrite (readNode_ok fs t f id n Hs ltac:(lia) Hn).
    destruct (searchNode_spec (set_currentNode t n) k)
      as (found & loc & Hsearch & Hloc & Hfound & Hnf); [simpl; lia|].
    simpl in Hloc, Hfound, Hnf. rewrite Hsearch.
    destruct found.
    + destruct Hfound as [Hl0 Heq]; auto.
      rewrite (find_key_hit f h lo hi n l loc k Hch ltac:(lia) Heq).
      eexists. split; [reflexivity|]. repeat split.
    + destruct Hnf as [Hbelow Habove]; auto.
      cbn [currentNode_ set_currentNode].
      set (p := Z.to_nat (loc + 1)).
      rewrite <- (take_drop p (entries n)) in Hch.
      apply chain_focus in Hch. destruct Hch as (pre & lC & rest & -> & Hpre & HW & Hrest).
      unfold p in HW. rewrite last_br_search in HW by lia. fold p in HW.
      pose proof (search_gap lo hi n loc k ltac:(lia) Hin Hbelow Habove) as Hgap.
      fold p in Hgap.
      destruct (IH fuel fs (set_currentNode t n) f MinKeys _ _ _ lC k
                  ltac:(lia) ltac:(exact Hs) HW Hgap) as (t' & Hrw & Hsame).
      rewrite Hrw. exists t'. split; [|exact Hsame].
      rewrite find_key_skip, find_key_stop; [reflexivity| |].
      * eapply in_rest_not_eq; [|exact Hrest|apply Hgap].
        intros lo0 hi0 b l0. apply subtree_range.
      * eapply in_pre_not_eq; [|exact Hpre|apply Hgap].
        intros lo0 hi0 b l0. apply subtree_range.
Qed.

(** A key already in the subtree makes [pushDown] throw before it writes
    anything. *)
Lemma pushDown_dup h : forall fuel fs t f minc lo hi id l rec out,
  (h < fuel)%nat -> session_ok fs t f ->
  subtree f h minc lo hi id l -> in_range lo hi (key rec) ->
  (exists r, r ∈ l /\ strcmp (key rec) (key r) = Eq) ->
  exists t',
    pushDown fuel fs t rec id out = Some (Throw DuplicateKey, fs, t') /\
    same_but_buffer t t'.
Proof.
  induction h as [|h IH]; intros fuel fs t f minc lo hi id l rec out Hfuel Hs Hsub Hin Hdup.
  - destruct Hsub as [-> ->]. destruct Hdup as (r & Hr & _). inversion Hr.
  - destruct Hsub as (n & Hid & Hn & Hsh & Hcnt & Hc1 & Hch).
    destruct fuel as [|fuel]; [lia|]. cbn [pushDown].
    replace (id =? NilPtr) with false by (unfold NilPtr; lia).
    rewrite (readNode_ok fs t f id n Hs ltac:(lia) Hn).
    destruct (searchNode_spec (set_currentNode t n) (key rec))
      as (found & loc & Hsearch & Hloc & Hfound & Hnf); [simpl; lia|].
    simpl in Hloc, Hfound, Hnf. rewrite Hsearch.
    destruct found.
    + eexists. split; [reflexivity|]. repeat split.
    + destruct Hnf as [Hbelow Habove]; auto.
      cbn [currentNode_ set_currentNode].
      set (p := Z.to_nat (loc + 1)).
      rewrite <- (take_drop p (entries n)) in Hch.
      apply chain_focus in Hch. destruct Hch as (pre & lC & rest & -> & Hpre & HW & Hrest).
      unfold p in HW. rewrite last_br_search in HW by lia. fold p in HW.
      pose proof (search_gap lo hi n loc (key rec) ltac:(lia) Hin Hbelow Habove) as Hgap.
      fold p in Hgap.
      destruct Hdup as (r & Hr & Heq).
      assert (HrC : r ∈ lC).
      { apply elem_of_app in Hr. destruct Hr as [Hr|Hr].
        - exfalso. eapply in_pre_not_eq; [|exact Hpre|apply Hgap|exact Hr|exact Heq].
          intros lo0 hi0 b l0. apply subtree_range.
        - apply elem_of_app in Hr. destruct Hr as [Hr|Hr]; [exact Hr|].
          exfalso. eapply in_rest_not_eq; [|exact Hrest|apply Hgap|exact Hr|exact Heq].
          intros lo0 hi0 b l0. apply subtree_range. }
      destruct (IH fuel fs (set_currentNode t n) f MinKeys _ _ _ lC rec out
                  ltac:(lia) ltac:(exact Hs) HW Hgap) as (t' & Hpd & Hsame); [eauto|].
      rewrite Hpd. exists t'. split; [reflexivity|exact Hsame].
Qed.

(** *** Sessions *)

(** The key as the tree compares it: the first [KeySize - 1] characters of
    the C string. *)
Definition truncated (k : string) : string :=
  prefix_n (Z.to_nat KeySize - 1) (cstr k).

Lemma cstr_padKey k : cstr (padKey k) = truncated k.
Proof.
  unfold padKey, truncated. rewrite KeySize_pred.
  apply cstr_strncpy_zeros. destruct Hcfg as (HK & _). lia.
Qed.

Lemma padKey_eq_iff k k' :
  strcmp (padKey k) (padKey k') = Eq <-> truncated k = truncated k'.
Proof. now rewrite strcmp_eq, !cstr_padKey. Qed.

(** What [writeMetadata] writes. *)
Definition header (t : BTree) : Node :=
  set_branches
    (set_branches
       (set_branches Node_new (aset (branches Node_new) 0 (numItems_ t)))
       (aset (aset (branches Node_new) 0 (numItems_ t)) 1 (numNodes_ t)))
    (aset (aset (aset (branches Node_new) 0 (numItems_ t)) 1 (numNodes_ t)) 2 (root_ t)).

Lemma writeMetadata_eq fs t : writeMetadata fs t = writeNode fs t 0 (header t).
Proof. reflexivity. Qed.

Lemma header_slots t :
  br_at (header t) 0 = numItems_ t /\ br_at (header t) 1 = numNodes_ t /\
  br_at (header t) 2 = root_ t /\ count (header t) = 0.
Proof.
  pose proof Order_int as HO.
  assert (Hl : Z.of_nat (length (branches Node_new)) = Order)
    by (simpl; rewrite repeat_length; lia).
  unfold br_at, header. simpl. repeat split.
  - rewrite !aget_aset_ne by lia. apply aget_aset_eq.
    simpl in Hl. lia.
  - rewrite aget_aset_ne by lia. apply aget_aset_eq. rewrite length_aset.
    simpl in Hl. lia.
  - apply aget_aset_eq. rewrite !length_aset. simpl in Hl. lia.
Qed.

(** A file that holds a finished tree with the records [l]: the header in
    block 0 names the counters and the root. *)
Definition stored_tree (f : File) (l : list Rec) : Prop :=
  exists hdr h, f !! 0%nat = Some hdr /\
    br_at hdr 0 = Z.of_nat (length l) /\
    br_at hdr 1 = Z.of_nat (length f) - 1 /\
    subtree f h 1 None None (br_at hdr 2) l.

Lemma subtree_ext_pos f f' h : forall minc lo hi id l,
  (forall i, (1 <= i)%nat -> f' !! i = f !! i) ->
  subtree f h minc lo hi id l -> subtree f' h minc lo hi id l.
Proof.
  induction h as [|h IH]; intros minc lo hi id l Hext; simpl; [auto|].
  intros (n & Hid & Hn & Hsh & Hcnt & Hc1 & Hch).
  exists n. split; [exact Hid|]. split; [rewrite Hext by lia; exact Hn|].
  split; [exact Hsh|]. split; [exact Hcnt|]. split; [exact Hc1|].
  eapply chain_mono; [|exact Hch]. intros lo' hi' b l' _. now apply IH.
Qed.

Lemma open_write_ok fs t name :
  creatable name = true ->
  exists fs' t', open fs t name Write = (true, fs', t') /\
    write_inv fs' t' [] /\ path (file_ t') = name /\
    forall q, q <> name -> fs' !! q = (close fs t).1 !! q.
Proof.
  intros Hcr. unfold open. rewrite Hcr. destruct (close fs t) as [fs0 t0]. simpl.
  rewrite writeMetadata_eq.
  set (t1 := set_numNodes _ _).
  assert (Hs : session_ok (<[name := []]> fs0) t1 []).
  { repeat split. simpl. apply lookup_insert_eq. }
  rewrite (writeNode_ok _ t1 [] 0 (header t1) Hs ltac:(lia)).
  eexists _, _. split; [reflexivity|]. split; [|split; [reflexivity|]].
  - split; [reflexivity|]. split; [reflexivity|].
    exists [header t1], 0%nat. split.
    { match goal with |- session_ok _ ?t0 _ =>
        apply (session_ok_write (<[name := []]> fs0) t0 []) end. exact Hs. }
    simpl. repeat split; lia.
  - intros q Hq. simpl. now rewrite !lookup_insert_ne by auto.
Qed.

Lemma close_write_ok fs t l :
  write_inv fs t l ->
  exists fs' t' f', close fs t = (fs', t') /\
    fs' !! path (file_ t) = Some f' /\ stored_tree f' l /\
    Z.of_nat (length f') = numNodes_ t + 1 /\
    isOpen_ t' = false /\
    (forall q, q <> path (file_ t) -> fs' !! q = fs !! q).
Proof.
  intros (Hopen & Hmode & f & h & Hs & Hlen & Hnn & Hni & Hsub).
  unfold close. rewrite Hopen, Hmode. simpl.
  rewrite writeMetadata_eq, (writeNode_ok fs t f 0 (header t) Hs ltac:(lia)).
  rewrite file_write_inside by lia.
  destruct (header_slots t) as (H0 & H1 & H2 & _).
  eexists _, _, (<[0%nat := header t]> f). split; [reflexivity|].
  split; [apply lookup_insert_eq|].
  split; [|split; [rewrite length_insert; exact Hlen|split; [reflexivity|]]].
  - exists (header t), h. split; [apply list_lookup_insert_eq; lia|].
    rewrite H0, H1, H2, length_insert. repeat split; try lia.
    eapply subtree_ext_pos; [|exact Hsub].
    intros i Hi. apply list_lookup_insert_ne. lia.
  - intros q Hq. now rewrite lookup_insert_ne by auto.
Qed.

Lemma close_closed fs t : isOpen_ t = false -> close fs t = (fs, t).
Proof. intros H. unfold close. now rewrite H. Qed.

Lemma open_read_ok fs t name f l :
  isOpen_ t = false -> fs !! name = Some f -> stored_tree f l ->
  exists t', open fs t name Read = (true, fs, t') /\ read_inv fs t' l.
Proof.
  intros Hclosed Hf (hdr & h & Hhdr & H0 & H1 & Hsub).
  unfold open. rewrite (close_closed fs t Hclosed). simpl. rewrite Hf.
  set (t1 := set_file _ _).
  assert (Hs : session_ok fs t1 f) by (repeat split; exact Hf).
  rewrite (readNode_ok fs t1 f 0 hdr Hs ltac:(lia) Hhdr). simpl.
  eexists. split; [reflexivity|].
  split; [reflexivity|]. split; [reflexivity|].
  exists f, h. split; [exact Hs|]. split; [exact H0|exact Hsub].
Qed.

(** Both kinds of session have an open stream on a well-formed tree. *)
Definition tree_inv (fs : FS) (t : BTree) (l : list Rec) : Prop :=
  isOpen_ t = true /\
  exists f h, session_ok fs t f /\ subtree f h 1 None None (root_ t) l.

Lemma write_inv_tree fs t l : write_inv fs t l -> tree_inv fs t l.
Proof.
  intros (Hopen & _ & f & h & Hs & _ & _ & _ & Hsub). split; eauto.
Qed.

Lemma read_inv_tree fs t l : read_inv fs t l -> tree_inv fs t l.
Proof.
  intros (Hopen & _ & f & h & Hs & _ & Hsub). split; eauto.
Qed.

Lemma write_inv_buffer fs t t' l :
  same_but_buffer t t' -> write_inv fs t l -> write_inv fs t' l.
Proof.
  intros [(Hf & Hm & Ho & Hr & Hi) Hn] (Hopen & Hmode & f & h & Hs & Hlen & Hnn & Hni & Hsub).
  split; [congruence|]. split; [congruence|].
  exists f, h. split; [eapply session_ok_same_file; eauto|].
  rewrite Hn, Hi, Hr. auto.
Qed.

(** The payload [retrieve] copies out of a record. *)
Definition payload (r : Rec) : list Byte.byte := take (Z.to_nat DataSize) (data r).

Lemma retrieve_ok fuel fs t l k :
  tree_inv fs t l -> (length l < fuel)%nat ->
  exists t', retrieve fuel fs t k =
               Some (Ok (option_map payload (find_key (padKey k) l)), t') /\
             same_but_buffer t t'.
Proof.
  intros (Hopen & f & h & Hs & Hsub) Hfuel.
  pose proof (subtree_height _ _ _ _ _ _ _ Hsub) as Hh.
  unfold retrieve. rewrite Hopen. simpl.
  destruct (retrieve_walk_ok h fuel fs t f 1 None None (root_ t) l (padKey k))
    as (t' & Hw & Hsame); auto; try lia; try (split; exact I).
  rewrite Hw. eauto.
Qed.

Lemma insert_dup fuel fs t l k d r :
  write_inv fs t l -> (length l < fuel)%nat ->
  find_key (padKey k) l = Some r ->
  exists t', insert fuel fs t k d = Some (Throw DuplicateKey, fs, t') /\
             same_but_buffer t t'.
Proof.
  intros (Hopen & Hmode & f & h & Hs & Hlen & Hnn & Hni & Hsub) Hfuel Hfind.
  pose proof (subtree_height _ _ _ _ _ _ _ Hsub) as Hh.
  apply find_key_in in Hfind. destruct Hfind as [Hr Heq].
  unfold insert. rewrite Hopen, Hmode. simpl. fold (padKey k). fold (made_record k d).
  destruct (pushDown_dup h fuel fs t f 1 None None (root_ t) l (made_record k d)
              (false, Rec_new, NilPtr))
    as (t' & Hpd & Hsame); auto; try lia; try (split; exact I).
  { exists r. split; [exact Hr|exact Heq]. }
  rewrite Hpd. eauto.
Qed.

(** *** Clients *)

(** A caller that inserts the pairs of [ops] in order and stops at the
    first exception. *)
Fixpoint insert_all (fuel : nat) (fs : FS) (t : BTree)
  (ops : list (string * list Byte.byte)) : option (result unit * FS * BTree) :=
  match ops with
  | [] => Some (Ok tt, fs, t)
  | (k, d) :: ops' =>
      match insert fuel fs t k d with
      | Some (Ok _, fs, t) => insert_all fuel fs t ops'
      | r => r
      end
  end.

(** The calls a client can make on an open tree. *)
Inductive call :=
| Insert (k : string) (d : list Byte.byte)
| Retrieve (k : string)
| Contains (k : string).

(** A caller that makes the calls in order, catching what they throw. *)
Fixpoint run (fuel : nat) (fs : FS) (t : BTree) (calls : list call)
  : option (FS * BTree) :=
  match calls with
  | [] => Some (fs, t)
  | Insert k d :: cs =>
      match insert fuel fs t k d with
      | None => None
      | Some (_, fs, t) => run fuel fs t cs
      end
  | Retrieve k :: cs =>
      match retrieve fuel fs t k with
      | None => None
      | Some (_, t) => run fuel fs t cs
      end
  | Contains k :: cs =>
      match contains fuel fs t k with
      | None => None
      | Some (_, t) => run fuel fs t cs
      end
  end.

Definition records_of (ops : list (string * list Byte.byte)) : list Rec :=
  (fun op => made_record op.1 op.2) <$> ops.

Lemma insert_all_ok fuel ops : forall fs t l,
  write_inv fs t l -> (length l + length ops < fuel)%nat ->
  NoDup ((fun op => truncated op.1) <$> ops) ->
  (forall r op, r ∈ l -> op ∈ ops -> strcmp (padKey op.1) (key r) <> Eq) ->
  exists fs' t' l',
    insert_all fuel fs t ops = Some (Ok tt, fs', t') /\
    write_inv fs' t' l' /\ l' ≡ₚ l ++ records_of ops /\
    file_ t' = file_ t /\
    (forall q, q <> path (file_ t) -> fs' !! q = fs !! q).
Proof.
  induction ops as [|[k d] ops IH]; intros fs t l Hinv Hfuel Hnd Hfresh.
  - exists fs, t, l. simpl. rewrite app_nil_r. auto.
  - simpl in Hfuel. rewrite fmap_cons in Hnd.
    apply NoDup_cons in Hnd. destruct Hnd as [Hk Hnd].
    destruct (insert_ok fuel fs t l k d Hinv ltac:(lia))
      as (fs1 & t1 & l1 & l2 & Hins & -> & Hinv1 & Hf1 & Hq1).
    { intros r Hr. apply (Hfresh r (k, d)); [exact Hr|left]. }
    destruct (IH fs1 t1 (l1 ++ made_record k d :: l2) Hinv1)
      as (fs' & t' & l' & Hall & Hinv' & Hperm & Hf' & Hq'); auto.
    { rewrite length_app in *. simpl. lia. }
    { intros r op Hr Hop.
      apply elem_of_app in Hr. destruct Hr as [Hr|Hr];
        [|apply elem_of_cons in Hr; destruct Hr as [->|Hr]].
      - apply Hfresh; [apply elem_of_app; now left|now right].
      - simpl. intros E. apply padKey_eq_iff in E. apply Hk.
        apply list_elem_of_fmap. exists op. split; [now rewrite E|exact Hop].
      - apply Hfresh; [apply elem_of_app; now right|now right]. }
    exists fs', t', l'. cbn [insert_all]. rewrite Hins.
    split; [exact Hall|]. split; [exact Hinv'|].
    split.
    { rewrite Hperm. unfold records_of. rewrite fmap_cons.
      cbn [fst snd].
      rewrite <- (Permutation_middle (l1 ++ l2)).
      rewrite <- (Permutation_middle l1 l2). reflexivity. }
    split; [congruence|].
    intros q Hq. rewrite Hq' by congruence. now apply Hq1.
Qed.

Lemma NoDup_fmap_eq {A B} (g : A -> B) (l : list A) x y :
  NoDup (g <$> l) -> x ∈ l -> y ∈ l -> g x = g y -> x = y.
Proof.
  induction l as [|a l IH]; intros Hnd Hx Hy Hg; [inversion Hx|].
  rewrite fmap_cons in Hnd. apply NoDup_cons in Hnd. destruct Hnd as [Ha Hnd].
  apply elem_of_cons in Hx. apply elem_of_cons in Hy.
  destruct Hx as [->|Hx], Hy as [->|Hy]; auto.
  - exfalso. apply Ha. rewrite Hg. apply list_elem_of_fmap. eauto.
  - exfalso. apply Ha. rewrite <- Hg. apply list_elem_of_fmap. eauto.
Qed.

Lemma payload_made_record k d :
  length d = Z.to_nat DataSize -> payload (made_record k d) = d.
Proof.
  intros H. unfold payload, made_record, memcpy. simpl.
  rewrite take_app_le by (rewrite length_take; lia).
  rewrite take_take. rewrite Nat.min_id. apply take_ge. lia.
Qed.

(** What [retrieve] finds among records made from distinct keys. *)
Lemma find_key_records ops l k :
  NoDup ((fun op => truncated op.1) <$> ops) -> l ≡ₚ records_of ops ->
  (forall d, (k, d) ∈ ops -> find_key (padKey k) l = Some (made_record k d)) /\
  (truncated k ∉ (fun op => truncated op.1) <$> ops -> find_key (padKey k) l = None).
Proof.
  intros Hnd Hperm.
  assert (Hin : forall r, r ∈ l <-> exists op, op ∈ ops /\ r = made_record op.1 op.2).
  { intros r. rewrite Hperm. unfold records_of. rewrite list_elem_of_fmap.
    split; intros (op & H1 & H2); exists op; auto. }
  split.
  - intros d Hd.
    destruct (find_key (padKey k) l) as [r|] eqn:E.
    + apply find_key_in in E. destruct E as [Hr Heq].
      apply Hin in Hr. destruct Hr as ([k' d'] & Hop & ->). simpl in Heq.
      apply padKey_eq_iff in Heq.
      assert (Hsame : (k, d) = (k', d'))
        by (eapply (NoDup_fmap_eq (fun op => truncated op.1)); eauto).
      now injection Hsame as <- <-.
    + exfalso. apply (find_key_none _ _ E (made_record k d)).
      * apply Hin. exists (k, d). auto.
      * apply strcmp_refl.
  - intros Hk. apply find_key_absent. intros r Hr Heq.
    apply Hin in Hr. destruct Hr as ([k' d'] & Hop & ->). simpl in Heq.
    apply padKey_eq_iff in Heq. apply Hk.
    apply list_elem_of_fmap. exists (k', d'). auto.
Qed.

(** ** The properties of the specification *)

(** C1.  Insert any pairs whose keys are pairwise distinct after
    truncation (payloads of [DataSize] bytes) into a freshly opened write
    session, close it and open the same file for reading: every inserted key
    is retrieved with exactly its payload, and a key whose truncation was not
    inserted is not found.  All calls return, given fuel beyond the number
    of pairs. *)
Theorem insert_close_reopen_retrieve
  (fs0 : FS) (t0 : BTree) (name : string) (ops : list (string * list Byte.byte))
  (fuel : nat) :
  creatable name = true ->
  NoDup ((fun op => truncated op.1) <$> ops) ->
  Forall (fun op => length op.2 = Z.to_nat DataSize) ops ->
  (length ops < fuel)%nat ->
  exists fs1 t1 fs2 t2 fs3 t3 t4,
    open fs0 t0 name Write = (true, fs1, t1) /\
    insert_all fuel fs1 t1 ops = Some (Ok tt, fs2, t2) /\
    close fs2 t2 = (fs3, t3) /\
    open fs3 t3 name Read = (true, fs3, t4) /\
    (forall k d, (k, d) ∈ ops ->
       exists t5, retrieve fuel fs3 t4 k = Some (Ok (Some d), t5)) /\
    (forall k, truncated k ∉ (fun op => truncated op.1) <$> ops ->
       exists t5, retrieve fuel fs3 t4 k = Some (Ok None, t5)).
Proof.
  intros Hcr Hnd Hlen Hfuel.
  destruct (open_write_ok fs0 t0 name Hcr) as (fs1 & t1 & Hopen & Hinv1 & Hname & _).
  destruct (insert_all_ok fuel ops fs1 t1 [] Hinv1 ltac:(simpl; lia) Hnd)
    as (fs2 & t2 & l & Hall & Hinv2 & Hperm & Hfile & _).
  { intros r op Hr. inversion Hr. }
  simpl in Hperm.
  destruct (close_write_ok fs2 t2 l Hinv2)
    as (fs3 & t3 & f & Hclose & Hf & Hstored & _ & Hclosed & _).
  rewrite Hfile, Hname in Hf.
  destruct (open_read_ok fs3 t3 name f l Hclosed Hf Hstored) as (t4 & Hopen4 & Hinv4).
  exists fs1, t1, fs2, t2, fs3, t3, t4.
  split; [exact Hopen|]. split; [exact Hall|]. split; [exact Hclose|].
  split; [exact Hopen4|].
  assert (Hl : (length l < fuel)%nat).
  { rewrite Hperm. unfold records_of. rewrite length_fmap. exact Hfuel. }
  split.
  - intros k d Hkd.
    destruct (retrieve_ok fuel fs3 t4 l k (read_inv_tree _ _ _ Hinv4) Hl)
      as (t5 & Hr & _).
    destruct (find_key_records ops l k Hnd Hperm) as [Hhit _].
    rewrite (Hhit d Hkd) in Hr. simpl in Hr.
    rewrite payload_made_record in Hr.
    + eauto.
    + rewrite Forall_forall in Hlen. apply (Hlen (k, d) Hkd).
  - intros k Hk.
    destruct (retrieve_ok fuel fs3 t4 l k (read_inv_tree _ _ _ Hinv4) Hl)
      as (t5 & Hr & _).
    destruct (find_key_records ops l k Hnd Hperm) as [_ Hmiss].
    rewrite (Hmiss Hk) in Hr. eauto.
Qed.

(** Whatever calls a client makes on a write session, the tree stays
    well-formed and every key it tried to insert is in it. *)
Lemma run_inv fuel calls : forall fs t l,
  write_inv fs t l -> (length l + length calls < fuel)%nat ->
  exists fs' t' l',
    run fuel fs t calls = Some (fs', t') /\ write_inv fs' t' l' /\
    (length l' <= length l + length calls)%nat /\
    file_ t' = file_ t /\
    (forall r, r ∈ l -> r ∈ l') /\
    (forall k d, Insert k d ∈ calls ->
       exists r, r ∈ l' /\ strcmp (padKey k) (key r) = Eq).
Proof.
  induction calls as [|c calls IH]; intros fs t l Hinv Hfuel.
  - exists fs, t, l. simpl. split; [reflexivity|]. split; [exact Hinv|].
    split; [lia|]. split; [reflexivity|]. split; [auto|].
    intros k d H. inversion H.
  - simpl in Hfuel.
    assert (Hstep : exists fs1 t1 l1,
      (forall cs, run fuel fs t (c :: cs) = run fuel fs1 t1 cs) /\
      write_inv fs1 t1 l1 /\ (length l1 <= S (length l))%nat /\
      file_ t1 = file_ t /\ (forall r, r ∈ l -> r ∈ l1) /\
      (forall k d, c = Insert k d ->
         exists r, r ∈ l1 /\ strcmp (padKey k) (key r) = Eq)).
    { destruct c as [k d|k|k].
      - destruct (find_key (padKey k) l) as [r|] eqn:E.
        + destruct (insert_dup fuel fs t l k d r Hinv ltac:(lia) E) as (t1 & Hi & Hsame).
          exists fs, t1, l. split; [intros cs; simpl; now rewrite Hi|].
          split; [eapply write_inv_buffer; eauto|]. split; [lia|].
          split; [apply Hsame|]. split; [auto|].
          intros k' d' [= <- <-]. apply find_key_in in E. eauto.
        + destruct (insert_ok fuel fs t l k d Hinv ltac:(lia) (find_key_none _ _ E))
            as (fs1 & t1 & l1 & l2 & Hi & -> & Hinv1 & Hf1 & _).
          exists fs1, t1, (l1 ++ made_record k d :: l2).
          split; [intros cs; simpl; now rewrite Hi|].
          split; [exact Hinv1|].
          split; [rewrite !length_app; simpl; lia|].
          split; [exact Hf1|]. split.
          * intros r Hr. apply elem_of_app in Hr. apply elem_of_app.
            destruct Hr; [now left|right; now right].
          * intros k' d' [= <- <-]. exists (made_record k d).
            split; [apply elem_of_app; right; left|apply strcmp_refl].
      - destruct (retrieve_ok fuel fs t l k (write_inv_tree _ _ _ Hinv) ltac:(lia))
          as (t1 & Hr & Hsame).
        exists fs, t1, l. split; [intros cs; simpl; now rewrite Hr|].
        split; [eapply write_inv_buffer; eauto|]. split; [lia|].
        split; [apply Hsame|]. split; [auto|]. intros k' d' [=].
      - destruct (retrieve_ok fuel fs t l k (write_inv_tree _ _ _ Hinv) ltac:(lia))
          as (t1 & Hr & Hsame).
        exists fs, t1, l.
        split; [intros cs; simpl; unfold contains; now rewrite Hr|].
        split; [eapply write_inv_buffer; eauto|]. split; [lia|].
        split; [apply Hsame|]. split; [auto|]. intros k' d' [=]. }
    destruct Hstep as (fs1 & t1 & l1 & Hrun & Hinv1 & Hlen1 & Hf1 & Hsub1 & Hins1).
    destruct (IH fs1 t1 l1 Hinv1 ltac:(lia))
      as (fs' & t' & l' & Hrun' & Hinv' & Hlen' & Hf' & Hsub' & Hins').
    exists fs', t', l'. rewrite Hrun. split; [exact Hrun'|]. split; [exact Hinv'|].
    split; [simpl; lia|]. split; [congruence|]. split; [auto|].
    intros k d Hkd. apply elem_of_cons in Hkd. destruct Hkd as [Hc|Hkd].
    + destruct (Hins1 k d (eq_sym Hc)) as (r & Hr & Heq). eauto.
    + eauto.
Qed.

(** C3.  In a write session, after any calls, inserting a key that is
    already in the tree (a key some earlier call tried to insert, or one
    that [retrieve] finds) throws DuplicateKey; the call leaves the whole
    file system, hence every block of the index file, and [size()] as they
    were. *)
Theorem duplicate_insert_rejected
  (fs0 : FS) (t0 : BTree) (name : string) (calls : list call) (fuel : nat) :
  creatable name = true ->
  (length calls < fuel)%nat ->
  exists fs1 t1 fs t,
    open fs0 t0 name Write = (true, fs1, t1) /\
    run fuel fs1 t1 calls = Some (fs, t) /\
    (forall k0 d0 k d, Insert k0 d0 ∈ calls -> truncated k = truncated k0 ->
       exists t', insert fuel fs t k d = Some (Throw DuplicateKey, fs, t') /\
                  size t' = size t) /\
    (forall k d v t1', retrieve fuel fs t k = Some (Ok (Some v), t1') ->
       exists t', insert fuel fs t k d = Some (Throw DuplicateKey, fs, t') /\
                  size t' = size t).
Proof.
  intros Hcr Hfuel.
  destruct (open_write_ok fs0 t0 name Hcr) as (fs1 & t1 & Hopen & Hinv1 & _).
  destruct (run_inv fuel calls fs1 t1 [] Hinv1 ltac:(simpl; lia))
    as (fs & t & l & Hrun & Hinv & Hlen & _ & _ & Hins).
  simpl in Hlen.
  exists fs1, t1, fs, t. split; [exact Hopen|]. split; [exact Hrun|].
  assert (Hdup : forall k d r, r ∈ l -> strcmp (padKey k) (key r) = Eq ->
            exists t', insert fuel fs t k d = Some (Throw DuplicateKey, fs, t') /\
                       size t' = size t).
  { intros k d r Hr Heq.
    destruct (find_key (padKey k) l) as [r'|] eqn:E.
    - destruct (insert_dup fuel fs t l k d r' Hinv ltac:(lia) E) as (t' & Hi & Hsame).
      exists t'. split; [exact Hi|]. apply Hsame.
    - exfalso. exact (find_key_none _ _ E r Hr Heq). }
  split.
  - intros k0 d0 k d Hin Htr.
    destruct (Hins k0 d0 Hin) as (r & Hr & Heq).
    apply (Hdup k d r Hr).
    rewrite <- Heq. apply strcmp_eq_l. now apply padKey_eq_iff.
  - intros k d v t1' Hret.
    destruct (retrieve_ok fuel fs t l k (write_inv_tree _ _ _ Hinv) ltac:(lia))
      as (t2 & Hr & _).
    rewrite Hr in Hret. injection Hret as Hv _.
    destruct (find_key (padKey k) l) as [r|] eqn:E; [|discriminate].
    apply find_key_in in E. destruct E as [Hr' Heq]. eauto.
Qed.

Lemma open_read_mode fs0 t0 name b fs t :
  open fs0 t0 name Read = (b, fs, t) -> mode_ t = Read.
Proof using.
  unfold open. destruct (close fs0 t0) as [fs1 t1]. simpl.
  destruct (fs1 !! name); [|intros [= <- <- <-]; reflexivity].
  destruct (readNode fs1 _ 0) as [ok t2] eqn:E.
  assert (Hm : mode_ t2 = Read).
  { unfold readNode in E. destruct (stream_read _ _ _ _); injection E as <- <-; reflexivity. }
  destruct ok; simpl; intros [= <- <- <-]; exact Hm.
Qed.

(** C7.  In a session opened in read mode, [insert] throws NotWritable
    and leaves the file system, hence the index file, and the session as
    they were. *)
Theorem insert_in_read_session_rejected
  (fs0 : FS) (t0 : BTree) (name : string) (b : bool) (fs : FS) (t : BTree)
  (fuel : nat) (k : string) (d : list Byte.byte) :
  open fs0 t0 name Read = (b, fs, t) ->
  insert fuel fs t k d = Some (Throw NotWritable, fs, t).
Proof using.
  intros Hopen. apply open_read_mode in Hopen.
  unfold insert. rewrite Hopen. simpl. now rewrite orb_true_r.
Qed.

(** C9.  [retrieve] and [contains] never end in an exception: on a
    session that is not open they answer "not found"; a descent that
    reaches the absent child [NilPtr] answers "not found"; and on every
    session a client can reach, writing or reading, they return. *)
Theorem lookups_never_raise
  (fs0 : FS) (t0 : BTree) (name : string) (calls : list call) (fuel : nat) :
  (length calls < fuel)%nat ->
  (forall fuel' fs t k e t',
     retrieve fuel' fs t k <> Some (Throw e, t') /\
     contains fuel' fs t k <> Some (Throw e, t')) /\
  (forall fuel' fs t k, isOpen_ t = false ->
     retrieve fuel' fs t k = Some (Ok None, t) /\
     contains fuel' fs t k = Some (Ok false, t)) /\
  (forall fuel' fs t searchKey,
     retrieve_walk (S fuel') fs t searchKey NilPtr = Some (None, t)) /\
  (creatable name = true ->
   exists fs1 t1 fs2 t2 fs3 t3 t4,
     open fs0 t0 name Write = (true, fs1, t1) /\
     run fuel fs1 t1 calls = Some (fs2, t2) /\
     close fs2 t2 = (fs3, t3) /\
     open fs3 t3 name Read = (true, fs3, t4) /\
     forall k,
       (exists v t', retrieve fuel fs2 t2 k = Some (Ok v, t')) /\
       (exists b t', contains fuel fs2 t2 k = Some (Ok b, t')) /\
       (exists v t', retrieve fuel fs3 t4 k = Some (Ok v, t')) /\
       (exists b t', contains fuel fs3 t4 k = Some (Ok b, t'))).
Proof.
  intros Hfuel.
  assert (Hnothrow : forall fuel' fs t k e t',
            retrieve fuel' fs t k <> Some (Throw e, t')).
  { intros fuel' fs t k e t'. unfold retrieve.
    destruct (isOpen_ t); simpl; [|discriminate].
    destruct (retrieve_walk fuel' fs t (padKey k) (root_ t)) as [[r t1]|]; discriminate. }
  split.
  { intros fuel' fs t k e t'. split; [apply Hnothrow|].
    unfold contains. destruct (retrieve fuel' fs t k) as [[[v|e'] t1]|] eqn:E;
      try discriminate.
    exfalso. exact (Hnothrow _ _ _ _ _ _ E). }
  split.
  { intros fuel' fs t k Hclosed. unfold contains, retrieve. now rewrite Hclosed. }
  split; [reflexivity|].
  intros Hcr.
  destruct (open_write_ok fs0 t0 name Hcr) as (fs1 & t1 & Hopen & Hinv1 & Hname & _).
  destruct (run_inv fuel calls fs1 t1 [] Hinv1 ltac:(simpl; lia))
    as (fs2 & t2 & l & Hrun & Hinv2 & Hlen & Hfile & _ & _).
  simpl in Hlen.
  destruct (close_write_ok fs2 t2 l Hinv2)
    as (fs3 & t3 & f & Hclose & Hf & Hstored & _ & Hclosed & _).
  rewrite Hfile, Hname in Hf.
  destruct (open_read_ok fs3 t3 name f l Hclosed Hf Hstored) as (t4 & Hopen4 & Hinv4).
  exists fs1, t1, fs2, t2, fs3, t3, t4.
  split; [exact Hopen|]. split; [exact Hrun|]. split; [exact Hclose|].
  split; [exact Hopen4|].
  intros k.
  destruct (retrieve_ok fuel fs2 t2 l k (write_inv_tree _ _ _ Hinv2) ltac:(lia))
    as (tw & Hrw & _).
  destruct (retrieve_ok fuel fs3 t4 l k (read_inv_tree _ _ _ Hinv4) ltac:(lia))
    as (tr & Hrr & _).
  unfold contains. rewrite Hrw, Hrr.
  repeat split; eexists _, _; reflexivity.
Qed.

(** Every record of a well-formed subtree sits in a live slot of one of its
    nodes. *)
Lemma subtree_in_node f h : forall minc lo hi id l r,
  subtree f h minc lo hi id l -> r ∈ l ->
  exists (i : nat) n j, (1 <= i)%nat /\ f !! i = Some n /\ 0 <= j < count n /\ rec_at n j = r.
Proof.
  induction h as [|h IH]; intros minc lo hi id l r Hsub Hr.
  - destruct Hsub as [_ ->]. inversion Hr.
  - destruct Hsub as (n & Hid & Hn & _ & _ & _ & Hch).
    assert (Hgen : forall es lo hi b0 l,
      chain (subtree f h MinKeys) lo hi b0 es l -> r ∈ l ->
      (exists e, e ∈ es /\ e.1 = r) \/
      (exists (i : nat) n j, (1 <= i)%nat /\ f !! i = Some n /\
                             0 <= j < count n /\ rec_at n j = r)).
    { clear - IH. induction es as [|[r1 b1] es IHes]; intros lo hi b0 l Hc Hin; simpl in Hc.
      - right. eapply IH; eauto.
      - destruct Hc as (l1 & l2 & -> & _ & Hw & Hc).
        apply elem_of_app in Hin. destruct Hin as [Hin|Hin].
        + right. eapply IH; eauto.
        + apply elem_of_cons in Hin. destruct Hin as [->|Hin].
          * left. exists (r1, b1). split; [left|reflexivity].
          * destruct (IHes _ _ _ _ Hc Hin) as [(e & He & Her)|Hdeep]; [|now right].
            left. exists e. split; [now right|exact Her]. }
    destruct (Hgen _ _ _ _ _ Hch Hr) as [(e & He & Her)|Hdeep]; [|exact Hdeep].
    apply list_elem_of_lookup in He. destruct He as (j & Hj).
    rewrite entries_lookup in Hj. case_decide; [|discriminate].
    injection Hj as <-. simpl in Her.
    exists (Z.to_nat id), n, (Z.of_nat j). repeat split; auto; lia.
Qed.

Lemma padKey_bytes k :
  padKey k = append (truncated k) (zeros (Z.to_nat KeySize - String.length (truncated k))).
Proof.
  unfold padKey, truncated. rewrite KeySize_pred.
  apply strncpy_zeros_bytes. lia.
Qed.

Lemma truncated_idem k : truncated (truncated k) = truncated k.
Proof.
  unfold truncated. now rewrite cstr_prefix_n_cstr, prefix_n_idem.
Qed.

(** C6.  In a write session, after any calls, inserting a key longer
    than [KeySize - 1] bytes that the tree does not hold yet succeeds and
    stores a record whose key field is the first [KeySize - 1] bytes
    followed by the terminator; a following [retrieve] by the long key or by
    its truncation returns the inserted payload. *)
Theorem long_key_truncated
  (fs0 : FS) (t0 : BTree) (name : string) (calls : list call) (fuel : nat)
  (k : string) (d : list Byte.byte) :
  creatable name = true ->
  (S (length calls) < fuel)%nat ->
  (Z.to_nat KeySize - 1 < strlen k)%nat ->
  length d = Z.to_nat DataSize ->
  exists fs1 t1 fs t,
    open fs0 t0 name Write = (true, fs1, t1) /\
    run fuel fs1 t1 calls = Some (fs, t) /\
    forall tq, retrieve fuel fs t k = Some (Ok None, tq) ->
    exists fs' t', insert fuel fs t k d = Some (Ok tt, fs', t') /\
      (exists f (i : nat) n j,
         fs' !! name = Some f /\ f !! i = Some n /\ 0 <= j < count n /\
         rec_at n j = mkRec (append (prefix_n (Z.to_nat KeySize - 1) (cstr k)) (zeros 1)) d) /\
      (exists t'', retrieve fuel fs' t' k = Some (Ok (Some d), t'')) /\
      (exists t'', retrieve fuel fs' t' (prefix_n (Z.to_nat KeySize - 1) (cstr k)) =
                     Some (Ok (Some d), t'')).
Proof.
  intros Hcr Hfuel Hlong Hd.
  destruct (open_write_ok fs0 t0 name Hcr) as (fs1 & t1 & Hopen & Hinv1 & Hname & _).
  destruct (run_inv fuel calls fs1 t1 [] Hinv1 ltac:(simpl; lia))
    as (fs & t & l & Hrun & Hinv & Hlen & Hfile & _ & _).
  simpl in Hlen.
  exists fs1, t1, fs, t. split; [exact Hopen|]. split; [exact Hrun|].
  intros tq Hq.
  destruct (retrieve_ok fuel fs t l k (write_inv_tree _ _ _ Hinv) ltac:(lia))
    as (tq' & Hq' & _).
  rewrite Hq' in Hq. injection Hq as Hq _.
  destruct (find_key (padKey k) l) as [r|] eqn:E; [discriminate|].
  destruct (insert_ok fuel fs t l k d Hinv ltac:(lia) (find_key_none _ _ E))
    as (fs2 & t2 & l1 & l2 & Hi & -> & Hinv2 & Hf2 & _).
  exists fs2, t2. split; [exact Hi|].
  assert (Hrec : made_record k d =
                 mkRec (append (prefix_n (Z.to_nat KeySize - 1) (cstr k)) (zeros 1)) d).
  { unfold made_record. f_equal.
    - rewrite padKey_bytes. unfold truncated.
      rewrite length_prefix_n by (unfold strlen in Hlong; lia).
      destruct Hcfg as (HK & _). do 2 f_equal. lia.
    - unfold memcpy. rewrite take_ge by lia. rewrite drop_ge by (rewrite repeat_length; lia).
      apply app_nil_r. }
  assert (Hl : (length (l1 ++ made_record k d :: l2) < fuel)%nat).
  { rewrite length_app in *. simpl. lia. }
  assert (Hfind : forall k', truncated k' = truncated k ->
            find_key (padKey k') (l1 ++ made_record k d :: l2) = Some (made_record k d)).
  { intros k' Hk'.
    assert (Heq : strcmp (padKey k') (key (made_record k d)) = Eq)
      by now apply padKey_eq_iff.
    rewrite find_key_skip.
    - unfold find_key. simpl. simpl in Heq. now rewrite Heq.
    - intros r Hr Hr'. apply (find_key_none _ _ E r).
      + apply elem_of_app. now left.
      + rewrite <- Hr'. apply strcmp_eq_l. apply padKey_eq_iff. now symmetry. }
  split; [|split].
  - destruct Hinv2 as (_ & _ & f & h & (_ & _ & Hf) & _ & _ & _ & Hsub).
    destruct (subtree_in_node f h _ _ _ _ _ (made_record k d) Hsub)
      as (i & n & j & _ & Hn & Hj & Hr).
    { apply elem_of_app. right. left. }
    exists f, i, n, j. rewrite Hf2, Hfile, Hname in Hf. rewrite <- Hrec. auto.
  - destruct (retrieve_ok fuel fs2 t2 _ k (write_inv_tree _ _ _ Hinv2) Hl)
      as (t3 & Hr & _).
    rewrite (Hfind k eq_refl) in Hr. simpl in Hr.
    rewrite payload_made_record in Hr by exact Hd. eauto.
  - fold (truncated k).
    destruct (retrieve_ok fuel fs2 t2 _ (truncated k)
                (write_inv_tree _ _ _ Hinv2) Hl) as (t3 & Hr & _).
    rewrite (Hfind _ (truncated_idem k)) in Hr. simpl in Hr.
    rewrite payload_made_record in Hr by exact Hd. eauto.
Qed.

(** *** Shape of the stored tree *)

(** Node [id] is reached from [root] by following [d] branches that are
    live (branch [i] of a node with [count] records, [0 <= i <= count]) and
    not [NilPtr]. *)
Inductive reach (f : File) (root : Z) : nat -> Z -> Prop :=
| reach_root : root <> NilPtr -> reach f root O root
| reach_child d id n i :
    reach f root d id -> f !! Z.to_nat id = Some n ->
    0 <= i <= count n -> br_at n i <> NilPtr ->
    reach f root (S d) (br_at n i).

Lemma chain_child W lo hi n l i :
  chain W lo hi (br_at n 0) (entries n) l -> 0 <= i <= count n ->
  exists lo' hi' l', W lo' hi' (br_at n i) l'.
Proof.
  intros Hch Hi.
  rewrite <- (take_drop (Z.to_nat (i - 1 + 1)) (entries n)) in Hch.
  apply chain_focus in Hch. destruct Hch as (pre & lC & rest & _ & _ & HW & _).
  rewrite last_br_search in HW by lia.
  replace (i - 1 + 1) with i in HW by lia. eauto.
Qed.

Lemma subtree_reach f h minc root l d id :
  subtree f h minc None None root l -> reach f root d id ->
  exists n lo hi l' minc',
    (d < h)%nat /\ f !! Z.to_nat id = Some n /\
    subtree f (h - d) minc' lo hi id l' /\
    (d = O -> minc' = minc) /\ (d <> O -> minc' = MinKeys).
Proof.
  intros Hsub Hreach. induction Hreach as [Hroot|d id n i Hreach IH Hn Hi Hnil].
  - destruct h as [|h]; [destruct Hsub as [Hr _]; contradiction|].
    pose proof Hsub as (n & _ & Hn & _).
    exists n, None, None, l, minc. rewrite Nat.sub_0_r.
    split; [lia|]. split; [exact Hn|]. split; [exact Hsub|].
    split; [reflexivity|]. congruence.
  - destruct IH as (n' & lo & hi & l' & minc' & Hd & Hn' & Hsub' & _).
    rewrite Hn in Hn'. injection Hn' as <-.
    destruct (h - d)%nat as [|h'] eqn:Eh; [lia|].
    destruct Hsub' as (n' & _ & Hn' & _ & _ & _ & Hch).
    rewrite Hn in Hn'. injection Hn' as <-.
    destruct (chain_child _ _ _ _ _ i Hch Hi) as (lo' & hi' & lc & Hc).
    destruct h' as [|h'']; [destruct Hc as [Hc _]; contradiction|].
    pose proof Hc as (nc & _ & Hnc & _).
    exists nc, lo', hi', lc, MinKeys.
    replace (h - S d)%nat with (S h'') by lia.
    split; [lia|]. split; [exact Hnc|]. split; [exact Hc|].
    split; [discriminate|reflexivity].
Qed.

(** [split] on a full node writes two nodes that both keep the lower
    bound: [MinKeys] records stay, [MaxKeys - MinKeys] go to the new node. *)
Lemma split_counts fs t f id n rec rb loc :
  session_ok fs t f -> 1 <= id -> f !! Z.to_nat id = Some n ->
  node_shape n -> count n = MaxKeys -> -1 <= loc < MaxKeys ->
  Z.of_nat (length f) = numNodes_ t + 1 ->
  exists fs' t' m f' L R,
    split fs t rec rb id loc = (fs', t', m, numNodes_ t + 1) /\
    fs' !! path (file_ t) = Some f' /\
    f' !! Z.to_nat id = Some L /\ f' !! Z.to_nat (numNodes_ t + 1) = Some R /\
    count L = MinKeys /\ count R = MaxKeys - MinKeys /\
    MinKeys <= count L <= MaxKeys /\ MinKeys <= count R <= MaxKeys.
Proof.
  intros Hs Hid Hn Hsh Hfull Hloc Hlen.
  pose proof MinKeys_bounds as Hmb.
  assert (Hidlt : (Z.to_nat id < length f)%nat) by (now apply lookup_lt_Some in Hn).
  rewrite split_unfold, (readNode_ok fs t f id n Hs ltac:(lia) Hn).
  cbn [currentNode_ set_currentNode].
  destruct (split_nodes_spec n rec rb loc Hsh Hfull Hloc)
    as (L & R & m & Hsplit & _ & _ & HcL & HcR & _).
  rewrite Hsplit.
  assert (Hs' : forall t', file_ t' = file_ t -> session_ok fs t' f)
    by (intros t' Ht'; eapply session_ok_same_file; eauto).
  erewrite (writeNode_ok fs _ f id L); [|apply Hs'; reflexivity|lia].
  rewrite file_write_inside by exact Hidlt.
  cbn [numNodes_ set_numNodes set_currentNode file_ mode_ isOpen_ root_ numItems_
       currentNode_].
  set (f2 := <[Z.to_nat id := L]> f).
  assert (Hlen2 : length f2 = length f) by (subst f2; apply length_insert).
  erewrite (writeNode_ok _ _ f2 (numNodes_ t + 1) R);
    [|match goal with |- session_ok _ ?t0 _ =>
        apply (session_ok_write fs t0 f f2) end; apply Hs'; reflexivity|lia].
  replace (Z.to_nat (numNodes_ t + 1)) with (length f2) by lia.
  rewrite file_write_end.
  eexists _, _, m, (f2 ++ [R]), L, R. split; [reflexivity|].
  split; [simpl; apply lookup_insert_eq|].
  split; [apply lookup_app_l_Some; subst f2; now apply list_lookup_insert_eq|].
  split; [rewrite lookup_app_r by lia; now rewrite Nat.sub_diag|].
  repeat split; lia.
Qed.

(** Where a record of a chain is: in the node itself, or under one of its
    children. *)
Lemma chain_in W es : forall lo hi b0 l r,
  chain W lo hi b0 es l -> r ∈ l ->
  (exists e, e ∈ es /\ e.1 = r) \/
  (exists lo' hi' b l', b ∈ b0 :: (snd <$> es) /\ W lo' hi' b l' /\ r ∈ l').
Proof.
  induction es as [|[r0 b] es IH]; intros lo hi b0 l r Hch Hr; simpl in Hch.
  - right. exists lo, hi, b0, l. split; [left|]. auto.
  - destruct Hch as (l1 & l2 & -> & _ & HW & Hch).
    apply elem_of_app in Hr as [Hr|Hr].
    + right. exists lo, (Some (key r0)), b0, l1. split; [left|]. auto.
    + apply elem_of_cons in Hr as [->|Hr].
      * left. exists (r0, b). split; [left|reflexivity].
      * destruct (IH _ _ _ _ _ Hch Hr) as [(e & He & Her)|(lo' & hi' & b' & l' & Hb & HW' & Hr')].
        -- left. exists e. split; [now right|exact Her].
        -- right. exists lo', hi', b', l'. split; [|auto].
           rewrite fmap_cons. simpl. now right.
Qed.

(** Every record of a subtree whose root is reached is held by a node that
    is reached. *)
Lemma subtree_record_reached f root h : forall minc lo hi id l r d,
  subtree f h minc lo hi id l -> r ∈ l -> reach f root d id ->
  exists d' id' n j, reach f root d' id' /\ f !! Z.to_nat id' = Some n /\
    0 <= j < count n /\ rec_at n j = r.
Proof.
  induction h as [|h IH]; intros minc lo hi id l r d Hsub Hr Hreach.
  - destruct Hsub as [_ ->]. inversion Hr.
  - destruct Hsub as (n & Hid & Hn & _ & _ & Hc1 & Hch).
    destruct (chain_in _ _ _ _ _ _ _ Hch Hr)
      as [(e & He & <-)|(lo' & hi' & b & l' & Hb & HW & Hr')].
    + apply list_elem_of_lookup in He as [k Hk].
      rewrite entries_lookup in Hk.
      destruct (decide (Z.of_nat k < count n)) as [Hlt|]; [|discriminate].
      injection Hk as <-. exists d, id, n, (Z.of_nat k).
      split; [exact Hreach|]. split; [exact Hn|]. split; [lia|reflexivity].
    + assert (Hbi : exists i, 0 <= i <= count n /\ b = br_at n i).
      { apply elem_of_cons in Hb as [->|Hb]; [exists 0; split; [lia|reflexivity]|].
        apply list_elem_of_fmap in Hb as (e & -> & He).
        apply list_elem_of_lookup in He as [k Hk].
        rewrite entries_lookup in Hk.
        destruct (decide (Z.of_nat k < count n)) as [Hlt|]; [|discriminate].
        injection Hk as <-. exists (Z.of_nat k + 1). split; [lia|reflexivity]. }
      destruct Hbi as (i & Hi & ->).
      destruct h as [|h']; [destruct HW as [_ ->]; inversion Hr'|].
      assert (Hnil : br_at n i <> NilPtr).
      { destruct HW as (nc & Hge & _). unfold NilPtr. lia. }
      apply (IH _ _ _ _ _ r (S d) HW Hr').
      now apply (reach_child f root d id n i).
Qed.

(** C2.  After any sequence of inserts with distinct keys into a fresh
    write session the stored tree holds the inserted records and is
    balanced: it has a root exactly when something was inserted, the root
    then holds between 1 and [MaxKeys] records, every other node reached
    from it between [MinKeys] and [MaxKeys], every inserted record is in a
    node reached from the root, and the nodes with an absent child are
    exactly those at the last depth, where every child is absent.  In
    particular a [split] leaves [MinKeys] records in the node it splits and
    [MaxKeys - MinKeys], which is no less, in the new one. *)
Theorem tree_balanced
  (fs0 : FS) (t0 : BTree) (name : string) (ops : list (string * list Byte.byte))
  (fuel : nat) :
  NoDup ((fun op => truncated op.1) <$> ops) -> (length ops < fuel)%nat ->
  (creatable name = true ->
   exists fs1 t1 fs2 t2 f height,
     open fs0 t0 name Write = (true, fs1, t1) /\
     insert_all fuel fs1 t1 ops = Some (Ok tt, fs2, t2) /\
     fs2 !! name = Some f /\
     (ops = [] -> root_ t2 = NilPtr) /\
     (ops <> [] ->
        exists n, 1 <= root_ t2 /\ f !! Z.to_nat (root_ t2) = Some n /\
                  1 <= count n <= MaxKeys) /\
     (forall op, op ∈ ops ->
        exists d id n j, reach f (root_ t2) d id /\ f !! Z.to_nat id = Some n /\
          0 <= j < count n /\ rec_at n j = made_record op.1 op.2) /\
     forall d id, reach f (root_ t2) d id ->
       exists n, f !! Z.to_nat id = Some n /\
         (d = O -> 1 <= count n <= MaxKeys) /\
         (d <> O -> MinKeys <= count n <= MaxKeys) /\
         (d < height)%nat /\
         ((exists i, 0 <= i <= count n /\ br_at n i = NilPtr) -> S d = height) /\
         (S d = height -> forall i, 0 <= i <= count n -> br_at n i = NilPtr)) /\
  (forall fs t f id n rec rb loc,
     session_ok fs t f -> 1 <= id -> f !! Z.to_nat id = Some n ->
     node_shape n -> count n = MaxKeys -> -1 <= loc < MaxKeys ->
     Z.of_nat (length f) = numNodes_ t + 1 ->
     exists fs' t' m f' L R,
       split fs t rec rb id loc = (fs', t', m, numNodes_ t + 1) /\
       fs' !! path (file_ t) = Some f' /\
       f' !! Z.to_nat id = Some L /\ f' !! Z.to_nat (numNodes_ t + 1) = Some R /\
       MinKeys <= count L <= MaxKeys /\ MinKeys <= count R <= MaxKeys).
Proof.
  intros Hnd Hfuel. split.
  - intros Hcr.
    destruct (open_write_ok fs0 t0 name Hcr) as (fs1 & t1 & Hopen & Hinv1 & Hname & _).
    destruct (insert_all_ok fuel ops fs1 t1 [] Hinv1 ltac:(simpl; lia) Hnd)
      as (fs2 & t2 & l & Hall & Hinv2 & Hperm & Hfile & _).
    { intros r op Hr. inversion Hr. }
    simpl in Hperm.
    destruct Hinv2 as (_ & _ & f & h & (_ & _ & Hf) & _ & _ & _ & Hsub).
    rewrite Hfile, Hname in Hf.
    exists fs1, t1, fs2, t2, f, h.
    split; [exact Hopen|]. split; [exact Hall|]. split; [exact Hf|].
    assert (Hroot : l <> [] ->
              exists n, 1 <= root_ t2 /\ f !! Z.to_nat (root_ t2) = Some n /\
                        1 <= count n <= MaxKeys).
    { intros Hl. destruct h as [|h']; [destruct Hsub as [_ ->]; congruence|].
      destruct Hsub as (n & Hid & Hn & _ & Hcnt & _). exists n. auto. }
    split.
    { intros ->. apply Permutation_nil_r in Hperm. subst l.
      destruct h; [apply Hsub|].
      destruct Hsub as (n & _ & _ & _ & _ & Hc1 & Hch).
      destruct (entries_cons n Hc1) as (es & Hes). rewrite Hes in Hch.
      destruct Hch as (l1 & l2 & Hl & _). destruct l1; discriminate. }
    split.
    { intros Hne. apply Hroot. intros ->.
      symmetry in Hperm. apply Permutation_nil_r in Hperm.
      destruct ops; [congruence|discriminate]. }
    split.
    { intros op Hop.
      assert (Hr : made_record op.1 op.2 ∈ l).
      { rewrite Hperm. apply list_elem_of_fmap. exists op. auto. }
      assert (Hl : l <> []) by (intros ->; inversion Hr).
      destruct (Hroot Hl) as (n & Hge & _).
      apply (subtree_record_reached f (root_ t2) h 1 None None (root_ t2) l _ O Hsub Hr).
      apply reach_root. unfold NilPtr. lia. }
    intros d id Hreach.
    destruct (subtree_reach f h 1 _ l d id Hsub Hreach)
      as (n & lo & hi & l' & minc' & Hd & Hn & Hsub' & Hm0 & Hm1).
    exists n. split; [exact Hn|].
    destruct (h - d)%nat as [|h'] eqn:Eh; [lia|].
    destruct Hsub' as (n' & _ & Hn' & _ & Hcnt & Hc1 & Hch).
    rewrite Hn in Hn'. injection Hn' as <-.
    pose proof MinKeys_bounds as Hmb.
    split; [intros Hd0; rewrite (Hm0 Hd0) in Hcnt; lia|].
    split; [intros Hd0; rewrite (Hm1 Hd0) in Hcnt; lia|].
    split; [exact Hd|].
    split.
    + intros (i & Hi & Hnil).
      destruct (chain_child _ _ _ _ _ i Hch Hi) as (lo' & hi' & lc & Hc).
      rewrite Hnil in Hc. apply subtree_nil_iff in Hc. lia.
    + intros HS i Hi.
      destruct (chain_child _ _ _ _ _ i Hch Hi) as (lo' & hi' & lc & Hc).
      assert (h' = O) as -> by lia. apply Hc.
  - intros fs t f id n rec rb loc Hs Hid Hn Hsh Hfull Hloc Hlen.
    destruct (split_counts fs t f id n rec rb loc Hs Hid Hn Hsh Hfull Hloc Hlen)
      as (fs' & t' & m & f' & L & R & H1 & H2 & H3 & H4 & _ & _ & H5 & H6).
    exists fs', t', m, f', L, R. auto 10.
Qed.

(** C5 (as the code has it).  A node block is [sizeof(Node)] bytes long,
    the value [nodeSize()] reports: the count, [MaxKeys] records and [Order]
    branches, packed.  [readNode] and [writeNode] transfer exactly one such
    block at byte offset [n * nodeSize()], which is block [n] of the file;
    and after a write session is closed the file is
    [(num_nodes + 1) * nodeSize()] bytes long, [num_nodes] being the counter
    the header stores in branch slot 1. *)
Theorem node_io_layout
  (fs0 : FS) (t0 : BTree) (name : string) (calls : list call) (fuel : nat) :
  (length calls < fuel)%nat ->
  nodeSize = sizeof_int + maxKeys * (keySize + dataSize) + order * sizeof_long /\
  (forall fs t n,
     readNode fs t n =
     match stream_read fs (file_ t) (n * nodeSize) nodeSize with
     | Some nd => (true, set_currentNode t nd)
     | None => (false, set_file t (set_fail (file_ t)))
     end) /\
  (forall fs t n nd,
     writeNode fs t n nd =
     match stream_write fs (file_ t) (n * nodeSize) nodeSize nd with
     | Some fs' => (true, fs', t)
     | None => (false, fs, set_file t (set_fail (file_ t)))
     end) /\
  (forall n, 0 <= n -> block_index (n * nodeSize) = Some (Z.to_nat n)) /\
  (creatable name = true ->
   exists fs1 t1 fs2 t2 fs3 t3 f hdr,
     open fs0 t0 name Write = (true, fs1, t1) /\
     run fuel fs1 t1 calls = Some (fs2, t2) /\
     close fs2 t2 = (fs3, t3) /\
     fs3 !! name = Some f /\ f !! 0%nat = Some hdr /\
     br_at hdr 1 = numNodes_ t2 /\
     file_size f = (numNodes_ t2 + 1) * nodeSize).
Proof.
  intros Hfuel.
  split; [reflexivity|]. split; [reflexivity|]. split; [reflexivity|].
  split; [apply block_index_node|].
  intros Hcr.
  destruct (open_write_ok fs0 t0 name Hcr) as (fs1 & t1 & Hopen & Hinv1 & Hname & _).
  destruct (run_inv fuel calls fs1 t1 [] Hinv1 ltac:(simpl; lia))
    as (fs2 & t2 & l & Hrun & Hinv2 & _ & Hfile & _ & _).
  destruct (close_write_ok fs2 t2 l Hinv2)
    as (fs3 & t3 & f & Hclose & Hf & (hdr & h & Hhdr & _ & Hh1 & _) & Hlen & _).
  rewrite Hfile, Hname in Hf.
  exists fs1, t1, fs2, t2, fs3, t3, f, hdr.
  split; [exact Hopen|]. split; [exact Hrun|]. split; [exact Hclose|].
  split; [exact Hf|]. split; [exact Hhdr|]. split; [lia|].
  unfold file_size, nodeSize. now rewrite Hlen.
Qed.

(** ** Further properties of the B-tree *)

(** *** The tree as a map *)

(** The pairs a run of calls leaves in the tree, in the order they were
    accepted: an [insert] whose key, truncated, is already there is the one
    that throws DuplicateKey, and adds nothing. *)
Definition same_key (k : string) (op : string * list Byte.byte) : bool :=
  String.eqb (truncated op.1) (truncated k).

Definition has_key (m : list (string * list Byte.byte)) (k : string) : bool :=
  existsb (same_key k) m.

Definition value_of (m : list (string * list Byte.byte)) (k : string)
  : option (list Byte.byte) :=
  snd <$> List.find (same_key k) m.

Fixpoint accepted (m : list (string * list Byte.byte)) (calls : list call)
  : list (string * list Byte.byte) :=
  match calls with
  | [] => m
  | Insert k d :: cs => accepted (if has_key m k then m else m ++ [(k, d)]) cs
  | _ :: cs => accepted m cs
  end.

(** The payloads handed to [insert] are [DataSize] bytes long. *)
Definition sized_call (c : call) : Prop :=
  match c with
  | Insert _ d => length d = Z.to_nat DataSize
  | _ => True
  end.

Definition sized (op : string * list Byte.byte) : Prop :=
  length op.2 = Z.to_nat DataSize.

Lemma same_key_true k op : same_key k op = true <-> truncated op.1 = truncated k.
Proof. unfold same_key. apply String.eqb_eq. Qed.

Lemma has_key_true m k :
  has_key m k = true <-> truncated k ∈ (fun op => truncated op.1) <$> m.
Proof.
  unfold has_key. rewrite existsb_exists. split.
  - intros (op & Hin & Hk). apply same_key_true in Hk.
    apply list_elem_of_fmap. exists op. split; [auto|]. now apply list_elem_of_In.
  - intros H. apply list_elem_of_fmap in H as (op & Hk & Hin).
    exists op. split; [now apply list_elem_of_In|]. now apply same_key_true.
Qed.

Lemma has_key_value_of m k :
  has_key m k = match value_of m k with Some _ => true | None => false end.
Proof.
  unfold has_key, value_of. induction m as [|op m IH]; simpl; [reflexivity|].
  destruct (same_key k op); simpl; [reflexivity|exact IH].
Qed.

Lemma padKey_truncated k k' : truncated k = truncated k' -> padKey k = padKey k'.
Proof. intros H. rewrite !padKey_bytes. now rewrite H. Qed.

Lemma find_key_value_of m l k :
  NoDup ((fun op => truncated op.1) <$> m) -> l ≡ₚ records_of m -> Forall sized m ->
  option_map payload (find_key (padKey k) l) = value_of m k.
Proof.
  intros Hnd Hperm Hsz. unfold value_of.
  destruct (List.find (same_key k) m) as [[k0 d0]|] eqn:E.
  - apply find_some in E as [Hin Hk]. apply same_key_true in Hk. simpl in Hk.
    apply list_elem_of_In in Hin.
    destruct (find_key_records m l k0 Hnd Hperm) as [Hhit _].
    rewrite <- (padKey_truncated k0 k Hk), (Hhit d0 Hin). simpl.
    rewrite payload_made_record; [reflexivity|].
    rewrite Forall_forall in Hsz. apply (Hsz (k0, d0) Hin).
  - destruct (find_key_records m l k Hnd Hperm) as [_ Hmiss].
    rewrite Hmiss; [reflexivity|].
    intros Hin. apply list_elem_of_fmap in Hin as (op & Hk & Hin).
    apply list_elem_of_In in Hin.
    pose proof (find_none _ _ E op Hin) as Hf.
    assert (same_key k op = true) by (apply same_key_true; auto). congruence.
Qed.

Lemma accepted_sized calls : forall m,
  Forall sized m -> Forall sized_call calls -> Forall sized (accepted m calls).
Proof.
  induction calls as [|c calls IH]; intros m Hm Hc; simpl; [exact Hm|].
  apply Forall_cons in Hc as [Hc Hcs].
  destruct c as [k d|k|k]; try (apply IH; assumption).
  apply IH; [|exact Hcs].
  destruct (has_key m k); [exact Hm|].
  apply Forall_app. split; [exact Hm|]. now repeat constructor.
Qed.

Lemma accepted_length calls : forall m,
  (length (accepted m calls) <= length m + length calls)%nat.
Proof.
  induction calls as [|c calls IH]; intros m; simpl; [lia|].
  destruct c as [k d|k|k]; try (specialize (IH m); lia).
  destruct (has_key m k).
  - specialize (IH m). lia.
  - specialize (IH (m ++ [(k, d)])). rewrite length_app in IH. simpl in IH. lia.
Qed.

(** A write session whose tree holds the pairs [m], on a file whose first
    block is [hd]. *)
Definition holds_map (fs : FS) (t : BTree) (m : list (string * list Byte.byte))
  (hd : Node) : Prop :=
  exists l f, write_inv fs t l /\ l ≡ₚ records_of m /\
    NoDup ((fun op => truncated op.1) <$> m) /\
    fs !! path (file_ t) = Some f /\ f !! 0%nat = Some hd.

(** A successful [insert] writes no block that holds no record: it leaves
    the first block of the file alone. *)
Lemma insert_keeps_block0 fuel fs t l k d f hd :
  write_inv fs t l -> (length l < fuel)%nat ->
  (forall r, r ∈ l -> strcmp (padKey k) (key r) <> Eq) ->
  fs !! path (file_ t) = Some f -> f !! 0%nat = Some hd -> count hd = 0 ->
  forall r fs' t', insert fuel fs t k d = Some (r, fs', t') ->
  exists f', fs' !! path (file_ t) = Some f' /\ f' !! 0%nat = Some hd.
Proof.
  intros (Hopen & Hmode & f0 & h & Hs & Hlen & Hnn & Hni & Hsub) Hfuel Hnew Hf Hhd Hc.
  assert (f0 = f) as ->.
  { destruct Hs as (_ & _ & Hs). congruence. }
  pose proof (subtree_height _ _ _ _ _ _ _ Hsub) as Hh.
  pose proof MinKeys_bounds as Hmb.
  unfold insert. rewrite Hopen, Hmode. simpl.
  fold (padKey k). fold (made_record k d).
  destruct (pushDown_ok h fuel fs t f 1 None None (root_ t) l (made_record k d)
              (false, Rec_new, NilPtr))
    as (fs1 & t1 & f1 & moveUp & m & right & Hpd & Hs1 & Hlen1 & Hsame1 & Hfs1 & Hfr1 & Hle1
        & _); auto; try lia; try (split; exact I).
  rewrite Hpd. destruct Hsame1 as (Hsf & Hsm & Hso & Hsr & Hsi).
  assert (H0 : f1 !! 0%nat = Some hd).
  { apply (Hfr1 0%nat hd Hhd). lia. }
  destruct moveUp.
  - set (newRoot := set_branches _ _).
    cbn [numNodes_ set_numNodes set_root root_].
    erewrite (writeNode_ok fs1 _ f1 (numNodes_ t1 + 1) newRoot);
      [|eapply session_ok_same_file; [|exact Hs1]; reflexivity|lia].
    replace (Z.to_nat (numNodes_ t1 + 1)) with (length f1) by lia.
    rewrite file_write_end.
    intros r fs' t' [= <- <- <-]. exists (f1 ++ [newRoot]). simpl.
    rewrite Hsf. split; [apply lookup_insert_eq|].
    apply lookup_app_l_Some. exact H0.
  - intros r fs' t' [= <- <- <-]. exists f1.
    split; [rewrite Hfs1; apply lookup_insert_eq|exact H0].
Qed.

Lemma run_accepted fuel hd calls : count hd = 0 -> forall fs t m,
  holds_map fs t m hd -> (length m + length calls < fuel)%nat ->
  exists fs' t',
    run fuel fs t calls = Some (fs', t') /\
    holds_map fs' t' (accepted m calls) hd /\ file_ t' = file_ t.
Proof.
  intros Hc.
  induction calls as [|c calls IH]; intros fs t m Hm Hfuel.
  - exists fs, t. simpl. auto.
  - simpl in Hfuel.
    destruct Hm as (l & f & Hinv & Hperm & Hnd & Hf & Hhd).
    assert (Hl : length l = length m).
    { rewrite Hperm. unfold records_of. apply length_fmap. }
    assert (Hstep : exists fs1 t1 m1,
      (forall cs, run fuel fs t (c :: cs) = run fuel fs1 t1 cs) /\
      (forall cs, accepted m (c :: cs) = accepted m1 cs) /\
      holds_map fs1 t1 m1 hd /\ file_ t1 = file_ t /\
      (length m1 <= S (length m))%nat).
    { destruct c as [k d|k|k].
      - destruct (has_key m k) eqn:Hk.
        + assert (exists r, find_key (padKey k) l = Some r) as [r E].
          { apply has_key_true in Hk.
            apply list_elem_of_fmap in Hk as ([k0 d0] & Hk0 & Hin). simpl in Hk0.
            destruct (find_key_records m l k0 Hnd Hperm) as [Hhit _].
            rewrite (padKey_truncated k k0 Hk0). eauto. }
          destruct (insert_dup fuel fs t l k d r Hinv ltac:(lia) E) as (t1 & Hi & Hsame).
          exists fs, t1, m. split; [intros cs; simpl; now rewrite Hi|].
          split; [intros cs; simpl; now rewrite Hk|].
          split; [|split; [apply Hsame|lia]].
          exists l, f. split; [eapply write_inv_buffer; eauto|].
          split; [exact Hperm|]. split; [exact Hnd|].
          destruct Hsame as [(Hsf & _) _]. rewrite Hsf. auto.
        + assert (Hnot : truncated k ∉ (fun op => truncated op.1) <$> m).
          { intros Hin. apply has_key_true in Hin. congruence. }
          assert (E : find_key (padKey k) l = None).
          { destruct (find_key_records m l k Hnd Hperm) as [_ Hmiss]. auto. }
          destruct (insert_ok fuel fs t l k d Hinv ltac:(lia) (find_key_none _ _ E))
            as (fs1 & t1 & l1 & l2 & Hi & -> & Hinv1 & Hf1 & _).
          destruct (insert_keeps_block0 fuel fs t (l1 ++ l2) k d f hd Hinv ltac:(lia)
                      (find_key_none _ _ E) Hf Hhd Hc _ _ _ Hi) as (f' & Hf' & Hhd').
          exists fs1, t1, (m ++ [(k, d)]).
          split; [intros cs; simpl; now rewrite Hi|].
          split; [intros cs; simpl; now rewrite Hk|].
          split; [|split; [exact Hf1|rewrite length_app; simpl; lia]].
          exists (l1 ++ made_record k d :: l2), f'.
          split; [exact Hinv1|].
          split.
          { unfold records_of. rewrite fmap_app. simpl.
            rewrite <- Permutation_middle, <- Permutation_cons_append.
            apply Permutation_cons; [reflexivity|exact Hperm]. }
          split.
          { rewrite fmap_app. simpl. apply NoDup_app. split; [exact Hnd|].
            split; [|apply NoDup_singleton].
            intros x Hx Hx'. apply list_elem_of_singleton in Hx'. subst x. auto. }
          rewrite Hf1. auto.
      - destruct (retrieve_ok fuel fs t l k (write_inv_tree _ _ _ Hinv) ltac:(lia))
          as (t1 & Hr & Hsame).
        exists fs, t1, m. split; [intros cs; simpl; now rewrite Hr|].
        split; [reflexivity|].
        split; [|split; [apply Hsame|lia]].
        exists l, f. split; [eapply write_inv_buffer; eauto|].
        split; [exact Hperm|]. split; [exact Hnd|].
        destruct Hsame as [(Hsf & _) _]. rewrite Hsf. auto.
      - destruct (retrieve_ok fuel fs t l k (write_inv_tree _ _ _ Hinv) ltac:(lia))
          as (t1 & Hr & Hsame).
        exists fs, t1, m.
        split; [intros cs; simpl; unfold contains; now rewrite Hr|].
        split; [reflexivity|].
        split; [|split; [apply Hsame|lia]].
        exists l, f. split; [eapply write_inv_buffer; eauto|].
        split; [exact Hperm|]. split; [exact Hnd|].
        destruct Hsame as [(Hsf & _) _]. rewrite Hsf. auto. }
    destruct Hstep as (fs1 & t1 & m1 & Hrun & Hacc & Hm1 & Hf1 & Hlen1).
    destruct (IH fs1 t1 m1 Hm1 ltac:(lia)) as (fs' & t' & Hrun' & Hm' & Hf').
    exists fs', t'. rewrite Hrun, Hacc.
    split; [exact Hrun'|]. split; [exact Hm'|congruence].
Qed.

(** What [open(name, Write)] leaves: the header alone, in a file at [name]. *)
Lemma open_write_map fs t name :
  creatable name = true ->
  exists fs' t', open fs t name Write = (true, fs', t') /\
    holds_map fs' t' [] (header BTree_new) /\ path (file_ t') = name /\
    fs' !! name = Some [header BTree_new].
Proof.
  intros Hcr.
  destruct (open_write_ok fs t name Hcr) as (fs' & t' & Hopen & Hinv & Hname & _).
  exists fs', t'. split; [exact Hopen|].
  assert (Hf : fs' !! name = Some [header BTree_new]).
  { revert Hopen. unfold open. rewrite Hcr. destruct (close fs t) as [fs0 t0]. simpl.
    rewrite writeMetadata_eq.
    set (t1 := set_numNodes _ _).
    assert (Hs : session_ok (<[name := []]> fs0) t1 []).
    { repeat split. simpl. apply lookup_insert_eq. }
    rewrite (writeNode_ok _ t1 [] 0 (header t1) Hs ltac:(lia)).
    intros [= <- <-]. simpl. rewrite lookup_insert_eq. reflexivity. }
  split; [|split; [exact Hname|exact Hf]].
  exists [], [header BTree_new]. split; [exact Hinv|].
  split; [reflexivity|]. split; [constructor|].
  rewrite Hname. auto.
Qed.

Lemma empty_iff fs t l : tree_inv fs t l -> (empty t = true <-> l = []).
Proof.
  intros (_ & f & h & _ & Hsub). unfold empty. rewrite Z.eqb_eq. split.
  - intros Hr. rewrite Hr in Hsub. now apply subtree_nil_iff in Hsub.
  - intros ->. pose proof (subtree_height _ _ _ _ _ _ _ Hsub) as Hh. simpl in Hh.
    destruct h; [|lia]. simpl in Hsub. tauto.
Qed.

Lemma records_of_nil m : records_of m = [] <-> m = [].
Proof. unfold records_of. destruct m; simpl; split; congruence. Qed.

(** A write session from [open] through any calls, then closed and opened
    again for reading: the records in the tree are those of the accepted
    inserts, and both sessions see them. *)
Lemma write_then_read fs0 t0 name calls fuel :
  creatable name = true ->
  (length calls < fuel)%nat ->
  exists fs1 t1 fs t fs3 t3 t4 l,
    open fs0 t0 name Write = (true, fs1, t1) /\
    run fuel fs1 t1 calls = Some (fs, t) /\
    close fs t = (fs3, t3) /\
    open fs3 t3 name Read = (true, fs3, t4) /\
    holds_map fs t (accepted [] calls) (header BTree_new) /\
    write_inv fs t l /\ read_inv fs3 t4 l /\
    l ≡ₚ records_of (accepted [] calls) /\
    NoDup ((fun op => truncated op.1) <$> accepted [] calls) /\
    (length l < fuel)%nat /\ path (file_ t) = name /\ isOpen_ t3 = false.
Proof.
  intros Hcr Hfuel.
  destruct (open_write_map fs0 t0 name Hcr) as (fs1 & t1 & Hopen & Hm1 & Hname & _).
  destruct (run_accepted fuel (header BTree_new) calls ltac:(reflexivity) fs1 t1 []
              Hm1 ltac:(simpl; lia)) as (fs & t & Hrun & Hm & Hfile).
  pose proof Hm as (l & f & Hinv & Hperm & Hnd & _).
  destruct (close_write_ok fs t l Hinv)
    as (fs3 & t3 & f3 & Hclose & Hf3 & Hstored & _ & Hclosed & _).
  rewrite Hfile, Hname in Hf3.
  destruct (open_read_ok fs3 t3 name f3 l Hclosed Hf3 Hstored) as (t4 & Hopen4 & Hinv4).
  exists fs1, t1, fs, t, fs3, t3, t4, l.
  split; [exact Hopen|]. split; [exact Hrun|]. split; [exact Hclose|].
  split; [exact Hopen4|]. split; [exact Hm|]. split; [exact Hinv|].
  split; [exact Hinv4|]. split; [exact Hperm|]. split; [exact Hnd|].
  split; [|split; [congruence|exact Hclosed]].
  rewrite Hperm. unfold records_of. rewrite length_fmap.
  pose proof (accepted_length calls []). simpl in *. lia.
Qed.

Lemma retrieve_value_of fuel fs t l m k :
  tree_inv fs t l -> (length l < fuel)%nat ->
  NoDup ((fun op => truncated op.1) <$> m) -> l ≡ₚ records_of m -> Forall sized m ->
  (exists t', retrieve fuel fs t k = Some (Ok (value_of m k), t')) /\
  (exists t', contains fuel fs t k = Some (Ok (has_key m k), t')).
Proof.
  intros Hinv Hl Hnd Hperm Hsz.
  destruct (retrieve_ok fuel fs t l k Hinv Hl) as (t' & Hr & _).
  rewrite (find_key_value_of m l k Hnd Hperm Hsz) in Hr.
  split; [eauto|]. exists t'. unfold contains. rewrite Hr.
  now rewrite has_key_value_of.
Qed.

(** X1. A tree opened for writing and given any calls answers as a
    map in which the first [insert] of a key (keys compared after
    truncation) stays: [retrieve] yields the payload of that first insert,
    or false when the key was never inserted, and [contains] tells which;
    after [close] and [open] for reading the answers are the same. *)
Theorem run_answers_as_map
  (fs0 : FS) (t0 : BTree) (name : string) (calls : list call) (fuel : nat) :
  creatable name = true ->
  Forall sized_call calls -> (length calls < fuel)%nat ->
  exists fs1 t1 fs t fs3 t3 t4,
    open fs0 t0 name Write = (true, fs1, t1) /\
    run fuel fs1 t1 calls = Some (fs, t) /\
    close fs t = (fs3, t3) /\
    open fs3 t3 name Read = (true, fs3, t4) /\
    forall k,
      (exists t', retrieve fuel fs t k =
                    Some (Ok (value_of (accepted [] calls) k), t')) /\
      (exists t', contains fuel fs t k =
                    Some (Ok (has_key (accepted [] calls) k), t')) /\
      (exists t', retrieve fuel fs3 t4 k =
                    Some (Ok (value_of (accepted [] calls) k), t')) /\
      (exists t', contains fuel fs3 t4 k =
                    Some (Ok (has_key (accepted [] calls) k), t')).
Proof.
  intros Hcr Hsz Hfuel.
  destruct (write_then_read fs0 t0 name calls fuel Hcr Hfuel)
    as (fs1 & t1 & fs & t & fs3 & t3 & t4 & l & Hopen & Hrun & Hclose & Hopen4 & _
        & Hinv & Hinv4 & Hperm & Hnd & Hl & _).
  exists fs1, t1, fs, t, fs3, t3, t4.
  split; [exact Hopen|]. split; [exact Hrun|]. split; [exact Hclose|].
  split; [exact Hopen4|]. intros k.
  pose proof (accepted_sized calls [] ltac:(constructor) Hsz) as Hsized.
  destruct (retrieve_value_of fuel fs t l _ k (write_inv_tree _ _ _ Hinv) Hl Hnd Hperm Hsized)
    as [H1 H2].
  destruct (retrieve_value_of fuel fs3 t4 l _ k (read_inv_tree _ _ _ Hinv4) Hl Hnd Hperm Hsized)
    as [H3 H4].
  auto.
Qed.

(** X2. [size()] is the number of inserts that were accepted (those
    that did not throw), and [empty()] is true exactly when there were
    none; both hold in the write session and again after [close] and
    [open] for reading, the counters travelling through the header. *)
Theorem size_counts_accepted
  (fs0 : FS) (t0 : BTree) (name : string) (calls : list call) (fuel : nat) :
  creatable name = true ->
  (length calls < fuel)%nat ->
  exists fs1 t1 fs t fs3 t3 t4,
    open fs0 t0 name Write = (true, fs1, t1) /\
    run fuel fs1 t1 calls = Some (fs, t) /\
    close fs t = (fs3, t3) /\
    open fs3 t3 name Read = (true, fs3, t4) /\
    size t = Z.of_nat (length (accepted [] calls)) /\
    (empty t = true <-> accepted [] calls = []) /\
    size t4 = Z.of_nat (length (accepted [] calls)) /\
    (empty t4 = true <-> accepted [] calls = []).
Proof.
  intros Hcr Hfuel.
  destruct (write_then_read fs0 t0 name calls fuel Hcr Hfuel)
    as (fs1 & t1 & fs & t & fs3 & t3 & t4 & l & Hopen & Hrun & Hclose & Hopen4 & _
        & Hinv & Hinv4 & Hperm & _).
  exists fs1, t1, fs, t, fs3, t3, t4.
  split; [exact Hopen|]. split; [exact Hrun|]. split; [exact Hclose|].
  split; [exact Hopen4|].
  assert (Hlen : length l = length (accepted [] calls)).
  { rewrite Hperm. unfold records_of. apply length_fmap. }
  assert (Hnil : l = [] <-> accepted [] calls = []).
  { rewrite <- records_of_nil. split.
    - intros ->. symmetry in Hperm. now apply Permutation_nil_r in Hperm.
    - intros E. rewrite E in Hperm. now apply Permutation_nil_r in Hperm. }
  pose proof (empty_iff _ _ _ (write_inv_tree _ _ _ Hinv)) as He.
  pose proof (empty_iff _ _ _ (read_inv_tree _ _ _ Hinv4)) as He4.
  destruct Hinv as (_ & _ & f & h & _ & _ & _ & Hni & _).
  destruct Hinv4 as (_ & _ & f4 & h4 & _ & Hni4 & _).
  unfold size. rewrite Hni, Hni4, Hlen.
  split; [reflexivity|]. split; [tauto|]. split; [reflexivity|tauto].
Qed.

Lemma close_writes_header fs t l :
  write_inv fs t l ->
  exists f', (close fs t).1 !! path (file_ t) = Some f' /\
             f' !! 0%nat = Some (header t).
Proof.
  intros (Hopen & Hmode & f & h & Hs & Hlen & Hnn & _).
  unfold close. rewrite Hopen, Hmode. simpl.
  rewrite writeMetadata_eq, (writeNode_ok fs t f 0 (header t) Hs ltac:(lia)).
  rewrite file_write_inside by lia. simpl.
  exists (<[0%nat := header t]> f). split; [apply lookup_insert_eq|].
  apply list_lookup_insert_eq. lia.
Qed.

(** X3. [insert] never writes the header: through a whole write
    session the first block of the file stays the one [open] wrote, which
    records no item, no node and no root, while [size()] counts the
    inserts; the counters reach the file only when [close] writes them. *)
Theorem header_written_by_close_only
  (fs0 : FS) (t0 : BTree) (name : string) (calls : list call) (fuel : nat) :
  creatable name = true ->
  (length calls < fuel)%nat ->
  exists fs1 t1 fs t fs3 t3 f f3 hdr,
    open fs0 t0 name Write = (true, fs1, t1) /\
    run fuel fs1 t1 calls = Some (fs, t) /\
    close fs t = (fs3, t3) /\
    fs !! name = Some f /\ f !! 0%nat = Some (header BTree_new) /\
    br_at (header BTree_new) 0 = 0 /\ br_at (header BTree_new) 1 = 0 /\
    br_at (header BTree_new) 2 = NilPtr /\
    fs3 !! name = Some f3 /\ f3 !! 0%nat = Some hdr /\
    br_at hdr 0 = size t /\ br_at hdr 1 = numNodes_ t /\ br_at hdr 2 = root_ t /\
    size t = Z.of_nat (length (accepted [] calls)).
Proof.
  intros Hcr Hfuel.
  destruct (write_then_read fs0 t0 name calls fuel Hcr Hfuel)
    as (fs1 & t1 & fs & t & fs3 & t3 & t4 & l & Hopen & Hrun & Hclose & _ & Hm
        & Hinv & _ & Hperm & _ & _ & Hname & _).
  destruct Hm as (l' & f & _ & _ & _ & Hf & Hhd).
  rewrite Hname in Hf.
  destruct (close_writes_header fs t l Hinv) as (f3 & Hf3 & Hhdr).
  rewrite Hclose, Hname in Hf3. simpl in Hf3.
  exists fs1, t1, fs, t, fs3, t3, f, f3, (header t).
  split; [exact Hopen|]. split; [exact Hrun|]. split; [exact Hclose|].
  split; [exact Hf|]. split; [exact Hhd|].
  destruct (header_slots BTree_new) as (B0 & B1 & B2 & _).
  split; [exact B0|]. split; [exact B1|]. split; [exact B2|].
  split; [exact Hf3|]. split; [exact Hhdr|].
  destruct (header_slots t) as (T0 & T1 & T2 & _).
  split; [exact T0|]. split; [exact T1|]. split; [exact T2|].
  destruct Hinv as (_ & _ & fw & hw & _ & _ & _ & Hni & _).
  unfold size. rewrite Hni, Hperm. unfold records_of. now rewrite length_fmap.
Qed.

(** *** Opening and closing *)

Lemma close_fields fs t fs1 t1 :
  close fs t = (fs1, t1) ->
  isOpen_ t1 = false /\
  (isOpen_ t = true ->
     numItems_ t1 = 0 /\ numNodes_ t1 = 0 /\ root_ t1 = NilPtr /\
     is_open (file_ t1) = false) /\
  (isOpen_ t = false -> fs1 = fs /\ t1 = t).
Proof using.
  unfold close. destruct (isOpen_ t) eqn:E; simpl.
  - destruct (mode_ t).
    + intros [= <- <-]. simpl. repeat split; discriminate.
    + destruct (writeMetadata fs t) as [[ok fs2] t2].
      intros [= <- <-]. simpl. repeat split; discriminate.
  - intros [= <- <-]. repeat split; auto; discriminate.
Qed.

Lemma insert_not_open fuel fs t k d :
  isOpen_ t = false -> insert fuel fs t k d = Some (Throw NotWritable, fs, t).
Proof using. intros H. unfold insert. now rewrite H. Qed.

Lemma retrieve_not_open fuel fs t k :
  isOpen_ t = false -> retrieve fuel fs t k = Some (Ok None, t).
Proof using. intros H. unfold retrieve. now rewrite H. Qed.

(** X4. [open(name, Write)] at a path where the file can be created
    always starts an empty tree, whatever the object and the file held
    before: the file is the header block alone, [size()] is 0, [empty()] is
    true and nothing is found.  At a path where the file cannot be created
    it returns false: the files are as closing the previous session left
    them, the object is closed and [insert] throws NotWritable. *)
Theorem open_for_writing_starts_empty (fs : FS) (t : BTree) (name : string) :
  (creatable name = true ->
   exists fs' t', open fs t name Write = (true, fs', t') /\
     fs' !! name = Some [header BTree_new] /\
     isOpen t' = true /\ size t' = 0 /\ empty t' = true /\
     forall fuel k, exists t'', retrieve (S fuel) fs' t' k = Some (Ok None, t'')) /\
  (creatable name = false ->
   exists t', open fs t name Write = (false, (close fs t).1, t') /\
     isOpen t' = false /\ is_open (file_ t') = false /\
     (forall fuel k d,
        insert fuel (close fs t).1 t' k d =
        Some (Throw NotWritable, (close fs t).1, t')) /\
     (forall fuel k, retrieve fuel (close fs t).1 t' k = Some (Ok None, t'))).
Proof.
  split; intros Hcr.
  - destruct (open_write_map fs t name Hcr) as (fs' & t' & Hopen & Hm & _ & Hf).
    exists fs', t'. split; [exact Hopen|]. split; [exact Hf|].
    destruct Hm as (l & f & Hinv & Hperm & _).
    apply Permutation_nil_r in Hperm. subst l.
    pose proof (write_inv_tree _ _ _ Hinv) as Htree.
    destruct Hinv as (Ho & _ & fw & hw & _ & _ & _ & Hni & _).
    split; [exact Ho|]. split; [exact Hni|].
    split; [now apply (empty_iff fs' t' [])|].
    intros fuel k.
    destruct (retrieve_ok (S fuel) fs' t' [] k Htree ltac:(simpl; lia)) as (t'' & Hr & _).
    eauto.
  - destruct (close fs t) as [fs1 t1] eqn:Hclose.
    destruct (close_fields _ _ _ _ Hclose) as (Hc & _).
    unfold open. rewrite Hclose, Hcr. simpl.
    eexists. split; [reflexivity|]. split; [exact Hc|]. split; [reflexivity|].
    split.
    + intros fuel k d. now apply insert_not_open.
    + intros fuel k. now apply retrieve_not_open.
Qed.

(** X5. [open(name, Read)] returns false when, once the object's
    previous session is closed, no file is at [name] or the file there has
    no header block; the object is then closed: [insert] throws NotWritable
    and nothing is found. *)
Theorem open_for_reading_fails
  (fs : FS) (t : BTree) (name : string) (fs1 : FS) (t1 : BTree) :
  close fs t = (fs1, t1) ->
  fs1 !! name = None \/ fs1 !! name = Some [] ->
  exists t', open fs t name Read = (false, fs1, t') /\
    isOpen t' = false /\ is_open (file_ t') = false /\
    (forall fuel k d, insert fuel fs1 t' k d = Some (Throw NotWritable, fs1, t')) /\
    (forall fuel k, retrieve fuel fs1 t' k = Some (Ok None, t')).
Proof using.
  intros Hclose Hfile.
  destruct (close_fields _ _ _ _ Hclose) as (Hc & _).
  assert (Hgoal : exists t', open fs t name Read = (false, fs1, t') /\
            isOpen_ t' = false /\ is_open (file_ t') = false).
  { unfold open. rewrite Hclose. simpl.
    destruct Hfile as [Hf|Hf]; rewrite Hf.
    - eexists. split; [reflexivity|]. simpl. auto.
    - unfold readNode, stream_read. simpl. rewrite Hf, Z.eqb_refl. simpl.
      eexists. split; [reflexivity|]. simpl. auto. }
  destruct Hgoal as (t' & Hopen & Hio & Hso).
  exists t'. split; [exact Hopen|]. split; [exact Hio|]. split; [exact Hso|].
  split.
  - intros fuel k d. now apply insert_not_open.
  - intros fuel k. now apply retrieve_not_open.
Qed.

(** X6. After [close()] the object is closed: [insert] throws
    NotWritable and leaves everything as it is, a second [close()] does
    nothing, and, when a session was open, [size()] reports 0 and
    [empty()] true whatever the tree holds. *)
Theorem closed_session (fs : FS) (t : BTree) (fs' : FS) (t' : BTree) :
  close fs t = (fs', t') ->
  isOpen t' = false /\ close fs' t' = (fs', t') /\
  (isOpen t = true -> size t' = 0 /\ empty t' = true) /\
  forall fuel k d, insert fuel fs' t' k d = Some (Throw NotWritable, fs', t').
Proof using.
  intros Hclose.
  destruct (close_fields _ _ _ _ Hclose) as (Hc & Hopen & _).
  split; [exact Hc|]. split; [unfold close; now rewrite Hc|]. split.
  - intros Ho. destruct (Hopen Ho) as (Hn & _ & Hr & _).
    unfold size, empty. rewrite Hn, Hr. auto.
  - intros fuel k d. now apply insert_not_open.
Qed.

(** *** The typed wrappers *)

(** [insertValue<T>(key, value)]: the value, given as the [sizeof(T)] bytes
    of its object representation, is copied to the head of a zeroed buffer
    of [DataSize] bytes.  The template does not compile for a type larger
    than [DataSize]. *)
Definition insertValue (fuel : nat) (fs : FS) (t : BTree) (k : string)
  (value : list Byte.byte) : option (result unit * FS * BTree) :=
  let buffer := repeat Byte.x00 (Z.to_nat DataSize) in
  let buffer := memcpy buffer value (length value) in
  insert fuel fs t k buffer.

(** [retrieveValue<T>(key, value)]: on a hit the first [sizeof(T)] bytes of
    the payload are copied into the value. *)
Definition retrieveValue (fuel : nat) (fs : FS) (t : BTree) (k : string)
  (sizeof_T : nat) : option (result (option (list Byte.byte)) * BTree) :=
  match retrieve fuel fs t k with
  | None => None
  | Some (Ok (Some buffer), t) => Some (Ok (Some (take sizeof_T buffer)), t)
  | Some (Ok None, t) => Some (Ok None, t)
  | Some (Throw e, t) => Some (Throw e, t)
  end.

Lemma value_of_new m k d :
  has_key m k = false -> value_of (m ++ [(k, d)]) k = Some d.
Proof.
  unfold has_key, value_of. induction m as [|op m IH]; simpl.
  - intros _. unfold same_key. simpl. now rewrite String.eqb_refl.
  - destruct (same_key k op); simpl; [discriminate|exact IH].
Qed.

(** X7. The typed wrappers round-trip: in a write session, after any
    calls, [insertValue] of a value no larger than [DataSize] under a key
    not yet in the tree succeeds, and [retrieveValue] for the same type
    then yields exactly the bytes of that value. *)
Theorem insertValue_retrieveValue
  (fs0 : FS) (t0 : BTree) (name : string) (calls : list call) (fuel : nat)
  (k : string) (value : list Byte.byte) :
  creatable name = true ->
  Forall sized_call calls -> (S (length calls) < fuel)%nat ->
  (length value <= Z.to_nat DataSize)%nat ->
  has_key (accepted [] calls) k = false ->
  exists fs1 t1 fs t fs' t' t'',
    open fs0 t0 name Write = (true, fs1, t1) /\
    run fuel fs1 t1 calls = Some (fs, t) /\
    insertValue fuel fs t k value = Some (Ok tt, fs', t') /\
    retrieveValue fuel fs' t' k (length value) = Some (Ok (Some value), t'').
Proof.
  intros Hcr Hsz Hfuel Hlen Hnew.
  destruct (open_write_map fs0 t0 name Hcr) as (fs1 & t1 & Hopen & Hm1 & _).
  destruct (run_accepted fuel (header BTree_new) calls ltac:(reflexivity) fs1 t1 []
              Hm1 ltac:(simpl; lia)) as (fs & t & Hrun & Hm & _).
  set (buffer := memcpy (repeat Byte.x00 (Z.to_nat DataSize)) value (length value)).
  assert (Hbuf : length buffer = Z.to_nat DataSize).
  { unfold buffer, memcpy. rewrite length_app, length_take, length_drop, repeat_length. lia. }
  pose proof (accepted_length calls []) as Hal. simpl in Hal.
  destruct (run_accepted fuel (header BTree_new) [Insert k buffer] ltac:(reflexivity)
              fs t _ Hm ltac:(simpl; lia)) as (fs' & t' & Hrun' & Hm' & _).
  simpl in Hm'. rewrite Hnew in Hm'.
  pose proof Hm as (l & f & Hinv & Hperm & Hnd & _).
  assert (Hl : length l = length (accepted [] calls)).
  { rewrite Hperm. unfold records_of. apply length_fmap. }
  assert (E : find_key (padKey k) l = None).
  { destruct (find_key_records _ l k Hnd Hperm) as [_ Hmiss]. apply Hmiss.
    intros Hin. apply has_key_true in Hin. congruence. }
  destruct (insert_ok fuel fs t l k buffer Hinv ltac:(lia) (find_key_none _ _ E))
    as (fs2 & t2 & l1 & l2 & Hi & _).
  simpl in Hrun'. rewrite Hi in Hrun'. injection Hrun' as -> ->.
  destruct Hm' as (l' & f' & Hinv' & Hperm' & Hnd' & _).
  assert (Hsized : Forall sized (accepted [] calls ++ [(k, buffer)])).
  { apply Forall_app. split; [apply accepted_sized; auto; constructor|].
    repeat constructor. exact Hbuf. }
  assert (Hl' : (length l' < fuel)%nat).
  { rewrite Hperm'. unfold records_of. rewrite length_fmap, length_app. simpl. lia. }
  destruct (retrieve_value_of fuel fs' t' l' _ k (write_inv_tree _ _ _ Hinv') Hl' Hnd'
              Hperm' Hsized) as [(t'' & Hr) _].
  rewrite value_of_new in Hr by exact Hnew.
  exists fs1, t1, fs, t, fs', t', t''.
  split; [exact Hopen|]. split; [exact Hrun|]. split; [exact Hi|].
  assert (Htake : take (length value) buffer = value).
  { unfold buffer, memcpy. rewrite take_app_le by (rewrite length_take; lia).
    rewrite take_take, Nat.min_id. apply take_ge. lia. }
  unfold retrieveValue. now rewrite Hr, Htake.
Qed.

(** *** The size of a node block *)

Lemma OrderCalc_plain :
  0 <= KeySize -> 0 <= DataSize -> 0 <= NodeSize ->
  NodeSize + KeySize + DataSize + 8 < 2 ^ 64 ->
  OrderCalc = (NodeSize + (KeySize + DataSize) + 4) / ((KeySize + DataSize) + 8).
Proof using.
  intros HK HD HN Hb. unfold OrderCalc, RecordSize, to_size_t, sizeof_int, sizeof_long.
  rewrite (Z.mod_small (KeySize + DataSize)) by lia.
  rewrite (Z.add_mod_idemp_l (NodeSize - 4) (KeySize + DataSize)) by lia.
  rewrite (Z.add_mod_idemp_l (NodeSize - 4 + (KeySize + DataSize)) 8) by lia.
  rewrite (Z.mod_small (NodeSize - 4 + (KeySize + DataSize) + 8)) by lia.
  rewrite (Z.mod_small (KeySize + DataSize + 8)) by lia.
  f_equal. lia.
Qed.

(** X8. How the block size relates to the configured [NodeSize], for
    sizes that do not wrap: when the order formula gives at least 3, a node
    block is more than [NodeSize - (KeySize + DataSize)] and at most
    [NodeSize + 8] bytes long, so it can exceed [NodeSize] by up to 8 bytes;
    when the order is raised to the minimum of 3, a block is
    [2 * (KeySize + DataSize) + 28] bytes, which is more than
    [NodeSize + 8]. *)
Theorem node_size_bounds :
  0 <= KeySize -> 0 <= DataSize -> 0 <= NodeSize ->
  NodeSize + KeySize + DataSize + 8 < 2 ^ 64 ->
  (3 <= (NodeSize + (KeySize + DataSize) + 4) / ((KeySize + DataSize) + 8) ->
     NodeSize - (KeySize + DataSize) < nodeSize <= NodeSize + 8) /\
  ((NodeSize + (KeySize + DataSize) + 4) / ((KeySize + DataSize) + 8) < 3 ->
     nodeSize = 2 * (KeySize + DataSize) + 28 /\ NodeSize + 8 < nodeSize).
Proof using.
  intros HK HD HN Hb.
  pose proof (OrderCalc_plain HK HD HN Hb) as Hcalc.
  unfold nodeSize, ActualNodeSize. rewrite MaxKeys_eq.
  unfold Order, sizeof_int, sizeof_long. rewrite Hcalc.
  set (R := KeySize + DataSize) in *.
  set (q := (NodeSize + R + 4) / (R + 8)).
  pose proof (Z.div_mod (NodeSize + R + 4) (R + 8) ltac:(lia)) as Hdm.
  pose proof (Z.mod_pos_bound (NodeSize + R + 4) (R + 8) ltac:(lia)) as Hmb.
  fold q in Hdm. split; intros Hq.
  - destruct (q <? 3) eqn:E; [lia|]. nia.
  - destruct (q <? 3) eqn:E; [|lia]. split; [lia|]. nia.
Qed.

(** *** Inside a node *)

(** X9. [searchNode] on a node whose keys ascend: when it answers
    true the key at the location equals the target; when it answers false
    the location is the last key below the target (-1 when there is none),
    every key up to it being smaller than the target and every key after it
    larger, so branch [location + 1] is the one to follow. *)
Theorem searchNode_sorted (t : BTree) (target : string) :
  0 <= count (currentNode_ t) ->
  (forall i j, 0 <= i < j -> j < count (currentNode_ t) ->
     strcmp (key (rec_at (currentNode_ t) i)) (key (rec_at (currentNode_ t) j)) = Lt) ->
  exists found loc, searchNode t target = (found, loc) /\
    -1 <= loc < count (currentNode_ t) /\
    (found = true ->
       0 <= loc /\ strcmp target (key (rec_at (currentNode_ t) loc)) = Eq) /\
    (found = false -> forall i, 0 <= i < count (currentNode_ t) ->
       (i <= loc -> strcmp (key (rec_at (currentNode_ t) i)) target = Lt) /\
       (loc < i -> strcmp target (key (rec_at (currentNode_ t) i)) = Lt)).
Proof.
  intros Hc Hsorted.
  destruct (searchNode_spec t target Hc) as (found & loc & Hs & Hloc & Ht & Hf).
  exists found, loc. split; [exact Hs|]. split; [exact Hloc|]. split; [exact Ht|].
  intros Hfound i Hi. destruct (Hf Hfound) as [Hlow Hhigh]. split.
  - intros Hle. destruct (Z.eq_dec i loc) as [->|Hne]; [apply Hlow; lia|].
    apply (strcmp_lt_trans _ (key (rec_at (currentNode_ t) loc))).
    + apply Hsorted; lia.
    + apply Hlow. lia.
  - intros Hlt. destruct (Z.eq_dec i (loc + 1)) as [->|Hne]; [apply Hhigh; lia|].
    apply (strcmp_lt_trans _ (key (rec_at (currentNode_ t) (loc + 1)))).
    + apply Hhigh. lia.
    + apply Hsorted; lia.
Qed.

(** X10. [addRecord] puts the record and its right branch at the
    location, moves the records and branches from there on up by one slot,
    and leaves what is before, branch 0 included, where it was; the count
    grows by one and the arrays keep their lengths. *)
Theorem addRecord_inserts (record : Rec) (rightBranch : Z) (n : Node) (loc : Z) :
  0 <= loc <= count n ->
  count n < Z.of_nat (length (records n)) ->
  count n + 1 < Z.of_nat (length (branches n)) ->
  entries (addRecord record rightBranch n loc) =
    take (Z.to_nat loc) (entries n) ++ (record, rightBranch) :: drop (Z.to_nat loc) (entries n) /\
  br_at (addRecord record rightBranch n loc) 0 = br_at n 0 /\
  count (addRecord record rightBranch n loc) = count n + 1 /\
  length (records (addRecord record rightBranch n loc)) = length (records n) /\
  length (branches (addRecord record rightBranch n loc)) = length (branches n).
Proof.
  intros Hloc Hr Hb. exact (entries_addRecord record rightBranch n loc Hloc Hr Hb).
Qed.

(** X11. [split] of a full node loses and repeats nothing: with the
    new record put at its place among the node's records, the first
    [MinKeys] stay in the node, the next one is handed up, and the rest go
    to a new node appended to the file, whose branch 0 is the right branch
    of the record handed up; no other block of the file changes. *)
Theorem split_distributes (fs : FS) (t : BTree) (f : File) (id : Z) (n : Node)
  (rec : Rec) (rb : Z) (loc : Z) :
  session_ok fs t f -> 1 <= id -> f !! Z.to_nat id = Some n ->
  node_shape n -> count n = MaxKeys -> -1 <= loc < MaxKeys ->
  Z.of_nat (length f) = numNodes_ t + 1 ->
  exists fs' t' m L R,
    split fs t rec rb id loc = (fs', t', m, numNodes_ t + 1) /\
    numNodes_ t' = numNodes_ t + 1 /\
    fs' = <[path (file_ t) := <[Z.to_nat id := L]> f ++ [R]]> fs /\
    br_at L 0 = br_at n 0 /\
    entries L ++ (m, br_at R 0) :: entries R =
      take (Z.to_nat (loc + 1)) (entries n) ++ (rec, rb) ::
      drop (Z.to_nat (loc + 1)) (entries n) /\
    count L = MinKeys /\ count R = MaxKeys - MinKeys.
Proof.
  intros Hs Hid Hn Hsh Hfull Hloc Hlen.
  pose proof MinKeys_bounds as Hmb.
  assert (Hidlt : (Z.to_nat id < length f)%nat) by (now apply lookup_lt_Some in Hn).
  rewrite split_unfold, (readNode_ok fs t f id n Hs ltac:(lia) Hn).
  cbn [currentNode_ set_currentNode].
  destruct (split_nodes_spec n rec rb loc Hsh Hfull Hloc)
    as (L & R & m & Hsplit & _ & _ & HcL & HcR & Hb0 & HeL & Hm & HeR).
  rewrite Hsplit.
  assert (Hs' : forall t', file_ t' = file_ t -> session_ok fs t' f)
    by (intros t' Ht'; eapply session_ok_same_file; eauto).
  erewrite (writeNode_ok fs _ f id L); [|apply Hs'; reflexivity|lia].
  rewrite file_write_inside by exact Hidlt.
  cbn [numNodes_ set_numNodes set_currentNode file_ mode_ isOpen_ root_ numItems_
       currentNode_].
  set (f2 := <[Z.to_nat id := L]> f).
  assert (Hlen2 : length f2 = length f) by (subst f2; apply length_insert).
  erewrite (writeNode_ok _ _ f2 (numNodes_ t + 1) R);
    [|match goal with |- session_ok _ ?t0 _ =>
        apply (session_ok_write fs t0 f f2) end; apply Hs'; reflexivity|lia].
  replace (Z.to_nat (numNodes_ t + 1)) with (length f2) by lia.
  rewrite file_write_end.
  eexists _, _, m, L, R. split; [reflexivity|].
  split; [reflexivity|].
  split; [simpl; apply insert_insert_eq|].
  split; [exact Hb0|]. split; [|split; [exact HcL|exact HcR]].
  rewrite HeL, HeR. fold (ins_at (Z.to_nat (loc + 1)) (rec, rb) (entries n)).
  set (es := ins_at _ _ _) in *.
  rewrite <- (take_drop (Z.to_nat MinKeys) es) at 3. f_equal.
  symmetry. now apply drop_S.
Qed.

(** *** The order of keys in the stored tree *)

Lemma chain_child_bounds W lo hi n l i :
  chain W lo hi (br_at n 0) (entries n) l -> 0 <= i <= count n ->
  exists l',
    W (if i - 1 <? 0 then lo else Some (key (rec_at n (i - 1))))
      (if i <? count n then Some (key (rec_at n i)) else hi)
      (br_at n i) l'.
Proof.
  intros Hch Hi.
  rewrite <- (take_drop (Z.to_nat (i - 1 + 1)) (entries n)) in Hch.
  apply chain_focus in Hch. destruct Hch as (pre & lC & rest & _ & _ & HW & _).
  rewrite last_br_search, last_lo_search, hd_hi_search in HW by lia.
  replace (i - 1 + 1) with i in HW by lia. eauto.
Qed.

Lemma node_keys_sorted f h minc lo hi id l n :
  subtree f (S h) minc lo hi id l -> f !! Z.to_nat id = Some n ->
  (forall i j, 0 <= i < j -> j < count n ->
     strcmp (key (rec_at n i)) (key (rec_at n j)) = Lt) /\
  (forall i, 0 <= i < count n -> in_range lo hi (key (rec_at n i))).
Proof.
  intros (n' & _ & Hn' & _ & _ & _ & Hch) Hn.
  rewrite Hn in Hn'. injection Hn' as <-. split.
  - intros i j Hij Hj.
    pose proof (chain_sorted _ _ _ _ _ _ (Z.to_nat i) (Z.to_nat j)
                  (rec_at n i, br_at n (i + 1)) (rec_at n j, br_at n (j + 1)) Hch
                  ltac:(lia)) as H.
    apply H; rewrite entries_lookup; rewrite Z2Nat.id by lia;
      (destruct (decide _); [reflexivity|lia]).
  - intros i Hi.
    pose proof (chain_keys_range _ _ _ _ _ _ Hch) as Hall.
    rewrite Forall_forall in Hall.
    apply (Hall (rec_at n i, br_at n (i + 1))). now apply entry_at_in.
Qed.

(** X12. The stored tree is a search tree: after any calls in a write
    session, in every node reached from the root the keys ascend strictly,
    and every key of the child under branch [i] lies strictly between the
    node's keys [i - 1] and [i] (where those exist). *)
Theorem search_tree_order
  (fs0 : FS) (t0 : BTree) (name : string) (calls : list call) (fuel : nat) :
  creatable name = true ->
  (length calls < fuel)%nat ->
  exists fs1 t1 fs t f,
    open fs0 t0 name Write = (true, fs1, t1) /\
    run fuel fs1 t1 calls = Some (fs, t) /\
    fs !! name = Some f /\
    forall d id n, reach f (root_ t) d id -> f !! Z.to_nat id = Some n ->
      (forall i j, 0 <= i < j -> j < count n ->
         strcmp (key (rec_at n i)) (key (rec_at n j)) = Lt) /\
      (forall i nc j, 0 <= i <= count n -> br_at n i <> NilPtr ->
         f !! Z.to_nat (br_at n i) = Some nc -> 0 <= j < count nc ->
         (1 <= i -> strcmp (key (rec_at n (i - 1))) (key (rec_at nc j)) = Lt) /\
         (i < count n -> strcmp (key (rec_at nc j)) (key (rec_at n i)) = Lt)).
Proof.
  intros Hcr Hfuel.
  destruct (write_then_read fs0 t0 name calls fuel Hcr Hfuel)
    as (fs1 & t1 & fs & t & fs3 & t3 & t4 & l & Hopen & Hrun & _ & _ & _
        & Hinv & _ & _ & _ & _ & Hname & _).
  destruct Hinv as (_ & _ & f & h & Hs & _ & _ & _ & Hsub).
  exists fs1, t1, fs, t, f. split; [exact Hopen|]. split; [exact Hrun|].
  split; [destruct Hs as (_ & _ & Hs); now rewrite <- Hname|].
  intros d id n Hreach Hn.
  destruct (subtree_reach f h 1 (root_ t) l d id Hsub Hreach)
    as (n' & lo & hi & l' & minc' & Hd & Hn' & Hsub' & _).
  destruct (h - d)%nat as [|h'] eqn:Eh; [lia|].
  split; [exact (proj1 (node_keys_sorted _ _ _ _ _ _ _ _ Hsub' Hn))|].
  intros i nc j Hi Hnil Hnc Hj.
  destruct Hsub' as (n2 & _ & Hn2 & _ & _ & _ & Hch).
  rewrite Hn in Hn2. injection Hn2 as <-.
  destruct (chain_child_bounds _ _ _ _ _ i Hch Hi) as (lc & Hc).
  destruct h' as [|h'']; [destruct Hc as [Hc _]; contradiction|].
  destruct (node_keys_sorted _ _ _ _ _ _ _ _ Hc Hnc) as [_ Hrange].
  destruct (Hrange j Hj) as [Hlo Hhi]. split.
  - intros H1. destruct (i - 1 <? 0) eqn:E; [lia|]. exact Hlo.
  - intros H2. destruct (i <? count n) eqn:E; [|lia]. exact Hhi.
Qed.

(** *** Move assignment *)

(** [operator=(BTree&& other)] between two different objects: the target
    closes its session, then takes over the stream and every field of the
    source; the source is marked closed.  Its stream has been moved from
    and holds no file. *)
Definition move_assign (fs : FS) (this other : BTree) : FS * BTree * BTree :=
  let '(fs, this) := close fs this in
  let this := set_file this (file_ other) in
  let this := set_mode this (mode_ other) in
  let this := set_isOpen this (isOpen_ other) in
  let this := set_root this (root_ other) in
  let this := set_numItems this (numItems_ other) in
  let this := set_numNodes this (numNodes_ other) in
  let this := set_currentNode this (currentNode_ other) in
  let other := set_file other (mkStream false (path (file_ other)) (failbit (file_ other))) in
  let other := set_isOpen other false in
  (fs, this, other).

(** X13. Move assignment onto an object with an open write session
    first closes that session, so its tree is stored with its header and
    can be opened for reading; the target then is the source session,
    field for field, the other files are untouched, and the source is left
    closed, so that closing or destroying it writes nothing. *)
Theorem move_assign_hands_over (fs : FS) (this other : BTree) (l : list Rec) :
  write_inv fs this l ->
  exists fs' f' other',
    move_assign fs this other = (fs', other, other') /\
    fs' !! path (file_ this) = Some f' /\ stored_tree f' l /\
    (forall q, q <> path (file_ this) -> fs' !! q = fs !! q) /\
    isOpen other' = false /\ close fs' other' = (fs', other').
Proof.
  intros Hinv.
  destruct (close_write_ok fs this l Hinv)
    as (fs' & t' & f' & Hclose & Hf & Hstored & _ & _ & Hother).
  unfold move_assign. rewrite Hclose.
  eexists fs', f', _. split.
  { f_equal. f_equal. destruct other. reflexivity. }
  split; [exact Hf|]. split; [exact Hstored|]. split; [exact Hother|].
  split; reflexivity.
Qed.

End Config.

(** ** Instances: the test configurations *)

Local Open Scope string_scope.

(** [BTree<16, 8, 256>], the small-node configuration of the splitting
    tests, and [BTree<8, 8>], the one of the long-key test. *)
Lemma valid_config_16_8_256 : valid_config 16 8 256.
Proof. unfold valid_config. vm_compute. intuition congruence. Defined.

Lemma valid_config_8_8_4096 : valid_config 8 8 4096.
Proof. unfold valid_config. vm_compute. intuition congruence. Defined.

(** A file system in which a file can be created at every path. *)
Definition any_path (_ : string) : bool := true.

(** A 64-bit integer as the eight bytes of a payload (low byte given). *)
Definition int64_bytes (b : Byte.byte) : list Byte.byte :=
  [b; Byte.x00; Byte.x00; Byte.x00; Byte.x00; Byte.x00; Byte.x00; Byte.x00].

Definition three_fruits : list (string * list Byte.byte) :=
  [("apple", int64_bytes Byte.x6f); ("banana", int64_bytes Byte.xde);
   ("cherry", int64_bytes Byte.x4d)].

Definition some_calls : list call :=
  [Insert "k" (int64_bytes Byte.x01); Insert "k" (int64_bytes Byte.x02); Retrieve "k"].

Lemma three_fruits_distinct :
  NoDup ((fun op => truncated 16 op.1) <$> three_fruits).
Proof. apply (bool_decide_unpack _). vm_compute. exact I. Defined.

Lemma insert_close_reopen_retrieve_witness :
  exists fs1 t1 fs2 t2 fs3 t3 t4,
    open 16 8 256 any_path ∅ (BTree_new 16 8 256) "t.dat" Write = (true, fs1, t1) /\
    insert_all 16 8 256 4 fs1 t1 three_fruits = Some (Ok tt, fs2, t2) /\
    close 16 8 256 fs2 t2 = (fs3, t3) /\
    open 16 8 256 any_path fs3 t3 "t.dat" Read = (true, fs3, t4) /\
    (forall k d, (k, d) ∈ three_fruits ->
       exists t5, retrieve 16 8 256 4 fs3 t4 k = Some (Ok (Some d), t5)) /\
    (forall k, truncated 16 k ∉ (fun op => truncated 16 op.1) <$> three_fruits ->
       exists t5, retrieve 16 8 256 4 fs3 t4 k = Some (Ok None, t5)).
Proof.
  apply (insert_close_reopen_retrieve 16 8 256 any_path valid_config_16_8_256
           ∅ (BTree_new 16 8 256) "t.dat" three_fruits 4).
  - reflexivity.
  - exact three_fruits_distinct.
  - repeat constructor.
  - simpl. lia.
Defined.

Lemma duplicate_insert_rejected_witness :
  exists fs1 t1 fs t,
    open 16 8 256 any_path ∅ (BTree_new 16 8 256) "t.dat" Write = (true, fs1, t1) /\
    run 16 8 256 4 fs1 t1 some_calls = Some (fs, t) /\
    (forall k0 d0 k d, Insert k0 d0 ∈ some_calls -> truncated 16 k = truncated 16 k0 ->
       exists t', insert 16 8 256 4 fs t k d = Some (Throw DuplicateKey, fs, t') /\
                  size t' = size t) /\
    (forall k d v t1', retrieve 16 8 256 4 fs t k = Some (Ok (Some v), t1') ->
       exists t', insert 16 8 256 4 fs t k d = Some (Throw DuplicateKey, fs, t') /\
                  size t' = size t).
Proof.
  apply (duplicate_insert_rejected 16 8 256 any_path valid_config_16_8_256
           ∅ (BTree_new 16 8 256) "t.dat" some_calls 4).
  - reflexivity.
  - simpl. lia.
Defined.

Lemma order_formula_witness :
  order 32 8 4096 = Z.max 3 ((4096 - 4 + (32 + 8) + 8) / ((32 + 8) + 8)).
Proof.
  apply (proj2 (order_formula 32 8 4096)); lia.
Defined.

(** [BTree<32, 8, SIZE_MAX>]: the numerator wraps to 43 and the order is
    the minimum, not the quotient of the unbounded formula. *)
Lemma order_formula_wraps :
  order 32 8 (2 ^ 64 - 1) <>
  Z.max 3 ((2 ^ 64 - 1 - 4 + (32 + 8) + 8) / ((32 + 8) + 8)).
Proof. vm_compute. discriminate. Qed.

Lemma node_io_layout_witness :
  exists fs1 t1 fs2 t2 fs3 t3 f hdr,
    open 16 8 256 any_path ∅ (BTree_new 16 8 256) "t.dat" Write = (true, fs1, t1) /\
    run 16 8 256 4 fs1 t1 some_calls = Some (fs2, t2) /\
    close 16 8 256 fs2 t2 = (fs3, t3) /\
    fs3 !! "t.dat" = Some f /\ f !! 0%nat = Some hdr /\
    br_at hdr 1 = numNodes_ t2 /\
    file_size 16 8 256 f = (numNodes_ t2 + 1) * nodeSize 16 8 256.
Proof.
  apply (node_io_layout 16 8 256 any_path valid_config_16_8_256
           ∅ (BTree_new 16 8 256) "t.dat" some_calls 4).
  - simpl. lia.
  - reflexivity.
Defined.

(** [BTree<32, 8, 4096>], the default configuration: a node block is 4092
    bytes, not 4096, so node 1 does not start at byte 4096. *)
Lemma node_block_is_not_NodeSize :
  nodeSize 32 8 4096 <> 4096 /\ block_index 32 8 4096 (1 * 4096) = None /\
  block_index 32 8 4096 (1 * nodeSize 32 8 4096) = Some 1%nat.
Proof. vm_compute. repeat split. discriminate. Qed.

Lemma long_key_truncated_witness :
  exists fs1 t1 fs t,
    open 8 8 4096 any_path ∅ (BTree_new 8 8 4096) "t.dat" Write = (true, fs1, t1) /\
    run 8 8 4096 5 fs1 t1 some_calls = Some (fs, t) /\
    exists fs' t',
      insert 8 8 4096 5 fs t "verylongkeythatwillbetruncated" (int64_bytes Byte.x7b)
        = Some (Ok tt, fs', t') /\
      (exists f (i : nat) n j,
         fs' !! "t.dat" = Some f /\ f !! i = Some n /\ 0 <= j < count n /\
         rec_at 8 8 n j =
           mkRec (append (CStr.prefix_n (Z.to_nat 8 - 1)
                            (CStr.cstr "verylongkeythatwillbetruncated"))
                         (CStr.zeros 1))
                 (int64_bytes Byte.x7b)) /\
      (exists t'', retrieve 8 8 4096 5 fs' t' "verylongkeythatwillbetruncated"
                     = Some (Ok (Some (int64_bytes Byte.x7b)), t'')) /\
      (exists t'', retrieve 8 8 4096 5 fs' t'
                     (CStr.prefix_n (Z.to_nat 8 - 1)
                        (CStr.cstr "verylongkeythatwillbetruncated"))
                     = Some (Ok (Some (int64_bytes Byte.x7b)), t'')).
Proof.
  destruct (long_key_truncated 8 8 4096 any_path valid_config_8_8_4096
           ∅ (BTree_new 8 8 4096) "t.dat" some_calls 5
           "verylongkeythatwillbetruncated" (int64_bytes Byte.x7b))
    as (fs1 & t1 & fs & t & Ho & Hr & H).
  - reflexivity.
  - simpl. lia.
  - vm_compute. lia.
  - reflexivity.
  - exists fs1, t1, fs, t. split; [exact Ho|]. split; [exact Hr|].
    vm_compute in Ho. injection Ho as <- <-.
    vm_compute in Hr. injection Hr as <- <-.
    eapply H. vm_compute. reflexivity.
Defined.

(** The file system after [open("t.dat", Write); close()] on a new tree. *)
Definition empty_index_fs : FS :=
  let '(_, fs, t) := open 16 8 256 any_path ∅ (BTree_new 16 8 256) "t.dat" Write in
  (close 16 8 256 fs t).1.

Lemma insert_in_read_session_rejected_witness :
  let '(_, fs, t) := open 16 8 256 any_path empty_index_fs (BTree_new 16 8 256) "t.dat" Read in
  insert 16 8 256 4 fs t "x" (int64_bytes Byte.x00) = Some (Throw NotWritable, fs, t).
Proof.
  destruct (open 16 8 256 any_path empty_index_fs (BTree_new 16 8 256) "t.dat" Read)
    as [[b fs] t] eqn:E.
  exact (insert_in_read_session_rejected 16 8 256 any_path
           empty_index_fs (BTree_new 16 8 256) "t.dat" b fs t 4 "x"
           (int64_bytes Byte.x00) E).
Defined.

Lemma lookups_never_raise_witness :
  exists fs1 t1 fs2 t2 fs3 t3 t4,
    open 16 8 256 any_path ∅ (BTree_new 16 8 256) "t.dat" Write = (true, fs1, t1) /\
    run 16 8 256 4 fs1 t1 some_calls = Some (fs2, t2) /\
    close 16 8 256 fs2 t2 = (fs3, t3) /\
    open 16 8 256 any_path fs3 t3 "t.dat" Read = (true, fs3, t4) /\
    forall k,
      (exists v t', retrieve 16 8 256 4 fs2 t2 k = Some (Ok v, t')) /\
      (exists b t', contains 16 8 256 4 fs2 t2 k = Some (Ok b, t')) /\
      (exists v t', retrieve 16 8 256 4 fs3 t4 k = Some (Ok v, t')) /\
      (exists b t', contains 16 8 256 4 fs3 t4 k = Some (Ok b, t')).
Proof.
  apply (lookups_never_raise 16 8 256 any_path valid_config_16_8_256
           ∅ (BTree_new 16 8 256) "t.dat" some_calls 4).
  - simpl. lia.
  - reflexivity.
Defined.

(** ** Instances for the further properties *)

Lemma some_calls_sized : Forall (sized_call 8) some_calls.
Proof. repeat constructor. Defined.

Lemma run_answers_as_map_witness :
  exists fs1 t1 fs t fs3 t3 t4,
    open 16 8 256 any_path ∅ (BTree_new 16 8 256) "t.dat" Write = (true, fs1, t1) /\
    run 16 8 256 4 fs1 t1 some_calls = Some (fs, t) /\
    close 16 8 256 fs t = (fs3, t3) /\
    open 16 8 256 any_path fs3 t3 "t.dat" Read = (true, fs3, t4) /\
    forall k,
      (exists t', retrieve 16 8 256 4 fs t k =
                    Some (Ok (value_of 16 (accepted 16 [] some_calls) k), t')) /\
      (exists t', contains 16 8 256 4 fs t k =
                    Some (Ok (has_key 16 (accepted 16 [] some_calls) k), t')) /\
      (exists t', retrieve 16 8 256 4 fs3 t4 k =
                    Some (Ok (value_of 16 (accepted 16 [] some_calls) k), t')) /\
      (exists t', contains 16 8 256 4 fs3 t4 k =
                    Some (Ok (has_key 16 (accepted 16 [] some_calls) k), t')).
Proof.
  apply (run_answers_as_map 16 8 256 any_path valid_config_16_8_256
           ∅ (BTree_new 16 8 256) "t.dat" some_calls 4).
  - reflexivity.
  - exact some_calls_sized.
  - simpl. lia.
Defined.

Lemma size_counts_accepted_witness :
  exists fs1 t1 fs t fs3 t3 t4,
    open 16 8 256 any_path ∅ (BTree_new 16 8 256) "t.dat" Write = (true, fs1, t1) /\
    run 16 8 256 4 fs1 t1 some_calls = Some (fs, t) /\
    close 16 8 256 fs t = (fs3, t3) /\
    open 16 8 256 any_path fs3 t3 "t.dat" Read = (true, fs3, t4) /\
    size t = Z.of_nat (length (accepted 16 [] some_calls)) /\
    (empty t = true <-> accepted 16 [] some_calls = []) /\
    size t4 = Z.of_nat (length (accepted 16 [] some_calls)) /\
    (empty t4 = true <-> accepted 16 [] some_calls = []).
Proof.
  apply (size_counts_accepted 16 8 256 any_path valid_config_16_8_256
           ∅ (BTree_new 16 8 256) "t.dat" some_calls 4).
  - reflexivity.
  - simpl. lia.
Defined.

Lemma header_written_by_close_only_witness :
  exists fs1 t1 fs t fs3 t3 f f3 hdr,
    open 16 8 256 any_path ∅ (BTree_new 16 8 256) "t.dat" Write = (true, fs1, t1) /\
    run 16 8 256 4 fs1 t1 some_calls = Some (fs, t) /\
    close 16 8 256 fs t = (fs3, t3) /\
    fs !! "t.dat" = Some f /\
    f !! 0%nat = Some (header 16 8 256 (BTree_new 16 8 256)) /\
    br_at (header 16 8 256 (BTree_new 16 8 256)) 0 = 0 /\
    br_at (header 16 8 256 (BTree_new 16 8 256)) 1 = 0 /\
    br_at (header 16 8 256 (BTree_new 16 8 256)) 2 = NilPtr /\
    fs3 !! "t.dat" = Some f3 /\ f3 !! 0%nat = Some hdr /\
    br_at hdr 0 = size t /\ br_at hdr 1 = numNodes_ t /\ br_at hdr 2 = root_ t /\
    size t = Z.of_nat (length (accepted 16 [] some_calls)).
Proof.
  apply (header_written_by_close_only 16 8 256 any_path valid_config_16_8_256
           ∅ (BTree_new 16 8 256) "t.dat" some_calls 4).
  - reflexivity.
  - simpl. lia.
Defined.

(** A file system in which the empty path names no file that can be made. *)
Definition named (p : string) : bool := negb (String.eqb p "").

Lemma open_for_writing_starts_empty_witness :
  (exists fs' t',
     open 16 8 256 named ∅ (BTree_new 16 8 256) "t.dat" Write = (true, fs', t') /\
     fs' !! "t.dat" = Some [header 16 8 256 (BTree_new 16 8 256)] /\
     isOpen t' = true /\ size t' = 0 /\ empty t' = true /\
     forall fuel k, exists t'',
       retrieve 16 8 256 (S fuel) fs' t' k = Some (Ok None, t'')) /\
  (exists t',
     open 16 8 256 named ∅ (BTree_new 16 8 256) "" Write =
       (false, (close 16 8 256 ∅ (BTree_new 16 8 256)).1, t') /\
     isOpen t' = false /\ is_open (file_ t') = false /\
     (forall fuel k d,
        insert 16 8 256 fuel (close 16 8 256 ∅ (BTree_new 16 8 256)).1 t' k d =
        Some (Throw NotWritable, (close 16 8 256 ∅ (BTree_new 16 8 256)).1, t')) /\
     (forall fuel k,
        retrieve 16 8 256 fuel (close 16 8 256 ∅ (BTree_new 16 8 256)).1 t' k =
        Some (Ok None, t'))).
Proof.
  split.
  - apply (proj1 (open_for_writing_starts_empty 16 8 256 named valid_config_16_8_256
                    ∅ (BTree_new 16 8 256) "t.dat")).
    reflexivity.
  - apply (proj2 (open_for_writing_starts_empty 16 8 256 named valid_config_16_8_256
                    ∅ (BTree_new 16 8 256) "")).
    reflexivity.
Defined.

Lemma open_for_reading_fails_witness :
  exists t',
    open 16 8 256 any_path ∅ (BTree_new 16 8 256) "none.dat" Read = (false, ∅, t') /\
    isOpen t' = false /\ is_open (file_ t') = false /\
    (forall fuel k d,
       insert 16 8 256 fuel ∅ t' k d = Some (Throw NotWritable, ∅, t')) /\
    (forall fuel k, retrieve 16 8 256 fuel ∅ t' k = Some (Ok None, t')).
Proof.
  apply (open_for_reading_fails 16 8 256 any_path ∅ (BTree_new 16 8 256) "none.dat"
           ∅ (BTree_new 16 8 256)).
  - reflexivity.
  - left. reflexivity.
Defined.

(** A write session on an empty tree, as [open] leaves it. *)
Definition opened : bool * FS * BTree :=
  open 16 8 256 any_path ∅ (BTree_new 16 8 256) "t.dat" Write.

Lemma closed_session_witness :
  let r := close 16 8 256 opened.1.2 opened.2 in
  isOpen r.2 = false /\ close 16 8 256 r.1 r.2 = (r.1, r.2) /\
  (isOpen opened.2 = true -> size r.2 = 0 /\ empty r.2 = true) /\
  forall fuel k d, insert 16 8 256 fuel r.1 r.2 k d = Some (Throw NotWritable, r.1, r.2).
Proof.
  apply (closed_session 16 8 256 opened.1.2 opened.2).
  vm_compute. reflexivity.
Defined.

Lemma insertValue_retrieveValue_witness :
  exists fs1 t1 fs t fs' t' t'',
    open 16 8 256 any_path ∅ (BTree_new 16 8 256) "t.dat" Write = (true, fs1, t1) /\
    run 16 8 256 5 fs1 t1 some_calls = Some (fs, t) /\
    insertValue 16 8 256 5 fs t "n" [Byte.x2a; Byte.x00; Byte.x00; Byte.x00]
      = Some (Ok tt, fs', t') /\
    retrieveValue 16 8 256 5 fs' t' "n" 4
      = Some (Ok (Some [Byte.x2a; Byte.x00; Byte.x00; Byte.x00]), t'').
Proof.
  apply (insertValue_retrieveValue 16 8 256 any_path valid_config_16_8_256
           ∅ (BTree_new 16 8 256) "t.dat" some_calls 5 "n"
           [Byte.x2a; Byte.x00; Byte.x00; Byte.x00]).
  - reflexivity.
  - exact some_calls_sized.
  - simpl. lia.
  - simpl. lia.
  - vm_compute. reflexivity.
Defined.

(** [BTree<32, 8, 4088>]: the order is 86 and a block is 4092 bytes, four
    more than [NodeSize]. *)
Lemma node_size_bounds_witness :
  4088 - (32 + 8) < nodeSize 32 8 4088 <= 4088 + 8 /\ nodeSize 32 8 4088 = 4092.
Proof.
  split; [|reflexivity].
  apply (proj1 (node_size_bounds 32 8 4088 ltac:(lia) ltac:(lia) ltac:(lia) ltac:(lia))).
  vm_compute. discriminate.
Defined.

(** A node of [BTree<16, 8, 64>], whose order is 3, holding the keys b and d. *)
Definition node_b_d : Node :=
  addRecord 16 8 (mkRec "d" (int64_bytes Byte.x02)) NilPtr
    (addRecord 16 8 (mkRec "b" (int64_bytes Byte.x01)) NilPtr (Node_new 16 8 64) 0) 1.

Definition looking_at (n : Node) : BTree :=
  set_currentNode (BTree_new 16 8 64) n.

Lemma searchNode_sorted_witness :
  exists found loc, searchNode 16 8 (looking_at node_b_d) "c" = (found, loc) /\
    -1 <= loc < count (currentNode_ (looking_at node_b_d)) /\
    (found = true ->
       0 <= loc /\
       CStr.strcmp "c" (key (rec_at 16 8 (currentNode_ (looking_at node_b_d)) loc)) = Eq) /\
    (found = false -> forall i, 0 <= i < count (currentNode_ (looking_at node_b_d)) ->
       (i <= loc ->
          CStr.strcmp (key (rec_at 16 8 (currentNode_ (looking_at node_b_d)) i)) "c" = Lt) /\
       (loc < i ->
          CStr.strcmp "c" (key (rec_at 16 8 (currentNode_ (looking_at node_b_d)) i)) = Lt)).
Proof.
  apply (searchNode_sorted 16 8 64 ltac:(vm_compute; intuition congruence)
           (looking_at node_b_d) "c").
  - vm_compute. discriminate.
  - intros i j Hij Hj.
    assert (Hc : count (currentNode_ (looking_at node_b_d)) = 2) by reflexivity.
    rewrite Hc in Hj.
    assert (j = 1) as -> by lia.
    assert (i = 0) as -> by lia. reflexivity.
Defined.

Lemma valid_config_16_8_64 : valid_config 16 8 64.
Proof. unfold valid_config. vm_compute. intuition congruence. Defined.

Lemma addRecord_inserts_witness :
  let n := addRecord 16 8 (mkRec "d" (int64_bytes Byte.x02)) NilPtr (Node_new 16 8 64) 0 in
  let n' := addRecord 16 8 (mkRec "b" (int64_bytes Byte.x01)) 7 n 0 in
  entries 16 8 n' =
    (take (Z.to_nat 0) (entries 16 8 n) ++
     (mkRec "b" (int64_bytes Byte.x01), 7) :: drop (Z.to_nat 0) (entries 16 8 n))%list /\
  br_at n' 0 = br_at n 0 /\ count n' = count n + 1 /\
  length (records n') = length (records n) /\
  length (branches n') = length (branches n).
Proof.
  apply (addRecord_inserts 16 8 64 valid_config_16_8_64).
  - vm_compute. intuition congruence.
  - vm_compute. reflexivity.
  - vm_compute. reflexivity.
Defined.

(** A write session of [BTree<16, 8, 64>] after two inserts: node 1, the
    root, is full. *)
Definition two_keys : option (FS * BTree) :=
  let '(_, fs, t) := open 16 8 64 any_path ∅ (BTree_new 16 8 64) "t.dat" Write in
  run 16 8 64 5 fs t
    [Insert "b" (int64_bytes Byte.x01); Insert "d" (int64_bytes Byte.x02)].

Definition full_fs : FS := match two_keys with Some (fs, _) => fs | None => ∅ end.
Definition full_t : BTree :=
  match two_keys with Some (_, t) => t | None => BTree_new 16 8 64 end.
Definition full_file : File := default [] (full_fs !! "t.dat").
Definition full_root : Node := default (Node_new 16 8 64) (full_file !! 1%nat).

Lemma split_distributes_witness :
  exists fs' t' m L R,
    split 16 8 64 full_fs full_t (mkRec "c" (int64_bytes Byte.x03)) NilPtr 1 0 =
      (fs', t', m, numNodes_ full_t + 1) /\
    numNodes_ t' = numNodes_ full_t + 1 /\
    fs' = <[path (file_ full_t) := (<[Z.to_nat 1 := L]> full_file ++ [R])%list]> full_fs /\
    br_at L 0 = br_at full_root 0 /\
    (entries 16 8 L ++ (m, br_at R 0) :: entries 16 8 R)%list =
      (take (Z.to_nat (0 + 1)) (entries 16 8 full_root) ++
       (mkRec "c" (int64_bytes Byte.x03), NilPtr) ::
       drop (Z.to_nat (0 + 1)) (entries 16 8 full_root))%list /\
    count L = MinKeys 16 8 64 /\ count R = MaxKeys 16 8 64 - MinKeys 16 8 64.
Proof.
  apply (split_distributes 16 8 64 valid_config_16_8_64 full_fs full_t full_file 1
           full_root (mkRec "c" (int64_bytes Byte.x03)) NilPtr 0).
  - unfold session_ok. repeat split; vm_compute; reflexivity.
  - lia.
  - vm_compute. reflexivity.
  - unfold node_shape. split; vm_compute; reflexivity.
  - vm_compute. reflexivity.
  - vm_compute. intuition congruence.
  - vm_compute. reflexivity.
Defined.

(** Seven keys, enough for an order-3 tree to split more than once. *)
Definition seven_keys : list (string * list Byte.byte) :=
  [("d", int64_bytes Byte.x04); ("b", int64_bytes Byte.x02);
   ("f", int64_bytes Byte.x06); ("a", int64_bytes Byte.x01);
   ("c", int64_bytes Byte.x03); ("e", int64_bytes Byte.x05);
   ("g", int64_bytes Byte.x07)].

Definition seven_inserts : list call := (fun op => Insert op.1 op.2) <$> seven_keys.

Lemma seven_keys_distinct :
  NoDup ((fun op => truncated 16 op.1) <$> seven_keys).
Proof. apply (bool_decide_unpack _). vm_compute. exact I. Defined.

Lemma tree_balanced_witness :
  (exists fs1 t1 fs2 t2 f height,
     open 16 8 64 any_path ∅ (BTree_new 16 8 64) "t.dat" Write = (true, fs1, t1) /\
     insert_all 16 8 64 8 fs1 t1 seven_keys = Some (Ok tt, fs2, t2) /\
     fs2 !! "t.dat" = Some f /\
     (seven_keys = [] -> root_ t2 = NilPtr) /\
     (seven_keys <> [] ->
        exists n, 1 <= root_ t2 /\ f !! Z.to_nat (root_ t2) = Some n /\
                  1 <= count n <= MaxKeys 16 8 64) /\
     (forall op, op ∈ seven_keys ->
        exists d id n j, reach f (root_ t2) d id /\ f !! Z.to_nat id = Some n /\
          0 <= j < count n /\ rec_at 16 8 n j = made_record 16 8 op.1 op.2) /\
     forall d id, reach f (root_ t2) d id ->
       exists n, f !! Z.to_nat id = Some n /\
         (d = O -> 1 <= count n <= MaxKeys 16 8 64) /\
         (d <> O -> MinKeys 16 8 64 <= count n <= MaxKeys 16 8 64) /\
         (d < height)%nat /\
         ((exists i, 0 <= i <= count n /\ br_at n i = NilPtr) -> S d = height) /\
         (S d = height -> forall i, 0 <= i <= count n -> br_at n i = NilPtr)) /\
  (exists fs' t' m f' L R,
     split 16 8 64 full_fs full_t (mkRec "c" (int64_bytes Byte.x03)) NilPtr 1 0 =
       (fs', t', m, numNodes_ full_t + 1) /\
     fs' !! path (file_ full_t) = Some f' /\
     f' !! Z.to_nat 1 = Some L /\ f' !! Z.to_nat (numNodes_ full_t + 1) = Some R /\
     MinKeys 16 8 64 <= count L <= MaxKeys 16 8 64 /\
     MinKeys 16 8 64 <= count R <= MaxKeys 16 8 64).
Proof.
  destruct (tree_balanced 16 8 64 any_path valid_config_16_8_64
              ∅ (BTree_new 16 8 64) "t.dat" seven_keys 8) as [Htree Hsplit].
  - exact seven_keys_distinct.
  - simpl. lia.
  - split.
    + apply Htree. reflexivity.
    + apply (Hsplit full_fs full_t full_file 1 full_root
               (mkRec "c" (int64_bytes Byte.x03)) NilPtr 0).
      * unfold session_ok. repeat split; vm_compute; reflexivity.
      * lia.
      * vm_compute. reflexivity.
      * unfold node_shape. split; vm_compute; reflexivity.
      * vm_compute. reflexivity.
      * vm_compute. intuition congruence.
      * vm_compute. reflexivity.
Defined.

Lemma search_tree_order_witness :
  exists fs1 t1 fs t f,
    open 16 8 64 any_path ∅ (BTree_new 16 8 64) "t.dat" Write = (true, fs1, t1) /\
    run 16 8 64 8 fs1 t1 seven_inserts = Some (fs, t) /\
    fs !! "t.dat" = Some f /\
    forall d id n, reach f (root_ t) d id -> f !! Z.to_nat id = Some n ->
      (forall i j, 0 <= i < j -> j < count n ->
         CStr.strcmp (key (rec_at 16 8 n i)) (key (rec_at 16 8 n j)) = Lt) /\
      (forall i nc j, 0 <= i <= count n -> br_at n i <> NilPtr ->
         f !! Z.to_nat (br_at n i) = Some nc -> 0 <= j < count nc ->
         (1 <= i -> CStr.strcmp (key (rec_at 16 8 n (i - 1))) (key (rec_at 16 8 nc j)) = Lt) /\
         (i < count n -> CStr.strcmp (key (rec_at 16 8 nc j)) (key (rec_at 16 8 n i)) = Lt)).
Proof.
  apply (search_tree_order 16 8 64 any_path valid_config_16_8_64
           ∅ (BTree_new 16 8 64) "t.dat" seven_inserts 8).
  - reflexivity.
  - simpl. lia.
Defined.

Lemma move_assign_hands_over_witness :
  exists fs' f' other',
    move_assign 16 8 256 opened.1.2 opened.2 (BTree_new 16 8 256) =
      (fs', BTree_new 16 8 256, other') /\
    fs' !! path (file_ opened.2) = Some f' /\ stored_tree 16 8 256 f' [] /\
    (forall q, q <> path (file_ opened.2) -> fs' !! q = opened.1.2 !! q) /\
    isOpen other' = false /\ close 16 8 256 fs' other' = (fs', other').
Proof.
  apply (move_assign_hands_over 16 8 256 valid_config_16_8_256
           opened.1.2 opened.2 (BTree_new 16 8 256) []).
  unfold write_inv. split; [reflexivity|]. split; [reflexivity|].
  exists [header 16 8 256 (BTree_new 16 8 256)], 0%nat.
  split; [unfold session_ok; repeat split; vm_compute; reflexivity|].
  split; [reflexivity|]. split; [vm_compute; discriminate|].
  split; [reflexivity|]. split; reflexivity.
Defined.

End BTree.

(** * ProductIndex: the sorted flat-file index (ProductIndex.h, ProductIndex.cpp) *)
Module ProductIndex.
Import CStr.

Definition MAX_PRODUCT_ID_LEN : nat := 64.

(** [sizeof(size_t)] and [sizeof(int64_t)]. *)
Definition sizeof_size_t : Z := 8.
Definition sizeof_int64_t : Z := 8.

Definition to_size_t (z : Z) : Z := z mod 2 ^ 64.

(** The packed struct: [char productId[64]; int64_t nodeKey]. *)
Record ProductRecord := mkProductRecord {
  productId : string;
  nodeKey : Z
}.

Definition sizeof_ProductRecord : Z := Z.of_nat MAX_PRODUCT_ID_LEN + sizeof_int64_t.

(** [ProductRecord()] *)
Definition ProductRecord_new : ProductRecord :=
  mkProductRecord (zeros MAX_PRODUCT_ID_LEN) 0.

(** What [memset(buf, 0, 64); strncpy_s(buf, 64, id.c_str(), 63)] leaves in
    the buffer. *)
Definition padId (id : string) : string :=
  strncpy_s (zeros MAX_PRODUCT_ID_LEN) id (MAX_PRODUCT_ID_LEN - 1).

(** [ProductRecord(id, key)] *)
Definition ProductRecord_of (id : string) (key : Z) : ProductRecord :=
  mkProductRecord (padId id) key.

(** [ProductRecord::operator<] *)
Definition ProductRecord_lt (a b : ProductRecord) : bool :=
  match strcmp (productId a) (productId b) with
  | Lt => true
  | _ => false
  end.

(** An index file: the count written first (absent in a file shorter than
    the header) and the packed records after it. *)
Record IndexFile := mkIndexFile {
  header : option Z;
  packed : list ProductRecord
}.

Abbreviation FS := (gmap string IndexFile).

(** A [std::fstream]: whether it is open, on which file, and its sticky
    failure bit. *)
Record fstream := mkStream {
  is_open : bool;
  path : string;
  failbit : bool
}.

Record ProductIndex := mkProductIndex {
  buffer_ : list ProductRecord;
  indexFile_ : fstream;
  recordCount_ : Z;
  isOpen_ : bool
}.

Definition set_buffer (t : ProductIndex) (b : list ProductRecord) : ProductIndex :=
  mkProductIndex b (indexFile_ t) (recordCount_ t) (isOpen_ t).
Definition set_indexFile (t : ProductIndex) (s : fstream) : ProductIndex :=
  mkProductIndex (buffer_ t) s (recordCount_ t) (isOpen_ t).
Definition set_recordCount (t : ProductIndex) (n : Z) : ProductIndex :=
  mkProductIndex (buffer_ t) (indexFile_ t) n (isOpen_ t).
Definition set_isOpen (t : ProductIndex) (b : bool) : ProductIndex :=
  mkProductIndex (buffer_ t) (indexFile_ t) (recordCount_ t) b.

(** [ProductIndex()] *)
Definition ProductIndex_new : ProductIndex :=
  mkProductIndex [] (mkStream false EmptyString false) 0 false.

(** [addRecord]: [buffer_.emplace_back(productId, nodeKey)]. *)
Definition addRecord (t : ProductIndex) (id : string) (key : Z) : ProductIndex :=
  set_buffer t (buffer_ t ++ [ProductRecord_of id key]).

(** [closeIndex] *)
Definition closeIndex (t : ProductIndex) : ProductIndex :=
  let s := indexFile_ t in
  let t1 :=
    if is_open s then set_indexFile t (mkStream false (path s) (failbit s))
    else t in
  set_recordCount (set_isOpen t1 false) 0.

(** [openIndex]: the stream is opened for input, which needs the file to
    exist and clears the failure bit when it succeeds; then the count is
    read from the head of the file. *)
Definition openIndex (fs : FS) (t : ProductIndex) (indexFilePath : string)
  : bool * ProductIndex :=
  let t1 := closeIndex t in
  match fs !! indexFilePath with
  | None =>
      (false, set_indexFile t1 (mkStream false (path (indexFile_ t1)) true))
  | Some f =>
      match header f with
      | None =>
          (false, closeIndex (set_indexFile t1 (mkStream true indexFilePath true)))
      | Some n =>
          (true, set_isOpen
                   (set_recordCount
                      (set_indexFile t1 (mkStream true indexFilePath false))
                      (to_size_t n))
                   true)
      end
  end.

(** *** The bytes of an index file *)

(** The file is written from memory as it is: the count as the eight bytes
    of a [size_t], then each record as its 64 characters followed by the
    eight bytes of its [int64_t] key, low byte first on the little-endian
    machines the class is built for. *)
Definition byte_of_Z (z : Z) : Byte.byte :=
  default Byte.x00 (Byte.of_N (Z.to_N (z mod 256))).

Definition le_bytes (n : nat) (z : Z) : list Byte.byte :=
  (fun i : nat => byte_of_Z (z / 256 ^ Z.of_nat i)) <$> seq 0 n.

Definition Z_of_le (bs : list Byte.byte) : Z :=
  foldr (fun b acc => Z.of_N (Byte.to_N b) + 256 * acc) 0 bs.

(** Eight bytes read as an [int64_t] (two's complement). *)
Definition to_int64_t (z : Z) : Z := (z + 2 ^ 63) mod 2 ^ 64 - 2 ^ 63.

Definition record_bytes (r : ProductRecord) : list Byte.byte :=
  String.list_byte_of_string (productId r) ++ le_bytes 8 (nodeKey r).

Definition file_bytes (f : IndexFile) : list Byte.byte :=
  match header f with Some n => le_bytes 8 n | None => [] end ++
  concat (record_bytes <$> packed f).

(** A [ProductRecord] read from 72 bytes. *)
Definition decode_record (bs : list Byte.byte) : ProductRecord :=
  mkProductRecord
    (String.string_of_list_byte (take MAX_PRODUCT_ID_LEN bs))
    (to_int64_t (Z_of_le (take 8 (drop MAX_PRODUCT_ID_LEN bs)))).

(** A read of one record's worth of bytes at any offset: it fails when
    the bytes are not all there.  (An offset of 2^63 or more is a negative
    [streampos], at which [seekg] fails; no file is that long, so the test
    on the length covers it.) *)
Definition read_bytes_at (f : IndexFile) (pos : Z) : option ProductRecord :=
  if (0 <=? pos) &&
     (pos + sizeof_ProductRecord <=? Z.of_nat (length (file_bytes f)))
  then Some (decode_record
               (take (Z.to_nat sizeof_ProductRecord)
                  (drop (Z.to_nat pos) (file_bytes f))))
  else None.

(** [seekg(pos)] then [read] of one record, on a good stream.  At the start
    of a record of the file the read gives that record back as it was
    written; at any other offset it gives whatever the bytes found there
    decode to, which may run across two records or start in the count. *)
Definition read_record (fs : FS) (s : fstream) (pos : Z) : option ProductRecord :=
  if is_open s && negb (failbit s) then
    match fs !! path s with
    | Some f =>
        if (sizeof_size_t <=? pos) &&
           ((pos - sizeof_size_t) mod sizeof_ProductRecord =? 0)
        then packed f !! Z.to_nat ((pos - sizeof_size_t) / sizeof_ProductRecord)
        else read_bytes_at f pos
    | None => None
    end
  else None.

Definition set_fail (t : ProductIndex) : ProductIndex :=
  set_indexFile t
    (mkStream (is_open (indexFile_ t)) (path (indexFile_ t)) true).

(** The [while (left < right)] loop of [binarySearch]; the result is the
    value given to [outNodeKey] when the function returns true, and [None]
    when it returns false.  Every turn makes [right - left] smaller, so
    [fuel] counts the turns that are left. *)
Fixpoint binarySearch_loop (fuel : nat) (fs : FS) (t : ProductIndex)
  (targetId : string) (left right : Z) : option Z * ProductIndex :=
  match fuel with
  | O => (None, t)
  | S fuel' =>
      if left <? right then
        let mid := to_size_t (left + to_size_t (right - left) / 2) in
        let pos :=
          to_size_t (sizeof_size_t + to_size_t (mid * sizeof_ProductRecord)) in
        match read_record fs (indexFile_ t) pos with
        | None => (None, set_fail t)
        | Some record =>
            match strcmp targetId (productId record) with
            | Eq => (Some (nodeKey record), t)
            | Lt => binarySearch_loop fuel' fs t targetId left mid
            | Gt => binarySearch_loop fuel' fs t targetId (to_size_t (mid + 1)) right
            end
        end
      else (None, t)
  end.

(** [binarySearch]: [left = 0], [right = recordCount_]; the loop is given as
    many turns as there are records. *)
Definition binarySearch (fs : FS) (t : ProductIndex) (targetId : string)
  : option Z * ProductIndex :=
  binarySearch_loop (Z.to_nat (recordCount_ t)) fs t targetId 0 (recordCount_ t).

(** [lookup] *)
Definition lookup (fs : FS) (t : ProductIndex) (id : string)
  : option Z * ProductIndex :=
  if negb (isOpen_ t) || (recordCount_ t =? 0) then (None, t)
  else binarySearch fs t (padId id).

(** [containsRecord] *)
Definition containsRecord (fs : FS) (t : ProductIndex) (id : string)
  : bool * ProductIndex :=
  let '(r, t') := lookup fs t id in (bool_decide (r <> None), t').

Definition getRecordCount (t : ProductIndex) : Z := recordCount_ t.

(** The id a record keeps of the string it was made from. *)
Definition truncated_id (id : string) : string :=
  prefix_n (MAX_PRODUCT_ID_LEN - 1) (cstr id).

(** The first record of a list whose id equals the target, as [strcmp] sees it. *)
Definition same_id (targetId : string) (r : ProductRecord) : bool :=
  match strcmp targetId (productId r) with
  | Eq => true
  | _ => false
  end.

Definition find_id (targetId : string) (recs : list ProductRecord) : option Z :=
  nodeKey <$> List.find (same_id targetId) recs.

(** Records in ascending order of [operator<], without two equal ids. *)
Definition ascending (recs : list ProductRecord) : Prop :=
  forall (i j : nat) a b, recs !! i = Some a -> recs !! j = Some b -> (i < j)%nat ->
    strcmp (productId a) (productId b) = Lt.

(** The index is open on a file of [recs], counted by its header. *)
Definition opened_on (fs : FS) (t : ProductIndex) (recs : list ProductRecord) : Prop :=
  is_open (indexFile_ t) = true /\ failbit (indexFile_ t) = false /\
  isOpen_ t = true /\ recordCount_ t = Z.of_nat (length recs) /\
  exists f, fs !! path (indexFile_ t) = Some f /\ packed f = recs.

(** "Not after": what [std::sort] leaves true of each element and the
    next, the second not being less than the first. *)
Definition not_after (a b : ProductRecord) : Prop := ProductRecord_lt b a = false.

Section Sort.

(** [std::sort] with [operator<]: some rearrangement of the range in which no
    element is less than the one before it.  [creatable] tells the paths at
    which an output file can be made. *)
Variable std_sort : list ProductRecord -> list ProductRecord.
Variable creatable : string -> bool.

Definition sort_spec : Prop :=
  forall l, std_sort l ≡ₚ l /\ Sorted not_after (std_sort l).

(** [buildIndex] *)
Definition buildIndex (fs : FS) (t : ProductIndex) (indexFilePath : string)
  : bool * FS * ProductIndex :=
  match buffer_ t with
  | [] => (false, fs, t)
  | _ :: _ =>
      let t1 := set_buffer t (std_sort (buffer_ t)) in
      if negb (creatable indexFilePath) then (false, fs, t1)
      else
        let count := Z.of_nat (length (buffer_ t1)) in
        let fs' := <[indexFilePath := mkIndexFile (Some count) (buffer_ t1)]> fs in
        let t2 := set_buffer t1 [] in
        let '(r, t3) := openIndex fs' t2 indexFilePath in
        (r, fs', t3)
  end.

(** A run of [addRecord] calls. *)
Definition addRecords (t : ProductIndex) (adds : list (string * Z)) : ProductIndex :=
  foldl (fun t a => addRecord t a.1 a.2) t adds.


Lemma length_padId id : String.length (padId id) = MAX_PRODUCT_ID_LEN.
Proof.
  unfold padId.
  generalize (MAX_PRODUCT_ID_LEN - 1)%nat as n.
  generalize MAX_PRODUCT_ID_LEN as m.
  intros m n. revert m id.
  induction n as [|n IH]; intros [|m] id; simpl; auto.
  - now rewrite length_zeros.
  - destruct id as [|c id]; simpl; [now rewrite length_zeros|].
    destruct (is_nul c); simpl; [now rewrite length_zeros|].
    now rewrite IH.
Qed.

Lemma cstr_padId id : cstr (padId id) = truncated_id id.
Proof.
  unfold padId, truncated_id. apply cstr_strncpy_s.
  rewrite length_zeros. unfold MAX_PRODUCT_ID_LEN. lia.
Qed.

Lemma same_id_eq target r :
  same_id target r = true <-> cstr target = cstr (productId r).
Proof.
  unfold same_id. rewrite <- strcmp_eq.
  destruct (strcmp target (productId r)); split; congruence.
Qed.

Lemma find_first {A} (P : A -> bool) (l : list A) : forall (i : nat) r,
  l !! i = Some r -> P r = true ->
  (forall (j : nat) a, (j < i)%nat -> l !! j = Some a -> P a = false) ->
  List.find P l = Some r.
Proof.
  induction l as [|x l IH]; intros i r Hi Hr Hlt; [discriminate|].
  destruct i as [|i]; simpl in *.
  - injection Hi as ->. now rewrite Hr.
  - rewrite (Hlt 0%nat x) by (simpl; auto; lia).
    apply (IH i); auto.
    intros j a Hj Ha. apply (Hlt (S j)); [lia|exact Ha].
Qed.

Lemma find_nothing {A} (P : A -> bool) (l : list A) :
  (forall (j : nat) a, l !! j = Some a -> P a = false) -> List.find P l = None.
Proof.
  induction l as [|x l IH]; intros H; [reflexivity|]. simpl.
  rewrite (H 0%nat x) by reflexivity.
  apply IH. intros j a Ha. apply (H (S j)). exact Ha.
Qed.

Lemma to_size_t_id z : 0 <= z < 2 ^ 64 -> to_size_t z = z.
Proof. intros H. unfold to_size_t. now apply Z.mod_small. Qed.

(** Reading at the offset the search computes for record [mid]. *)
Lemma read_record_at fs t recs mid :
  opened_on fs t recs ->
  sizeof_size_t + sizeof_ProductRecord * Z.of_nat (length recs) < 2 ^ 64 ->
  0 <= mid < Z.of_nat (length recs) ->
  read_record fs (indexFile_ t)
    (to_size_t (sizeof_size_t + to_size_t (mid * sizeof_ProductRecord))) =
  recs !! Z.to_nat mid.
Proof.
  intros (Ho & Hf & _ & _ & f & Hp & Hr) Hb Hm.
  unfold read_record.
  change sizeof_ProductRecord with 72 in *. change sizeof_size_t with 8 in *.
  rewrite (to_size_t_id (mid * _)) by lia.
  rewrite to_size_t_id by lia.
  rewrite Ho, Hf, Hp. simpl andb.
  replace (8 + mid * 72 - 8) with (mid * 72) by lia.
  rewrite Z.mod_mul by lia. rewrite Z.div_mul by lia.
  destruct (8 <=? 8 + mid * 72) eqn:E; [|lia].
  simpl. now rewrite Hr.
Qed.

(** The loop finds the record of the target id in an ascending file: below
    [left] every id is smaller than the target, from [right] on every id is
    larger. *)
Lemma binarySearch_loop_ok fs t recs target :
  opened_on fs t recs ->
  sizeof_size_t + sizeof_ProductRecord * Z.of_nat (length recs) < 2 ^ 64 ->
  ascending recs ->
  forall (fuel : nat) left right,
    0 <= left <= right -> right <= Z.of_nat (length recs) ->
    right - left <= Z.of_nat fuel ->
    (forall (i : nat) a, recs !! i = Some a -> Z.of_nat i < left ->
       strcmp target (productId a) = Gt) ->
    (forall (i : nat) a, recs !! i = Some a -> right <= Z.of_nat i ->
       strcmp target (productId a) = Lt) ->
    binarySearch_loop fuel fs t target left right = (find_id target recs, t).
Proof.
  intros Hopen Hb Hasc.
  assert (Hb' : Z.of_nat (length recs) < 2 ^ 64).
  { change sizeof_ProductRecord with 72 in Hb. change sizeof_size_t with 8 in Hb.
    lia. }
  assert (Hnone : forall left right, left = right ->
    (forall (i : nat) a, recs !! i = Some a -> Z.of_nat i < left ->
       strcmp target (productId a) = Gt) ->
    (forall (i : nat) a, recs !! i = Some a -> right <= Z.of_nat i ->
       strcmp target (productId a) = Lt) ->
    find_id target recs = None).
  { intros left right -> Hl Hr. unfold find_id.
    rewrite find_nothing; [reflexivity|].
    intros j a Ha. unfold same_id.
    destruct (Z_lt_ge_dec (Z.of_nat j) right) as [H|H].
    - now rewrite (Hl j a Ha H).
    - rewrite (Hr j a Ha); [reflexivity|lia]. }
  induction fuel as [|fuel IH]; intros left right Hlr Hlen Hfuel Hl Hr.
  - simpl. rewrite (Hnone left right); auto. lia.
  - simpl. destruct (left <? right) eqn:E.
    2: { rewrite (Hnone left right); auto. lia. }
    apply Z.ltb_lt in E.
    rewrite (to_size_t_id (right - left)) by lia.
    set (mid := left + (right - left) / 2).
    assert (Hmid : left <= mid < right).
    { unfold mid. split.
      - pose proof (Z.div_pos (right - left) 2). lia.
      - assert ((right - left) / 2 < right - left) by (apply Z.div_lt; lia). lia. }
    rewrite (to_size_t_id mid) by lia.
    rewrite (read_record_at fs t recs mid) by (auto; lia).
    destruct (recs !! Z.to_nat mid) as [record|] eqn:Hrec.
    2: { apply lookup_ge_None in Hrec. lia. }
    destruct (strcmp target (productId record)) eqn:Hcmp.
    + unfold find_id.
      rewrite (find_first _ recs (Z.to_nat mid) record); auto.
      * unfold same_id. now rewrite Hcmp.
      * intros j a Hj Ha. unfold same_id.
        rewrite (strcmp_eq_l _ _ _ Hcmp).
        pose proof (Hasc j (Z.to_nat mid) a record Ha Hrec Hj) as Hlt.
        apply strcmp_gt_lt in Hlt. now rewrite Hlt.
    + apply IH; try lia; auto.
      intros i a Ha Hi.
      destruct (decide (i = Z.to_nat mid)) as [->|Hne].
      * rewrite Hrec in Ha. now injection Ha as <-.
      * apply (strcmp_lt_trans _ (productId record)); auto.
        apply (Hasc (Z.to_nat mid) i); auto. lia.
    + rewrite (to_size_t_id (mid + 1)) by lia.
      apply IH; try lia; auto.
      intros i a Ha Hi.
      destruct (decide (i = Z.to_nat mid)) as [->|Hne].
      * rewrite Hrec in Ha. now injection Ha as <-.
      * apply strcmp_gt_lt. apply (strcmp_lt_trans _ (productId record)).
        -- apply (Hasc i (Z.to_nat mid)); auto. lia.
        -- now apply strcmp_gt_lt.
Qed.

Lemma lookup_find fs t recs id :
  opened_on fs t recs ->
  sizeof_size_t + sizeof_ProductRecord * Z.of_nat (length recs) < 2 ^ 64 ->
  ascending recs ->
  lookup fs t id = (find_id (padId id) recs, t).
Proof.
  intros Hopen Hb Hasc.
  pose proof Hopen as (_ & _ & Hio & Hcount & _).
  unfold lookup. rewrite Hio. simpl.
  destruct (recordCount_ t =? 0) eqn:E.
  - apply Z.eqb_eq in E. destruct recs; [reflexivity|].
    rewrite Hcount in E. simpl in E. lia.
  - unfold binarySearch.
    rewrite Hcount.
    apply (binarySearch_loop_ok fs t recs); auto; try lia.
    intros i a Ha Hi. apply lookup_lt_Some in Ha. lia.
Qed.

(** ** Sorted records *)

Lemma not_after_trans a b c : not_after a b -> not_after b c -> not_after a c.
Proof.
  unfold not_after, ProductRecord_lt. intros Hab Hbc.
  destruct (strcmp (productId c) (productId a)) eqn:Hca; auto.
  destruct (strcmp (productId b) (productId a)) eqn:Hba; [| discriminate |].
  - rewrite (strcmp_eq_r _ _ (productId c) Hba) in Hbc.
    now rewrite Hca in Hbc.
  - apply strcmp_gt_lt in Hba.
    now rewrite (strcmp_lt_trans _ _ _ Hca Hba) in Hbc.
Qed.

Lemma not_after_total a b : not_after a b \/ not_after b a.
Proof.
  unfold not_after, ProductRecord_lt.
  rewrite (strcmp_antisym (productId b) (productId a)).
  destruct (strcmp (productId a) (productId b)); simpl; auto.
Qed.

Lemma strongly_sorted_lookup {A} (R : A -> A -> Prop) (l : list A) :
  StronglySorted R l ->
  forall (i j : nat) a b, l !! i = Some a -> l !! j = Some b -> (i < j)%nat -> R a b.
Proof.
  induction 1 as [|x l Hs IH Hall]; intros i j a b Hi Hj Hij; [discriminate|].
  destruct j as [|j]; [lia|]. simpl in Hj.
  destruct i as [|i]; simpl in Hi.
  - injection Hi as <-. rewrite Forall_forall in Hall.
    apply Hall. eapply list_elem_of_lookup_2. exact Hj.
  - apply (IH i j); auto. lia.
Qed.

Lemma sorted_ascending (l : list ProductRecord) :
  Sorted not_after l -> NoDup ((fun r => cstr (productId r)) <$> l) -> ascending l.
Proof.
  intros Hs Hnd i j a b Hi Hj Hij.
  apply Sorted_StronglySorted in Hs; [|exact not_after_trans].
  pose proof (strongly_sorted_lookup _ _ Hs i j a b Hi Hj Hij) as Hab.
  unfold not_after, ProductRecord_lt in Hab.
  destruct (strcmp (productId a) (productId b)) eqn:E; auto.
  - apply strcmp_eq in E.
    assert (i = j); [|lia].
    apply (NoDup_lookup _ i j (cstr (productId a)) Hnd).
    + now rewrite list_lookup_fmap, Hi.
    + now rewrite list_lookup_fmap, Hj, E.
  - apply strcmp_gt_lt in E. now rewrite E in Hab.
Qed.

Lemma fmap_nodup_inj {A B} (f : A -> B) (l : list A) x y :
  NoDup (f <$> l) -> x ∈ l -> y ∈ l -> f x = f y -> x = y.
Proof.
  intros Hnd Hx Hy Hf.
  apply list_elem_of_lookup in Hx as [i Hi]. apply list_elem_of_lookup in Hy as [j Hj].
  assert (i = j) as ->.
  { apply (NoDup_lookup _ i j (f x) Hnd).
    - now rewrite list_lookup_fmap, Hi.
    - now rewrite list_lookup_fmap, Hj, Hf. }
  congruence.
Qed.

(** ** What a search finds among the records made from a list of calls *)

Definition record_of (a : string * Z) : ProductRecord := ProductRecord_of a.1 a.2.

Definition id_of (a : string * Z) : string := truncated_id a.1.

Lemma find_id_added (adds : list (string * Z)) recs id key :
  recs ≡ₚ record_of <$> adds -> NoDup (id_of <$> adds) -> (id, key) ∈ adds ->
  find_id (padId id) recs = Some key.
Proof.
  intros Hp Hnd Hin. unfold find_id.
  destruct (List.find (same_id (padId id)) recs) as [r|] eqn:E.
  - apply find_some in E as [Hr Hs].
    apply list_elem_of_In in Hr. rewrite Hp in Hr.
    apply list_elem_of_fmap in Hr as ([id' key'] & -> & Hin').
    apply same_id_eq in Hs. unfold record_of in Hs. simpl in Hs.
    rewrite !cstr_padId in Hs.
    assert ((id, key) = (id', key')) as H.
    { apply (fmap_nodup_inj id_of adds); auto. }
    injection H as -> ->. reflexivity.
  - exfalso.
    assert (Hr : record_of (id, key) ∈ recs).
    { rewrite Hp. apply list_elem_of_fmap. eauto. }
    apply list_elem_of_In in Hr.
    pose proof (find_none _ _ E _ Hr) as Hs.
    assert (same_id (padId id) (record_of (id, key)) = true) as Ht.
    { apply same_id_eq. reflexivity. }
    congruence.
Qed.

Lemma find_id_not_added (adds : list (string * Z)) recs id :
  recs ≡ₚ record_of <$> adds -> truncated_id id ∉ id_of <$> adds ->
  find_id (padId id) recs = None.
Proof.
  intros Hp Hnot. unfold find_id.
  destruct (List.find (same_id (padId id)) recs) as [r|] eqn:E; [|reflexivity].
  exfalso. apply find_some in E as [Hr Hs].
  apply list_elem_of_In in Hr. rewrite Hp in Hr.
  apply list_elem_of_fmap in Hr as ([id' key'] & -> & Hin').
  apply same_id_eq in Hs. unfold record_of in Hs. simpl in Hs.
  rewrite !cstr_padId in Hs.
  apply Hnot. apply list_elem_of_fmap. exists (id', key'). auto.
Qed.

Lemma buffer_addRecords adds : forall t,
  buffer_ (addRecords t adds) = buffer_ t ++ (record_of <$> adds).
Proof.
  induction adds as [|a adds IH]; intros t; simpl.
  - now rewrite app_nil_r.
  - unfold addRecords in IH. rewrite IH. simpl. now rewrite <- app_assoc.
Qed.

(** ** Opening and building *)

Lemma openIndex_ok (fs : FS) t p recs :
  fs !! p = Some (mkIndexFile (Some (Z.of_nat (length recs))) recs) ->
  Z.of_nat (length recs) < 2 ^ 64 ->
  exists t', openIndex fs t p = (true, t') /\ opened_on fs t' recs /\
             buffer_ t' = buffer_ t.
Proof.
  intros Hp Hlen. unfold openIndex. rewrite Hp. simpl.
  eexists. split; [reflexivity|]. split.
  - unfold opened_on. simpl. repeat split; auto.
    + apply to_size_t_id. lia.
    + eexists. split; [exact Hp|reflexivity].
  - unfold closeIndex. now destruct (is_open (indexFile_ t)).
Qed.

(** With records in the buffer and a file that can be made, [buildIndex]
    returns true: the file holds the sorted records and the index is open
    on it, its buffer empty. *)
Lemma buildIndex_ok (fs : FS) t p :
  sort_spec -> buffer_ t <> [] -> creatable p = true ->
  Z.of_nat (length (buffer_ t)) < 2 ^ 64 ->
  exists fs' t', buildIndex fs t p = (true, fs', t') /\
    fs' = <[p := mkIndexFile (Some (Z.of_nat (length (buffer_ t))))
                             (std_sort (buffer_ t))]> fs /\
    opened_on fs' t' (std_sort (buffer_ t)) /\ buffer_ t' = [].
Proof.
  intros Hsort Hne Hc Hlen. unfold buildIndex.
  destruct (buffer_ t) as [|r l] eqn:Hb; [congruence|].
  rewrite Hc. simpl negb. cbv iota.
  destruct (Hsort (r :: l)) as [Hperm _].
  assert (Hl : length (std_sort (r :: l)) = length (r :: l)) by now rewrite Hperm.
  set (fs' := <[p := _]> fs).
  set (t2 := set_buffer (set_buffer t _) []).
  destruct (openIndex_ok fs' t2 p (std_sort (r :: l))) as (t' & Ho & Hop & Hbuf).
  { unfold fs'. cbn [buffer_ set_buffer]. now rewrite lookup_insert_eq. }
  { rewrite Hl. exact Hlen. }
  rewrite Ho. exists fs', t'. split; [reflexivity|].
  split; [|split; auto].
  unfold fs'. cbn [buffer_ set_buffer]. now rewrite Hl.
Qed.

(** When [buildIndex] returns true, records were waiting and the file could
    be made. *)
Lemma buildIndex_true (fs : FS) t p fs' t' :
  buildIndex fs t p = (true, fs', t') -> buffer_ t <> [] /\ creatable p = true.
Proof.
  unfold buildIndex. destruct (buffer_ t) as [|r l]; [discriminate|].
  destruct (creatable p); [|discriminate]. auto.
Qed.

(** C8. After any run of [addRecord] calls whose ids are pairwise distinct
    once truncated to 63 characters, followed by a [buildIndex] that returns
    true, [lookup] of every added id returns true with the key added for it,
    and [lookup] of an id that is, after truncation, none of the added ones
    returns false.  The search is the binary search of [binarySearch_loop]
    over the sorted records of the file. *)
Theorem lookup_after_buildIndex (fs : FS) (t0 : ProductIndex)
  (adds : list (string * Z)) (p : string) (fs' : FS) (t' : ProductIndex) :
  sort_spec ->
  buffer_ t0 = [] ->
  NoDup (id_of <$> adds) ->
  sizeof_size_t + sizeof_ProductRecord * Z.of_nat (length adds) < 2 ^ 64 ->
  buildIndex fs (addRecords t0 adds) p = (true, fs', t') ->
  (forall id key, (id, key) ∈ adds -> lookup fs' t' id = (Some key, t')) /\
  (forall id, truncated_id id ∉ id_of <$> adds -> lookup fs' t' id = (None, t')).
Proof.
  intros Hsort Hb0 Hnd Hsize Hbuild.
  destruct (buildIndex_true _ _ _ _ _ Hbuild) as [Hne Hc].
  assert (Hbuf : buffer_ (addRecords t0 adds) = record_of <$> adds).
  { now rewrite buffer_addRecords, Hb0. }
  assert (Hlen : length (buffer_ (addRecords t0 adds)) = length adds).
  { now rewrite Hbuf, length_fmap. }
  change sizeof_ProductRecord with 72 in Hsize. change sizeof_size_t with 8 in Hsize.
  destruct (buildIndex_ok fs (addRecords t0 adds) p Hsort Hne Hc)
    as (fs1 & t1 & Hbuild' & _ & Hopen & _); [lia|].
  rewrite Hbuild in Hbuild'. injection Hbuild' as <- <-.
  destruct (Hsort (buffer_ (addRecords t0 adds))) as [Hperm Hsorted].
  set (recs := std_sort (buffer_ (addRecords t0 adds))) in *.
  assert (Hrecs : recs ≡ₚ record_of <$> adds) by now rewrite <- Hbuf.
  assert (Hasc : ascending recs).
  { apply sorted_ascending; [exact Hsorted|].
    rewrite Hrecs, <- list_fmap_compose.
    erewrite list_fmap_ext; [exact Hnd|].
    intros i [id key] _. unfold id_of, record_of. simpl. apply cstr_padId. }
  assert (Hfind : forall id, lookup fs' t' id = (find_id (padId id) recs, t')).
  { intros id. apply lookup_find; auto.
    change sizeof_ProductRecord with 72. change sizeof_size_t with 8.
    rewrite Hperm, Hlen. lia. }
  split.
  - intros id key Hin. rewrite Hfind. f_equal.
    now apply (find_id_added adds).
  - intros id Hnot. rewrite Hfind. f_equal.
    now apply (find_id_not_added adds).
Qed.

(** C10, as the code has it: with an empty buffer [buildIndex] returns
    false at once; no file is written or truncated and the index is left as
    it was, closed if it was closed and open if it was open. *)
Theorem buildIndex_empty_buffer (fs : FS) (t : ProductIndex) (p : string) :
  buffer_ t = [] -> buildIndex fs t p = (false, fs, t).
Proof. intros H. unfold buildIndex. now rewrite H. Qed.

(** A newly made index is closed, and stays so through [buildIndex] on its
    empty buffer. *)
Lemma buildIndex_new_closed (fs : FS) (p : string) :
  buildIndex fs ProductIndex_new p = (false, fs, ProductIndex_new) /\
  isOpen_ ProductIndex_new = false.
Proof. split; reflexivity. Qed.

(** ** Further properties of the flat-file index *)

Lemma set_fail_failed t : failbit (indexFile_ t) = true -> set_fail t = t.
Proof.
  destruct t as [b [o p fb] c io]. simpl. intros ->. reflexivity.
Qed.

(** The loop leaves the index as it was, or fails its stream and answers
    false. *)
Lemma binarySearch_loop_state fs target fuel : forall t left right r t',
  binarySearch_loop fuel fs t target left right = (r, t') ->
  t' = t \/ (r = None /\ t' = set_fail t).
Proof.
  induction fuel as [|fuel IH]; intros t left right r t' H; simpl in H.
  - injection H as <- <-. auto.
  - destruct (left <? right); [|injection H as <- <-; auto].
    destruct (read_record fs (indexFile_ t) _) as [record|];
      [|injection H as <- <-; auto].
    destruct (strcmp target (productId record)).
    + injection H as <- <-. auto.
    + eapply IH. exact H.
    + eapply IH. exact H.
Qed.

Lemma read_record_failed fs s pos : failbit s = true -> read_record fs s pos = None.
Proof. intros H. unfold read_record. rewrite H. now rewrite andb_false_r. Qed.

Lemma binarySearch_loop_failed fs target t fuel left right :
  failbit (indexFile_ t) = true ->
  binarySearch_loop fuel fs t target left right = (None, t).
Proof.
  intros Hf. destruct fuel as [|fuel]; simpl; [reflexivity|].
  destruct (left <? right); [|reflexivity].
  rewrite read_record_failed by exact Hf. now rewrite set_fail_failed.
Qed.

Lemma lookup_failed fs t id :
  failbit (indexFile_ t) = true -> lookup fs t id = (None, t).
Proof.
  intros Hf. unfold lookup.
  destruct (negb (isOpen_ t) || (recordCount_ t =? 0)); [reflexivity|].
  apply binarySearch_loop_failed. exact Hf.
Qed.

Lemma lookup_state fs t id r t' :
  lookup fs t id = (r, t') -> t' = t \/ (r = None /\ t' = set_fail t).
Proof.
  unfold lookup.
  destruct (negb (isOpen_ t) || (recordCount_ t =? 0)).
  - intros [= <- <-]. auto.
  - apply binarySearch_loop_state.
Qed.

Lemma closeIndex_fields t :
  isOpen_ (closeIndex t) = false /\ recordCount_ (closeIndex t) = 0 /\
  buffer_ (closeIndex t) = buffer_ t /\ is_open (indexFile_ (closeIndex t)) = false.
Proof.
  unfold closeIndex. destruct (is_open (indexFile_ t)) eqn:E; simpl; auto.
Qed.

Lemma lookup_closed fs t id : isOpen_ t = false -> lookup fs t id = (None, t).
Proof. intros H. unfold lookup. now rewrite H. Qed.

Lemma containsRecord_lookup fs t id r t' :
  lookup fs t id = (r, t') ->
  containsRecord fs t id = (match r with Some _ => true | None => false end, t').
Proof.
  intros H. unfold containsRecord. rewrite H. f_equal.
  destruct r; [apply bool_decide_eq_true_2; discriminate
              |apply bool_decide_eq_false_2; intros Hn; now apply Hn].
Qed.

(** The search over records that ascend but may repeat an id: what it
    returns is the key of a record with the target's id, and it returns
    nothing only when no record has that id. *)
Definition nondescending (recs : list ProductRecord) : Prop :=
  forall (i j : nat) a b, recs !! i = Some a -> recs !! j = Some b -> (i < j)%nat ->
    strcmp (productId a) (productId b) <> Gt.

Lemma binarySearch_loop_any fs t recs target :
  opened_on fs t recs ->
  sizeof_size_t + sizeof_ProductRecord * Z.of_nat (length recs) < 2 ^ 64 ->
  nondescending recs ->
  forall (fuel : nat) left right,
    0 <= left <= right -> right <= Z.of_nat (length recs) ->
    right - left <= Z.of_nat fuel ->
    (forall (i : nat) a, recs !! i = Some a -> Z.of_nat i < left ->
       strcmp target (productId a) = Gt) ->
    (forall (i : nat) a, recs !! i = Some a -> right <= Z.of_nat i ->
       strcmp target (productId a) = Lt) ->
    exists r, binarySearch_loop fuel fs t target left right = (r, t) /\
      (forall key, r = Some key ->
         exists a, a ∈ recs /\ same_id target a = true /\ nodeKey a = key) /\
      (r = None -> forall a, a ∈ recs -> same_id target a = false).
Proof.
  intros Hopen Hb Hnd.
  assert (Hb' : Z.of_nat (length recs) < 2 ^ 64).
  { change sizeof_ProductRecord with 72 in Hb. change sizeof_size_t with 8 in Hb.
    lia. }
  assert (Hnone : forall left right, left = right ->
    (forall (i : nat) a, recs !! i = Some a -> Z.of_nat i < left ->
       strcmp target (productId a) = Gt) ->
    (forall (i : nat) a, recs !! i = Some a -> right <= Z.of_nat i ->
       strcmp target (productId a) = Lt) ->
    forall a, a ∈ recs -> same_id target a = false).
  { intros left right -> Hl Hr a Ha.
    apply list_elem_of_lookup in Ha as [j Ha]. unfold same_id.
    destruct (Z_lt_ge_dec (Z.of_nat j) right) as [H|H].
    - now rewrite (Hl j a Ha H).
    - rewrite (Hr j a Ha); [reflexivity|lia]. }
  induction fuel as [|fuel IH]; intros left right Hlr Hlen Hfuel Hl Hr.
  - exists None. split; [reflexivity|]. split; [discriminate|].
    intros _. apply (Hnone left right); auto. lia.
  - simpl. destruct (left <? right) eqn:E.
    2: { exists None. split; [reflexivity|]. split; [discriminate|].
         intros _. apply (Hnone left right); auto. lia. }
    apply Z.ltb_lt in E.
    rewrite (to_size_t_id (right - left)) by lia.
    set (mid := left + (right - left) / 2).
    assert (Hmid : left <= mid < right).
    { unfold mid. split.
      - pose proof (Z.div_pos (right - left) 2). lia.
      - assert ((right - left) / 2 < right - left) by (apply Z.div_lt; lia). lia. }
    rewrite (to_size_t_id mid) by lia.
    rewrite (read_record_at fs t recs mid) by (auto; lia).
    destruct (recs !! Z.to_nat mid) as [record|] eqn:Hrec.
    2: { apply lookup_ge_None in Hrec. lia. }
    destruct (strcmp target (productId record)) eqn:Hcmp.
    + exists (Some (nodeKey record)). split; [reflexivity|]. split; [|discriminate].
      intros key [= <-]. exists record. split; [|split; auto].
      * eapply list_elem_of_lookup_2. exact Hrec.
      * unfold same_id. now rewrite Hcmp.
    + apply IH; try lia; auto.
      intros i a Ha Hi.
      destruct (decide (i = Z.to_nat mid)) as [->|Hne].
      * rewrite Hrec in Ha. now injection Ha as <-.
      * assert (Hra : strcmp (productId record) (productId a) <> Gt).
        { apply (Hnd (Z.to_nat mid) i); auto. lia. }
        destruct (strcmp (productId record) (productId a)) eqn:Hc; [| |congruence].
        -- now rewrite <- (strcmp_eq_r _ _ target Hc).
        -- now apply (strcmp_lt_trans _ (productId record)).
    + rewrite (to_size_t_id (mid + 1)) by lia.
      apply IH; try lia; auto.
      intros i a Ha Hi.
      destruct (decide (i = Z.to_nat mid)) as [->|Hne].
      * rewrite Hrec in Ha. now injection Ha as <-.
      * assert (Har : strcmp (productId a) (productId record) <> Gt).
        { apply (Hnd i (Z.to_nat mid)); auto. lia. }
        apply strcmp_gt_lt in Hcmp.
        destruct (strcmp (productId a) (productId record)) eqn:Hc; [| |congruence].
        -- apply strcmp_gt_lt. now rewrite (strcmp_eq_l _ _ target Hc).
        -- apply strcmp_gt_lt. now apply (strcmp_lt_trans _ (productId record)).
Qed.

Lemma sorted_nondescending (l : list ProductRecord) :
  Sorted not_after l -> nondescending l.
Proof.
  intros Hs i j a b Hi Hj Hij.
  apply Sorted_StronglySorted in Hs; [|exact not_after_trans].
  pose proof (strongly_sorted_lookup _ _ Hs i j a b Hi Hj Hij) as Hab.
  unfold not_after, ProductRecord_lt in Hab. intros Hgt.
  apply strcmp_gt_lt in Hgt. now rewrite Hgt in Hab.
Qed.

Lemma lookup_any fs t recs id :
  opened_on fs t recs ->
  sizeof_size_t + sizeof_ProductRecord * Z.of_nat (length recs) < 2 ^ 64 ->
  nondescending recs ->
  exists r, lookup fs t id = (r, t) /\
    (forall key, r = Some key ->
       exists a, a ∈ recs /\ same_id (padId id) a = true /\ nodeKey a = key) /\
    (r = None -> forall a, a ∈ recs -> same_id (padId id) a = false).
Proof.
  intros Hopen Hb Hnd.
  pose proof Hopen as (_ & _ & Hio & Hcount & _).
  unfold lookup. rewrite Hio. simpl.
  destruct (recordCount_ t =? 0) eqn:E.
  - apply Z.eqb_eq in E. exists None. split; [reflexivity|]. split; [discriminate|].
    intros _ a Ha. destruct recs; [inversion Ha|].
    rewrite Hcount in E. simpl in E. lia.
  - unfold binarySearch. rewrite Hcount.
    apply (binarySearch_loop_any fs t recs); auto; try lia.
    intros i a Ha Hi. apply lookup_lt_Some in Ha. lia.
Qed.

(** What a successful [buildIndex] leaves: see [buildIndex_ok]; here with
    the calls that filled the buffer. *)
Lemma built_from_adds (fs : FS) t0 adds p fs' t' :
  sort_spec -> buffer_ t0 = [] ->
  sizeof_size_t + sizeof_ProductRecord * Z.of_nat (length adds) < 2 ^ 64 ->
  buildIndex fs (addRecords t0 adds) p = (true, fs', t') ->
  exists recs,
    fs' = <[p := mkIndexFile (Some (Z.of_nat (length adds))) recs]> fs /\
    recs ≡ₚ record_of <$> adds /\ Sorted not_after recs /\
    opened_on fs' t' recs /\ buffer_ t' = [] /\
    sizeof_size_t + sizeof_ProductRecord * Z.of_nat (length recs) < 2 ^ 64.
Proof.
  intros Hsort Hb0 Hsize Hbuild.
  destruct (buildIndex_true _ _ _ _ _ Hbuild) as [Hne Hc].
  assert (Hbuf : buffer_ (addRecords t0 adds) = record_of <$> adds).
  { now rewrite buffer_addRecords, Hb0. }
  assert (Hlen : length (buffer_ (addRecords t0 adds)) = length adds).
  { now rewrite Hbuf, length_fmap. }
  pose proof Hsize as Hsize'.
  change sizeof_ProductRecord with 72 in Hsize'. change sizeof_size_t with 8 in Hsize'.
  destruct (buildIndex_ok fs (addRecords t0 adds) p Hsort Hne Hc)
    as (fs1 & t1 & Hbuild' & Hfs & Hopen & Hempty); [lia|].
  rewrite Hbuild in Hbuild'. injection Hbuild' as <- <-.
  destruct (Hsort (buffer_ (addRecords t0 adds))) as [Hperm Hsorted].
  exists (std_sort (buffer_ (addRecords t0 adds))).
  split; [now rewrite Hfs, Hlen|]. split; [now rewrite Hperm, Hbuf|].
  split; [exact Hsorted|]. split; [exact Hopen|]. split; [exact Hempty|].
  now rewrite Hperm, Hlen.
Qed.

Lemma same_id_record_of id a :
  same_id (padId id) (record_of a) = true <-> truncated_id id = id_of a.
Proof.
  rewrite same_id_eq. unfold record_of, id_of. simpl. now rewrite !cstr_padId.
Qed.

Lemma ascending_from_adds (adds : list (string * Z)) recs :
  recs ≡ₚ record_of <$> adds -> Sorted not_after recs -> NoDup (id_of <$> adds) ->
  ascending recs.
Proof.
  intros Hrecs Hsorted Hnd. apply sorted_ascending; [exact Hsorted|].
  rewrite Hrecs, <- list_fmap_compose.
  erewrite list_fmap_ext; [exact Hnd|].
  intros i [id key] _. unfold id_of, record_of. simpl. apply cstr_padId.
Qed.

Lemma closeIndex_closed t : isOpen_ t = false -> recordCount_ t = 0 ->
  is_open (indexFile_ t) = false -> closeIndex t = t.
Proof.
  destruct t as [b [o p fb] c io]. simpl. intros -> -> ->. reflexivity.
Qed.

(** X14. After [closeIndex] every [lookup] and [containsRecord] answers
    false and changes nothing, [getRecordCount] is 0, the records waiting in
    the buffer are still there, and closing again does nothing. *)
Theorem closed_index_finds_nothing (fs : FS) (t : ProductIndex) (id : string) :
  lookup fs (closeIndex t) id = (None, closeIndex t) /\
  containsRecord fs (closeIndex t) id = (false, closeIndex t) /\
  getRecordCount (closeIndex t) = 0 /\
  buffer_ (closeIndex t) = buffer_ t /\
  closeIndex (closeIndex t) = closeIndex t.
Proof.
  destruct (closeIndex_fields t) as (Hio & Hc & Hb & Ho).
  assert (Hl : lookup fs (closeIndex t) id = (None, closeIndex t))
    by now apply lookup_closed.
  split; [exact Hl|].
  split; [now rewrite (containsRecord_lookup _ _ _ _ _ Hl)|].
  split; [exact Hc|]. split; [exact Hb|].
  now apply closeIndex_closed.
Qed.

(** X15. [openIndex] on a path that holds no file, or a file too short
    to hold the count, returns false and leaves the index closed, also when
    it was open on another file before the call; the buffer is kept and
    every later [lookup] answers false. *)
Theorem openIndex_fails (fs : FS) (t : ProductIndex) (p : string) :
  fs !! p = None \/ (exists f, fs !! p = Some f /\ header f = None) ->
  exists t', openIndex fs t p = (false, t') /\
    isOpen_ t' = false /\ getRecordCount t' = 0 /\ buffer_ t' = buffer_ t /\
    forall fs2 id, lookup fs2 t' id = (None, t').
Proof.
  destruct (closeIndex_fields t) as (Hio & Hc & Hb & Ho).
  intros [Hnone|(f & Hf & Hh)]; unfold openIndex.
  - rewrite Hnone. eexists. split; [reflexivity|].
    split; [exact Hio|]. split; [exact Hc|]. split; [exact Hb|].
    intros fs2 id. apply lookup_closed. exact Hio.
  - rewrite Hf, Hh. eexists. split; [reflexivity|].
    split; [reflexivity|]. split; [reflexivity|]. split; [exact Hb|].
    intros fs2 id. apply lookup_closed. reflexivity.
Qed.

(** X16. An index file written by [buildIndex] can be opened by any
    index object, a new one or one used before: [openIndex] returns true,
    [getRecordCount] is the number of records added, and [lookup] answers
    as it does on the object that built the file. *)
Theorem build_then_openIndex (fs : FS) (t0 : ProductIndex)
  (adds : list (string * Z)) (p : string) (fs' : FS) (t' u : ProductIndex) :
  sort_spec ->
  buffer_ t0 = [] ->
  NoDup (id_of <$> adds) ->
  sizeof_size_t + sizeof_ProductRecord * Z.of_nat (length adds) < 2 ^ 64 ->
  buildIndex fs (addRecords t0 adds) p = (true, fs', t') ->
  exists u', openIndex fs' u p = (true, u') /\
    getRecordCount u' = Z.of_nat (length adds) /\
    buffer_ u' = buffer_ u /\
    (forall id key, (id, key) ∈ adds -> lookup fs' u' id = (Some key, u')) /\
    (forall id, truncated_id id ∉ id_of <$> adds -> lookup fs' u' id = (None, u')).
Proof.
  intros Hsort Hb0 Hnd Hsize Hbuild.
  destruct (built_from_adds fs t0 adds p fs' t' Hsort Hb0 Hsize Hbuild)
    as (recs & Hfs & Hrecs & Hsorted & _ & _ & Hsize').
  assert (Hlen : length recs = length adds) by now rewrite Hrecs, length_fmap.
  destruct (openIndex_ok fs' u p recs) as (u' & Ho & Hopen & Hbuf).
  { rewrite Hfs, lookup_insert_eq, Hlen. reflexivity. }
  { change sizeof_ProductRecord with 72 in Hsize'. change sizeof_size_t with 8 in Hsize'.
    lia. }
  exists u'. split; [exact Ho|].
  split. { destruct Hopen as (_ & _ & _ & Hc & _). unfold getRecordCount. now rewrite Hc, Hlen. }
  split; [exact Hbuf|].
  pose proof (ascending_from_adds adds recs Hrecs Hsorted Hnd) as Hasc.
  split.
  - intros id key Hin. rewrite (lookup_find fs' u' recs id Hopen Hsize' Hasc).
    f_equal. now apply (find_id_added adds).
  - intros id Hnot. rewrite (lookup_find fs' u' recs id Hopen Hsize' Hasc).
    f_equal. now apply (find_id_not_added adds).
Qed.

(** X17. When ids repeat among the [addRecord] calls, [lookup] after a
    successful [buildIndex] still never errs on the id: a true answer
    yields the key of one of the records added under that id (after
    truncation), and the answer is false only for an id that was not
    added. *)
Theorem lookup_with_repeated_ids (fs : FS) (t0 : ProductIndex)
  (adds : list (string * Z)) (p : string) (fs' : FS) (t' : ProductIndex) (id : string) :
  sort_spec ->
  buffer_ t0 = [] ->
  sizeof_size_t + sizeof_ProductRecord * Z.of_nat (length adds) < 2 ^ 64 ->
  buildIndex fs (addRecords t0 adds) p = (true, fs', t') ->
  exists r, lookup fs' t' id = (r, t') /\
    (forall key, r = Some key ->
       exists id', (id', key) ∈ adds /\ truncated_id id' = truncated_id id) /\
    (r = None -> truncated_id id ∉ id_of <$> adds).
Proof.
  intros Hsort Hb0 Hsize Hbuild.
  destruct (built_from_adds fs t0 adds p fs' t' Hsort Hb0 Hsize Hbuild)
    as (recs & _ & Hrecs & Hsorted & Hopen & _ & Hsize').
  destruct (lookup_any fs' t' recs id Hopen Hsize' (sorted_nondescending _ Hsorted))
    as (r & Hl & Hsome & Hnone).
  exists r. split; [exact Hl|]. split.
  - intros key Hr. destruct (Hsome key Hr) as (a & Ha & Hid & Hkey).
    rewrite Hrecs in Ha. apply list_elem_of_fmap in Ha as ([id' key'] & -> & Hin).
    apply same_id_record_of in Hid. simpl in Hkey. subst key'.
    exists id'. split; [exact Hin|]. now rewrite Hid.
  - intros Hr Hin. apply list_elem_of_fmap in Hin as (a & Hid & Hin).
    assert (Ha : record_of a ∈ recs).
    { rewrite Hrecs. apply list_elem_of_fmap. eauto. }
    pose proof (Hnone Hr _ Ha) as Hf.
    apply same_id_record_of in Hid. congruence.
Qed.

(** X18. When the output file cannot be made, [buildIndex] returns
    false and no file changes; the records stay in the buffer (sorted by
    then), so the build can be tried again, and the index is as open or
    closed as before. *)
Theorem buildIndex_cannot_create (fs : FS) (t : ProductIndex) (p : string) :
  sort_spec -> buffer_ t <> [] -> creatable p = false ->
  exists t', buildIndex fs t p = (false, fs, t') /\
    buffer_ t' ≡ₚ buffer_ t /\ Sorted not_after (buffer_ t') /\
    isOpen_ t' = isOpen_ t /\ recordCount_ t' = recordCount_ t /\
    indexFile_ t' = indexFile_ t.
Proof.
  intros Hsort Hne Hc. unfold buildIndex.
  destruct (buffer_ t) as [|r l] eqn:Hb; [congruence|].
  rewrite Hc. simpl negb. cbv iota.
  destruct (Hsort (r :: l)) as [Hperm Hsorted].
  eexists. split; [reflexivity|]. simpl. auto.
Qed.

(** X19. A read that fails during the search makes [lookup] answer
    false and leaves the stream failed; from then on every [lookup] and
    [containsRecord] on that index answers false, whatever the files
    hold. *)
Theorem lookup_failure_is_sticky (fs : FS) (t : ProductIndex) (id : string)
  (r : option Z) (t' : ProductIndex) :
  lookup fs t id = (r, t') -> failbit (indexFile_ t') = true ->
  r = None /\
  forall fs2 id2, lookup fs2 t' id2 = (None, t') /\
                  containsRecord fs2 t' id2 = (false, t').
Proof.
  intros Hl Hf. split.
  - destruct (lookup_state _ _ _ _ _ Hl) as [->|[-> _]]; [|reflexivity].
    rewrite (lookup_failed fs t id Hf) in Hl. now injection Hl as <-.
  - intros fs2 id2.
    pose proof (lookup_failed fs2 t' id2 Hf) as Hl2.
    split; [exact Hl2|]. now rewrite (containsRecord_lookup _ _ _ _ _ Hl2).
Qed.

(** X20. After a successful [buildIndex], [containsRecord] answers true
    exactly for the ids that were added (ids compared after truncation to
    63 characters), whether or not ids repeat, and leaves the index as it
    was. *)
Theorem containsRecord_after_buildIndex (fs : FS) (t0 : ProductIndex)
  (adds : list (string * Z)) (p : string) (fs' : FS) (t' : ProductIndex) (id : string) :
  sort_spec ->
  buffer_ t0 = [] ->
  sizeof_size_t + sizeof_ProductRecord * Z.of_nat (length adds) < 2 ^ 64 ->
  buildIndex fs (addRecords t0 adds) p = (true, fs', t') ->
  containsRecord fs' t' id = (bool_decide (truncated_id id ∈ id_of <$> adds), t').
Proof.
  intros Hsort Hb0 Hsize Hbuild.
  destruct (built_from_adds fs t0 adds p fs' t' Hsort Hb0 Hsize Hbuild)
    as (recs & _ & Hrecs & Hsorted & Hopen & _ & Hsize').
  destruct (lookup_any fs' t' recs id Hopen Hsize' (sorted_nondescending _ Hsorted))
    as (r & Hl & Hsome & Hnone).
  rewrite (containsRecord_lookup _ _ _ _ _ Hl). f_equal.
  destruct r as [key|]; symmetry.
  - apply bool_decide_eq_true_2.
    destruct (Hsome key eq_refl) as (a & Ha & Hid & _).
    rewrite Hrecs in Ha. apply list_elem_of_fmap in Ha as (b & -> & Hin).
    apply same_id_record_of in Hid. rewrite Hid.
    apply list_elem_of_fmap. eauto.
  - apply bool_decide_eq_false_2. intros Hin.
    apply list_elem_of_fmap in Hin as (a & Hid & Hin).
    assert (Ha : record_of a ∈ recs).
    { rewrite Hrecs. apply list_elem_of_fmap. eauto. }
    pose proof (Hnone eq_refl _ Ha) as Hf.
    apply same_id_record_of in Hid. congruence.
Qed.

(** X21. Ids are told apart by their first 63 characters only: after a
    successful [buildIndex] over distinct ids, [lookup] of any string that
    agrees with an added id on those characters returns the key added for
    that id. *)
Theorem lookup_ids_agree_on_prefix (fs : FS) (t0 : ProductIndex)
  (adds : list (string * Z)) (p : string) (fs' : FS) (t' : ProductIndex)
  (id id' : string) (key : Z) :
  sort_spec ->
  buffer_ t0 = [] ->
  NoDup (id_of <$> adds) ->
  sizeof_size_t + sizeof_ProductRecord * Z.of_nat (length adds) < 2 ^ 64 ->
  buildIndex fs (addRecords t0 adds) p = (true, fs', t') ->
  (id, key) ∈ adds -> truncated_id id' = truncated_id id ->
  lookup fs' t' id' = (Some key, t').
Proof.
  intros Hsort Hb0 Hnd Hsize Hbuild Hin Heq.
  destruct (built_from_adds fs t0 adds p fs' t' Hsort Hb0 Hsize Hbuild)
    as (recs & _ & Hrecs & Hsorted & Hopen & _ & Hsize').
  destruct (lookup_any fs' t' recs id' Hopen Hsize' (sorted_nondescending _ Hsorted))
    as (r & Hl & Hsome & Hnone).
  rewrite Hl. f_equal. destruct r as [key'|].
  - destruct (Hsome key' eq_refl) as (a & Ha & Hid & Hkey).
    rewrite Hrecs in Ha. apply list_elem_of_fmap in Ha as ([id2 key2] & -> & Hin2).
    apply same_id_record_of in Hid. simpl in Hkey. subst key2.
    assert ((id, key) = (id2, key')) as H.
    { apply (fmap_nodup_inj id_of adds); auto. unfold id_of at 1. simpl. congruence. }
    now injection H as _ ->.
  - exfalso.
    assert (Ha : record_of (id, key) ∈ recs).
    { rewrite Hrecs. apply list_elem_of_fmap. eauto. }
    pose proof (Hnone eq_refl _ Ha) as Hf.
    assert (same_id (padId id') (record_of (id, key)) = true) as Ht.
    { apply same_id_record_of. exact Heq. }
    congruence.
Qed.

(** X22. A successful [buildIndex] writes, at its path only, the number
    of records followed by the records of the buffer rearranged so that no
    record's id is less than the id before it; the buffer is then empty and
    the index is open with that record count. *)
Theorem buildIndex_writes_sorted (fs : FS) (t : ProductIndex) (p : string) :
  sort_spec -> buffer_ t <> [] -> creatable p = true ->
  sizeof_size_t + sizeof_ProductRecord * Z.of_nat (length (buffer_ t)) < 2 ^ 64 ->
  exists fs' t' recs,
    buildIndex fs t p = (true, fs', t') /\
    fs' !! p = Some (mkIndexFile (Some (Z.of_nat (length (buffer_ t)))) recs) /\
    (forall q, q <> p -> fs' !! q = fs !! q) /\
    recs ≡ₚ buffer_ t /\
    (forall (i j : nat) a b, recs !! i = Some a -> recs !! j = Some b -> (i < j)%nat ->
       ProductRecord_lt b a = false) /\
    buffer_ t' = [] /\ isOpen_ t' = true /\
    getRecordCount t' = Z.of_nat (length (buffer_ t)).
Proof.
  intros Hsort Hne Hc Hsize.
  change sizeof_ProductRecord with 72 in Hsize. change sizeof_size_t with 8 in Hsize.
  destruct (buildIndex_ok fs t p Hsort Hne Hc)
    as (fs' & t' & Hbuild & Hfs & Hopen & Hempty); [lia|].
  destruct (Hsort (buffer_ t)) as [Hperm Hsorted].
  exists fs', t', (std_sort (buffer_ t)).
  split; [exact Hbuild|].
  split; [rewrite Hfs; apply lookup_insert_eq|].
  split; [intros q Hq; rewrite Hfs; now apply lookup_insert_ne|].
  split; [exact Hperm|].
  split.
  { apply Sorted_StronglySorted in Hsorted; [|exact not_after_trans].
    intros i j a b Hi Hj Hij.
    exact (strongly_sorted_lookup _ _ Hsorted i j a b Hi Hj Hij). }
  split; [exact Hempty|].
  destruct Hopen as (_ & _ & Hio & Hcount & _).
  split; [exact Hio|]. unfold getRecordCount. now rewrite Hcount, Hperm.
Qed.

(** While the offsets stay within [size_t], every read of the search is at
    the start of a record. *)
Lemma read_record_whole fs s mid r :
  0 <= mid -> sizeof_size_t + sizeof_ProductRecord * mid < 2 ^ 64 ->
  read_record fs s
    (to_size_t (sizeof_size_t + to_size_t (mid * sizeof_ProductRecord))) = Some r ->
  exists f, fs !! path s = Some f /\ r ∈ packed f.
Proof.
  intros Hm Hb. unfold read_record.
  change sizeof_ProductRecord with 72 in *. change sizeof_size_t with 8 in *.
  rewrite (to_size_t_id (mid * _)) by lia.
  rewrite to_size_t_id by lia.
  destruct (is_open s && negb (failbit s)); [|discriminate].
  destruct (fs !! path s) as [f|]; [|discriminate].
  replace (8 + mid * 72 - 8) with (mid * 72) by lia.
  rewrite Z.mod_mul by lia.
  destruct (8 <=? 8 + mid * 72) eqn:E; [|lia]. simpl.
  intros H. exists f. split; [reflexivity|].
  eapply list_elem_of_lookup_2. exact H.
Qed.

Lemma binarySearch_loop_sound fs target count fuel : forall t left right key t',
  0 <= left -> right <= count ->
  sizeof_size_t + sizeof_ProductRecord * count < 2 ^ 64 ->
  binarySearch_loop fuel fs t target left right = (Some key, t') ->
  t' = t /\ exists f r, fs !! path (indexFile_ t) = Some f /\ r ∈ packed f /\
    strcmp target (productId r) = Eq /\ nodeKey r = key.
Proof.
  induction fuel as [|fuel IH]; intros t left right key t' Hl Hr Hb H; simpl in H;
    [discriminate|].
  destruct (left <? right) eqn:E; [|discriminate].
  apply Z.ltb_lt in E.
  assert (Hb' : sizeof_size_t + sizeof_ProductRecord * count < 2 ^ 64) by exact Hb.
  change sizeof_ProductRecord with 72 in Hb'. change sizeof_size_t with 8 in Hb'.
  rewrite (to_size_t_id (right - left)) in H by lia.
  set (mid := left + (right - left) / 2) in H.
  assert (Hmid : left <= mid < right).
  { unfold mid. split.
    - pose proof (Z.div_pos (right - left) 2). lia.
    - assert ((right - left) / 2 < right - left) by (apply Z.div_lt; lia). lia. }
  rewrite (to_size_t_id mid) in H by lia.
  destruct (read_record fs (indexFile_ t) _) as [record|] eqn:Hread; [|discriminate].
  destruct (strcmp target (productId record)) eqn:Hcmp.
  - injection H as <- <-. split; [reflexivity|].
    destruct (read_record_whole fs (indexFile_ t) mid record) as (f & Hf & Hin);
      [lia| |exact Hread|].
    { change sizeof_ProductRecord with 72. change sizeof_size_t with 8. lia. }
    exists f, record. auto.
  - apply (IH t left mid key t'); auto; lia.
  - rewrite (to_size_t_id (mid + 1)) in H by lia.
    apply (IH t (mid + 1) right key t'); auto; lia.
Qed.

(** X23. [lookup] makes up no answer on a file it did not write: on any
    file, sorted or not, whole or cut short, as long as the record count of
    the open index keeps the offsets of the search within [size_t]
    ([8 + 72 * count < 2^64]), a true answer yields the key of a record that
    is in the file under the id looked up (ids compared after truncation),
    and leaves the index as it was. *)
Theorem lookup_sound (fs : FS) (t : ProductIndex) (id : string) (key : Z)
  (t' : ProductIndex) :
  sizeof_size_t + sizeof_ProductRecord * recordCount_ t < 2 ^ 64 ->
  lookup fs t id = (Some key, t') ->
  t' = t /\ isOpen_ t = true /\
  exists f r, fs !! path (indexFile_ t) = Some f /\ r ∈ packed f /\
    cstr (productId r) = truncated_id id /\ nodeKey r = key.
Proof.
  intros Hb. unfold lookup. destruct (isOpen_ t); simpl; [|discriminate].
  destruct (recordCount_ t =? 0); [discriminate|].
  intros H.
  apply (binarySearch_loop_sound fs (padId id) (recordCount_ t)) in H
    as (-> & f & r & Hf & Hin & Hcmp & Hkey); [|lia|lia|exact Hb].
  split; [reflexivity|]. split; [reflexivity|].
  exists f, r. split; [exact Hf|]. split; [exact Hin|]. split; [|exact Hkey].
  apply strcmp_eq in Hcmp. now rewrite <- Hcmp, cstr_padId.
Qed.

(** *** How many records a search reads *)

(** The turns a search over an interval of [s] records can take:
    [floor(log2 s) + 1], none for an empty interval. *)
Definition turns (s : Z) : nat :=
  if s <=? 0 then O else Z.to_nat (Z.log2 s + 1).

Lemma turns_half s s' : 0 < s -> s' <= s / 2 -> (S (turns s') <= turns s)%nat.
Proof.
  intros Hs Hle. unfold turns.
  destruct (s <=? 0) eqn:E; [lia|].
  pose proof (Z.log2_nonneg s) as Hn.
  destruct (s' <=? 0) eqn:E'; [lia|].
  apply Z.leb_gt in E'.
  assert (Z.log2 s' <= Z.log2 (s / 2)) by (apply Z.log2_le_mono; lia).
  assert (2 <= s).
  { pose proof (Z.div_mod s 2 ltac:(lia)).
    pose proof (Z.mod_pos_bound s 2 ltac:(lia)). lia. }
  assert (1 <= Z.log2 s).
  { change 1 with (Z.log2 2). now apply Z.log2_le_mono. }
  assert (Z.log2 (s / 2) = Z.log2 s - 1).
  { replace (s / 2) with (Z.shiftr s 1) by (rewrite Z.shiftr_div_pow2 by lia; reflexivity).
    rewrite Z.log2_shiftr by lia. lia. }
  pose proof (Z.log2_nonneg s'). lia.
Qed.

Lemma binarySearch_loop_turns fs target : forall fuel1 fuel2 t left right,
  0 <= left -> right < 2 ^ 64 ->
  (turns (right - left) <= fuel1)%nat -> (turns (right - left) <= fuel2)%nat ->
  binarySearch_loop fuel1 fs t target left right =
  binarySearch_loop fuel2 fs t target left right.
Proof.
  assert (Hempty : forall fuel t left right, (turns (right - left) <= 0)%nat ->
            binarySearch_loop fuel fs t target left right = (None, t)).
  { intros fuel t left right H. unfold turns in H.
    destruct (right - left <=? 0) eqn:E.
    - destruct fuel; simpl; [reflexivity|].
      destruct (left <? right) eqn:E2; [lia|reflexivity].
    - pose proof (Z.log2_nonneg (right - left)). lia. }
  induction fuel1 as [|f1 IH]; intros fuel2 t left right Hl Hr H1 H2.
  - now rewrite !Hempty by lia.
  - destruct fuel2 as [|f2]; [now rewrite !Hempty by lia|].
    simpl. destruct (left <? right) eqn:E; [|reflexivity].
    apply Z.ltb_lt in E.
    rewrite (to_size_t_id (right - left)) by lia.
    set (mid := left + (right - left) / 2).
    assert (Hmid : left <= mid < right).
    { unfold mid. split.
      - pose proof (Z.div_pos (right - left) 2). lia.
      - assert ((right - left) / 2 < right - left) by (apply Z.div_lt; lia). lia. }
    rewrite (to_size_t_id mid) by lia.
    destruct (read_record fs (indexFile_ t) _) as [record|]; [|reflexivity].
    assert (Hlow : (S (turns (mid - left)) <= turns (right - left))%nat).
    { apply turns_half; [lia|]. unfold mid. lia. }
    assert (Hhigh : (S (turns (right - (mid + 1))) <= turns (right - left))%nat).
    { apply turns_half; [lia|]. unfold mid.
      pose proof (Z.div_mod (right - left) 2 ltac:(lia)).
      pose proof (Z.mod_pos_bound (right - left) 2 ltac:(lia)). lia. }
    destruct (strcmp target (productId record)); [reflexivity| |].
    + apply IH; lia.
    + rewrite (to_size_t_id (mid + 1)) by lia. apply IH; lia.
Qed.

(** X24. The search is logarithmic: on an index of [n] records the loop
    of [binarySearch], which reads one record a turn, is over within
    [floor(log2 n) + 1] turns; stopped after that many it has given the
    answer of the whole search. *)
Theorem binarySearch_reads_log (fs : FS) (t : ProductIndex) (targetId : string) :
  0 < recordCount_ t < 2 ^ 64 ->
  binarySearch fs t targetId =
  binarySearch_loop (Z.to_nat (Z.log2 (recordCount_ t) + 1)) fs t targetId
    0 (recordCount_ t).
Proof.
  intros Hc. unfold binarySearch.
  assert (Ht : turns (recordCount_ t - 0) = Z.to_nat (Z.log2 (recordCount_ t) + 1)).
  { unfold turns. rewrite Z.sub_0_r. destruct (recordCount_ t <=? 0) eqn:E; [lia|reflexivity]. }
  apply binarySearch_loop_turns; try lia.
  rewrite Ht.
  pose proof (Z.log2_lt_lin (recordCount_ t) ltac:(lia)). lia.
Qed.

End Sort.

(** ** An instance: merge sort, and a small catalogue *)

Local Open Scope string_scope.

#[local] Instance not_after_dec : RelDecision not_after :=
  fun a b => decide (ProductRecord_lt b a = false).

#[local] Instance not_after_is_total : Total not_after := not_after_total.

Lemma merge_sort_spec : sort_spec (merge_sort not_after).
Proof.
  intros l. split.
  - apply merge_sort_Permutation.
  - apply (Sorted_merge_sort not_after).
Defined.

Definition always (_ : string) : bool := true.

Definition catalogue : list (string * Z) :=
  [("pear", 2); ("apple", 1); ("fig", 3)].

Definition built : bool * FS * ProductIndex :=
  buildIndex (merge_sort not_after) always ∅
    (addRecords ProductIndex_new catalogue) "p.idx".

Lemma lookup_after_buildIndex_witness :
  (forall id key, (id, key) ∈ catalogue ->
     lookup built.1.2 built.2 id = (Some key, built.2)) /\
  (forall id, truncated_id id ∉ id_of <$> catalogue ->
     lookup built.1.2 built.2 id = (None, built.2)).
Proof.
  apply (lookup_after_buildIndex (merge_sort not_after) always ∅
           ProductIndex_new catalogue "p.idx").
  - exact merge_sort_spec.
  - reflexivity.
  - apply (bool_decide_unpack _). vm_compute. exact I.
  - vm_compute. reflexivity.
  - vm_compute. reflexivity.
Defined.

Lemma buildIndex_empty_buffer_witness :
  buildIndex (merge_sort not_after) always ∅ ProductIndex_new "p.idx" =
  (false, ∅, ProductIndex_new).
Proof.
  apply (buildIndex_empty_buffer (merge_sort not_after) always ∅
           ProductIndex_new "p.idx").
  reflexivity.
Defined.

(** After one record is added and the index is built, the buffer is empty
    and the index is open; building again, at any path, returns false and
    the index is still open, and still answers. *)
Lemma buildIndex_again_stays_open :
  let fs1 := built.1.2 in
  let t1 := built.2 in
  built.1.1 = true /\ buffer_ t1 = [] /\
  buildIndex (merge_sort not_after) always fs1 t1 "q.idx" = (false, fs1, t1) /\
  isOpen_ t1 = true /\
  lookup fs1 t1 "apple" = (Some 1, t1).
Proof. vm_compute. repeat split; reflexivity. Qed.

(** ** Instances for the further properties *)

Lemma catalogue_distinct : NoDup (id_of <$> catalogue).
Proof. apply (bool_decide_unpack _). vm_compute. exact I. Defined.

Lemma openIndex_fails_witness :
  exists t', openIndex built.1.2 built.2 "none.idx" = (false, t') /\
    isOpen_ t' = false /\ getRecordCount t' = 0 /\ buffer_ t' = buffer_ built.2 /\
    forall fs2 id, lookup fs2 t' id = (None, t').
Proof.
  apply (openIndex_fails built.1.2 built.2 "none.idx").
  left. vm_compute. reflexivity.
Defined.

Lemma build_then_openIndex_witness :
  exists u', openIndex built.1.2 ProductIndex_new "p.idx" = (true, u') /\
    getRecordCount u' = Z.of_nat (length catalogue) /\
    buffer_ u' = buffer_ ProductIndex_new /\
    (forall id key, (id, key) ∈ catalogue -> lookup built.1.2 u' id = (Some key, u')) /\
    (forall id, truncated_id id ∉ id_of <$> catalogue ->
       lookup built.1.2 u' id = (None, u')).
Proof.
  apply (build_then_openIndex (merge_sort not_after) always ∅
           ProductIndex_new catalogue "p.idx" built.1.2 built.2 ProductIndex_new).
  - exact merge_sort_spec.
  - reflexivity.
  - exact catalogue_distinct.
  - vm_compute. reflexivity.
  - vm_compute. reflexivity.
Defined.

(** Two records under one id. *)
Definition repeated : list (string * Z) := [("a", 1); ("b", 2); ("a", 3)].

Definition built_repeated : bool * FS * ProductIndex :=
  buildIndex (merge_sort not_after) always ∅
    (addRecords ProductIndex_new repeated) "r.idx".

Lemma lookup_with_repeated_ids_witness :
  exists r, lookup built_repeated.1.2 built_repeated.2 "a" = (r, built_repeated.2) /\
    (forall key, r = Some key ->
       exists id', (id', key) ∈ repeated /\ truncated_id id' = truncated_id "a") /\
    (r = None -> truncated_id "a" ∉ id_of <$> repeated).
Proof.
  apply (lookup_with_repeated_ids (merge_sort not_after) always ∅
           ProductIndex_new repeated "r.idx" built_repeated.1.2 built_repeated.2 "a").
  - exact merge_sort_spec.
  - reflexivity.
  - vm_compute. reflexivity.
  - vm_compute. reflexivity.
Defined.

(** A file system in which the empty path names no file that can be made. *)
Definition named (p : string) : bool := negb (String.eqb p "").

Lemma buildIndex_cannot_create_witness :
  exists t', buildIndex (merge_sort not_after) named ∅
               (addRecords ProductIndex_new catalogue) "" = (false, ∅, t') /\
    buffer_ t' ≡ₚ buffer_ (addRecords ProductIndex_new catalogue) /\
    Sorted not_after (buffer_ t') /\
    isOpen_ t' = isOpen_ (addRecords ProductIndex_new catalogue) /\
    recordCount_ t' = recordCount_ (addRecords ProductIndex_new catalogue) /\
    indexFile_ t' = indexFile_ (addRecords ProductIndex_new catalogue).
Proof.
  apply (buildIndex_cannot_create (merge_sort not_after) named ∅
           (addRecords ProductIndex_new catalogue) "").
  - exact merge_sort_spec.
  - discriminate.
  - reflexivity.
Defined.

(** A file cut short: its header counts three records, one is there. *)
Definition cut_short : FS :=
  {[ "c.idx" := mkIndexFile (Some 3) [ProductRecord_of "a" 1] ]}.

Definition on_cut_short : ProductIndex :=
  (openIndex cut_short ProductIndex_new "c.idx").2.

Lemma lookup_failure_is_sticky_witness :
  (lookup cut_short on_cut_short "z").1 = None /\
  forall fs2 id2,
    lookup fs2 (lookup cut_short on_cut_short "z").2 id2 =
      (None, (lookup cut_short on_cut_short "z").2) /\
    containsRecord fs2 (lookup cut_short on_cut_short "z").2 id2 =
      (false, (lookup cut_short on_cut_short "z").2).
Proof.
  apply (lookup_failure_is_sticky cut_short on_cut_short "z").
  - vm_compute. reflexivity.
  - vm_compute. reflexivity.
Defined.

Lemma containsRecord_after_buildIndex_witness :
  containsRecord built.1.2 built.2 "fig" =
  (bool_decide (truncated_id "fig" ∈ id_of <$> catalogue), built.2).
Proof.
  apply (containsRecord_after_buildIndex (merge_sort not_after) always ∅
           ProductIndex_new catalogue "p.idx").
  - exact merge_sort_spec.
  - reflexivity.
  - vm_compute. reflexivity.
  - vm_compute. reflexivity.
Defined.

(** Sixty-three characters, and two ids that go on after them. *)
Definition sixty_three : string :=
  "SKU-0000000000000000000000000000000000000000000000000000000-001".

Definition long_ids : list (string * Z) :=
  [(sixty_three ++ "-red", 7); ("short", 8)].

Definition built_long : bool * FS * ProductIndex :=
  buildIndex (merge_sort not_after) always ∅
    (addRecords ProductIndex_new long_ids) "l.idx".

Lemma lookup_ids_agree_on_prefix_witness :
  lookup built_long.1.2 built_long.2 (sixty_three ++ "-blue") = (Some 7, built_long.2).
Proof.
  apply (lookup_ids_agree_on_prefix (merge_sort not_after) always ∅
           ProductIndex_new long_ids "l.idx" built_long.1.2 built_long.2
           (sixty_three ++ "-red") (sixty_three ++ "-blue") 7).
  - exact merge_sort_spec.
  - reflexivity.
  - apply (bool_decide_unpack _). vm_compute. exact I.
  - vm_compute. reflexivity.
  - vm_compute. reflexivity.
  - apply (bool_decide_unpack _). vm_compute. exact I.
  - vm_compute. reflexivity.
Defined.

Lemma buildIndex_writes_sorted_witness :
  exists fs' t' recs,
    buildIndex (merge_sort not_after) always ∅
      (addRecords ProductIndex_new catalogue) "p.idx" = (true, fs', t') /\
    fs' !! "p.idx" =
      Some (mkIndexFile
              (Some (Z.of_nat (length (buffer_ (addRecords ProductIndex_new catalogue)))))
              recs) /\
    (forall q, q <> "p.idx" -> fs' !! q = (∅ : FS) !! q) /\
    recs ≡ₚ buffer_ (addRecords ProductIndex_new catalogue) /\
    (forall (i j : nat) a b, recs !! i = Some a -> recs !! j = Some b -> (i < j)%nat ->
       ProductRecord_lt b a = false) /\
    buffer_ t' = [] /\ isOpen_ t' = true /\
    getRecordCount t' =
      Z.of_nat (length (buffer_ (addRecords ProductIndex_new catalogue))).
Proof.
  apply (buildIndex_writes_sorted (merge_sort not_after) always ∅
           (addRecords ProductIndex_new catalogue) "p.idx").
  - exact merge_sort_spec.
  - discriminate.
  - reflexivity.
  - vm_compute. reflexivity.
Defined.

(** A file whose records are out of order. *)
Definition unsorted : FS :=
  {[ "u.idx" := mkIndexFile (Some 3)
       [ProductRecord_of "m" 1; ProductRecord_of "z" 2; ProductRecord_of "a" 3] ]}.

Definition on_unsorted : ProductIndex :=
  (openIndex unsorted ProductIndex_new "u.idx").2.

Lemma lookup_sound_witness :
  exists f r, unsorted !! path (indexFile_ on_unsorted) = Some f /\ r ∈ packed f /\
    cstr (productId r) = truncated_id "z" /\ nodeKey r = 2.
Proof.
  apply (lookup_sound unsorted on_unsorted "z" 2 on_unsorted).
  - vm_compute. reflexivity.
  - vm_compute. reflexivity.
Defined.

(** Why the bound on the count is there.  A file of two records whose
    header claims 512409557603043102: the first probe is at record
    256204778801521551, whose offset [8 + mid * 72] wraps to byte 64, the
    last sixteen bytes of the first record and the head of the second.
    Read as a record they begin with a NUL, so [lookup] of the empty id
    answers true, with key 0, though no record has that id or that key. *)
Definition crafted : FS :=
  {[ "x.idx" := mkIndexFile (Some 512409557603043102)
       [ProductRecord_of "a" 1; ProductRecord_of "b" 2] ]}.

Definition on_crafted : ProductIndex :=
  (openIndex crafted ProductIndex_new "x.idx").2.

Lemma lookup_on_crafted_count :
  lookup crafted on_crafted "" = (Some 0, on_crafted) /\
  forall r, r ∈ [ProductRecord_of "a" 1; ProductRecord_of "b" 2] ->
    cstr (productId r) <> truncated_id "" /\ nodeKey r <> 0.
Proof.
  split.
  - assert (Hio : isOpen_ on_crafted = true) by reflexivity.
    assert (Hc : recordCount_ on_crafted = 512409557603043102)
      by (vm_compute; reflexivity).
    unfold lookup, binarySearch. rewrite Hio, Hc.
    replace (512409557603043102 =? 0)%Z with false by reflexivity.
    cbn [negb orb].
    assert (Ht : turns (512409557603043102 - 0) = 59%nat) by (vm_compute; reflexivity).
    rewrite (binarySearch_loop_turns crafted (padId "")
               (Z.to_nat 512409557603043102) 59 on_crafted 0 512409557603043102);
      [|lia|lia|rewrite Ht; lia|rewrite Ht; lia].
    vm_compute. reflexivity.
  - intros r Hr. apply elem_of_cons in Hr as [->|Hr];
      [|apply elem_of_cons in Hr as [->|Hr]; [|inversion Hr]];
      split; vm_compute; discriminate.
Qed.

Lemma binarySearch_reads_log_witness :
  binarySearch built.1.2 built.2 (padId "fig") =
  binarySearch_loop (Z.to_nat (Z.log2 (recordCount_ built.2) + 1))
    built.1.2 built.2 (padId "fig") 0 (recordCount_ built.2).
Proof.
  apply (binarySearch_reads_log built.1.2 built.2 (padId "fig")).
  vm_compute. split; reflexivity.
Defined.

End ProductIndex.
